(** * Deferred payment facilitator: a shallow embedding and its properties

    The development embeds [FacilitatorService] (verification, queueing,
    batching, completion and failure of settlements, disputes, expiry
    sweep) and the threshold evaluator of [SettlementService], and proves
    the properties of the specification against that embedding.

    Conventions of the embedding.
    - A JavaScript [number] that holds an amount is an IEEE 754 binary64
      value ([spec_float] with precision 53 and maximal exponent 1024);
      [parseFloat], [+], [>=], [/] and [toFixed] are the binary64 ones.
    - Epoch-millisecond time stamps are integers ([Z]); [Date.now()] is an
      explicit argument [now] of every operation, one reading per call.
    - The JavaScript object used as the authorization store is a [gmap]
      keyed by authorization id (ids are taken not to be names of members
      of [Object.prototype]).  Authorization objects are shared between
      the store and the batches that list them: a reference to such an
      object is represented by the key under which the store holds it, and
      a write through any alias is a write to the store. *)

From Stdlib Require Import ZArith String Ascii List Bool Lia.
From Stdlib.Floats Require Import SpecFloat.
From stdpp Require Import gmap strings list pretty.

Import ListNotations.
Local Open Scope string_scope.
Local Open Scope Z_scope.

(** ** SHA-256 (FIPS 180-4), as computed by [createHash('sha256')] *)

Module SHA256.

Definition mask32 : Z := 0xFFFFFFFF.
Definition add32 (x y : Z) : Z := Z.land (x + y) mask32.
Definition rotr (n x : Z) : Z :=
  Z.lor (Z.shiftr x n) (Z.land (Z.shiftl x (32 - n)) mask32).
Definition Ch (x y z : Z) : Z :=
  Z.lxor (Z.land x y) (Z.land (Z.lxor x mask32) z).
Definition Maj (x y z : Z) : Z :=
  Z.lxor (Z.lxor (Z.land x y) (Z.land x z)) (Z.land y z).
Definition bsig0 (x : Z) : Z := Z.lxor (Z.lxor (rotr 2 x) (rotr 13 x)) (rotr 22 x).
Definition bsig1 (x : Z) : Z := Z.lxor (Z.lxor (rotr 6 x) (rotr 11 x)) (rotr 25 x).
Definition ssig0 (x : Z) : Z := Z.lxor (Z.lxor (rotr 7 x) (rotr 18 x)) (Z.shiftr x 3).
Definition ssig1 (x : Z) : Z := Z.lxor (Z.lxor (rotr 17 x) (rotr 19 x)) (Z.shiftr x 10).

Definition isPrime (n : Z) : bool :=
  List.forallb (fun d => negb (n mod d =? 0))
    (List.map Z.of_nat (List.seq 2 (Z.to_nat (Z.sqrt n) - 1))).

(** The first sixty-four primes, 2 to 311. *)
Definition primes : list Z :=
  List.firstn 64 (List.filter isPrime (List.map Z.of_nat (List.seq 2 310))).

(** Integer cube root, by bisection between [lo] and [hi]. *)
Fixpoint cubeRoot (fuel : nat) (n lo hi : Z) : Z :=
  match fuel with
  | O => lo
  | S fuel' =>
      if hi - lo <=? 1 then lo
      else
        let mid := (lo + hi) / 2 in
        if mid * mid * mid <=? n then cubeRoot fuel' n mid hi else cubeRoot fuel' n lo mid
  end.

(** Round constants: the first 32 bits of the fractional parts of the cube
    roots of the primes. *)
Definition K : list Z :=
  Eval vm_compute in
    List.map (fun p => cubeRoot 64 (p * 2 ^ 96) 0 (2 ^ 40) mod 2 ^ 32) primes.

(** Initial hash value: the same of the square roots of the first eight. *)
Definition H0 : list Z :=
  Eval vm_compute in
    List.map (fun p => Z.sqrt (p * 2 ^ 64) mod 2 ^ 32) (List.firstn 8 primes).

Definition bytes_of_string (s : string) : list Z :=
  List.map (fun c => Z.of_N (N_of_ascii c)) (list_ascii_of_string s).

(** Big-endian bytes of [x], [n] of them. *)
Fixpoint be_bytes (n : nat) (x : Z) : list Z :=
  match n with
  | O => []
  | S n' => Z.land (Z.shiftr x (8 * Z.of_nat n')) 0xFF :: be_bytes n' x
  end.

(** The message, a one bit, zero bits up to 56 modulo 64 bytes, and the
    bit length on 64 bits. *)
Definition pad (msg : list Z) : list Z :=
  let len := Z.of_nat (List.length msg) in
  let zeros := Z.to_nat ((55 - len) mod 64) in
  msg ++ [0x80] ++ List.repeat 0 zeros ++ be_bytes 8 (8 * len).

Fixpoint words (fuel : nat) (bs : list Z) : list Z :=
  match fuel, bs with
  | S f, b0 :: b1 :: b2 :: b3 :: rest =>
      (Z.shiftl b0 24 + Z.shiftl b1 16 + Z.shiftl b2 8 + b3) :: words f rest
  | _, _ => []
  end.

(** The message schedule, kept most recent word first while it grows. *)
Fixpoint extend (n : nat) (rev_w : list Z) : list Z :=
  match n with
  | O => rev_w
  | S n' =>
      let w := add32 (add32 (ssig1 (nth 1 rev_w 0)) (nth 6 rev_w 0))
                     (add32 (ssig0 (nth 14 rev_w 0)) (nth 15 rev_w 0)) in
      extend n' (w :: rev_w)
  end.

Definition schedule (block : list Z) : list Z := List.rev (extend 48 (List.rev block)).

Definition round (st : list Z) (kw : Z * Z) : list Z :=
  match st with
  | [a; b; c; d; e; f; g; h] =>
      let t1 := add32 (add32 (add32 h (bsig1 e)) (add32 (Ch e f g) (fst kw))) (snd kw) in
      let t2 := add32 (bsig0 a) (Maj a b c) in
      [add32 t1 t2; a; b; c; add32 d t1; e; f; g]
  | _ => st
  end.

Definition compress (h : list Z) (block : list Z) : list Z :=
  let st := List.fold_left round (List.combine K (schedule block)) h in
  List.map (fun p => add32 (fst p) (snd p)) (List.combine h st).

Fixpoint blocks (fuel : nat) (ws : list Z) : list (list Z) :=
  match fuel, ws with
  | _, [] => []
  | O, _ => []
  | S f, _ => List.firstn 16 ws :: blocks f (List.skipn 16 ws)
  end.

Definition digest (msg : list Z) : list Z :=
  let ws := words (List.length (pad msg)) (pad msg) in
  List.fold_left compress (blocks (List.length ws) ws) H0.

Definition hex_digit (d : Z) : ascii :=
  ascii_of_N (Z.to_N (if d <? 10 then 48 + d else 87 + d)).

Fixpoint hex_of_word (n : nat) (x : Z) : string :=
  match n with
  | O => EmptyString
  | S n' => String (hex_digit (Z.land (Z.shiftr x (4 * Z.of_nat n')) 0xF)) (hex_of_word n' x)
  end.

(** [createHash('sha256').update(s).digest('hex')] *)
Definition sha256_hex (s : string) : string :=
  String.concat EmptyString (List.map (hex_of_word 8) (digest (bytes_of_string s))).

End SHA256.

(** ** JavaScript numbers: binary64 arithmetic, [parseFloat], [toFixed] *)

Module JS.

Definition number : Type := spec_float.
Definition prec : Z := 53.
Definition emax : Z := 1024.

Definition zero : number := S754_zero false.
Definition add (x y : number) : number := SFadd prec emax x y.
Definition div (x y : number) : number := SFdiv prec emax x y.
Definition mul (x y : number) : number := SFmul prec emax x y.
(** [x >= y]; false as soon as one side is NaN. *)
Definition ge (x y : number) : bool := SFleb y x.
(** [x > y]; false as soon as one side is NaN. *)
Definition gt (x y : number) : bool := SFltb y x.
(** The number nearest to an integer, ties to even. *)
Definition ofZ (z : Z) : number := binary_normalize prec emax z 0 false.

(** *** [parseFloat] *)

Definition isDigit (c : ascii) : bool :=
  let n := Z.of_N (N_of_ascii c) in (48 <=? n) && (n <=? 57).
Definition digitVal (c : ascii) : Z := Z.of_N (N_of_ascii c) - 48.

(** White space and line terminators of ECMAScript, in UTF-8. *)
Definition whiteSpace : list string :=
  [String (ascii_of_N 9) EmptyString; String (ascii_of_N 10) EmptyString;
   String (ascii_of_N 11) EmptyString; String (ascii_of_N 12) EmptyString;
   String (ascii_of_N 13) EmptyString; " ";
   String (ascii_of_N 194) (String (ascii_of_N 160) EmptyString);
   String (ascii_of_N 225) (String (ascii_of_N 154) (String (ascii_of_N 128) EmptyString));
   String (ascii_of_N 226) (String (ascii_of_N 128) (String (ascii_of_N 168) EmptyString));
   String (ascii_of_N 226) (String (ascii_of_N 128) (String (ascii_of_N 169) EmptyString));
   String (ascii_of_N 226) (String (ascii_of_N 128) (String (ascii_of_N 175) EmptyString));
   String (ascii_of_N 226) (String (ascii_of_N 129) (String (ascii_of_N 159) EmptyString));
   String (ascii_of_N 227) (String (ascii_of_N 128) (String (ascii_of_N 128) EmptyString));
   String (ascii_of_N 239) (String (ascii_of_N 187) (String (ascii_of_N 191) EmptyString))]
  ++ List.map (fun k => String (ascii_of_N 226) (String (ascii_of_N 128)
                           (String (ascii_of_N (128 + N.of_nat k)) EmptyString)))
              (List.seq 0 11).

Fixpoint dropPrefix (p s : string) : option string :=
  match p, s with
  | EmptyString, _ => Some s
  | String a p', String b s' => if Ascii.eqb a b then dropPrefix p' s' else None
  | _, _ => None
  end.

Definition dropOneSpace (s : string) : option string :=
  List.fold_right (fun w acc => match dropPrefix w s with Some r => Some r | None => acc end)
                  None whiteSpace.

Fixpoint trimStart (fuel : nat) (s : string) : string :=
  match fuel with
  | O => s
  | S f => match dropOneSpace s with Some r => trimStart f r | None => s end
  end.

(** The leading decimal digits of [s] and what follows them. *)
Fixpoint takeDigits (s : string) : list Z * string :=
  match s with
  | String c s' =>
      if isDigit c then let '(ds, r) := takeDigits s' in (digitVal c :: ds, r)
      else ([], s)
  | EmptyString => ([], s)
  end.

Definition digitsValue (ds : list Z) : Z := List.fold_left (fun acc d => 10 * acc + d) ds 0.

Definition takeSign (s : string) : bool * string :=
  match s with
  | String "-" r => (true, r)
  | String "+" r => (false, r)
  | _ => (false, s)
  end.

(** The exponent part [e±ddd], when it is complete. *)
Definition takeExponent (s : string) : Z :=
  match s with
  | String c r =>
      if Ascii.eqb c "e" || Ascii.eqb c "E" then
        let '(neg, r') := takeSign r in
        let '(ds, _) := takeDigits r' in
        match ds with
        | [] => 0
        | _ => if neg then - digitsValue ds else digitsValue ds
        end
      else 0
  | EmptyString => 0
  end.

(** The number nearest to [m * 10^e], ties to even, for [m > 0]. *)
Definition ofDecimal (neg : bool) (m : positive) (e : Z) : number :=
  let magnitude := Z.of_nat (String.length (pretty (Zpos m))) + e in
  if 400 <? magnitude then S754_infinity neg
  else if magnitude <? -400 then S754_zero neg
  else if 0 <=? e then binary_normalize prec emax ((if neg then Zneg m else Zpos m) * 10 ^ e) 0 false
  else SFdiv prec emax (S754_finite neg m 0) (S754_finite false (Z.to_pos (10 ^ (- e))) 0).

Definition parseFloat (input : string) : number :=
  let s := trimStart (String.length input) input in
  let '(neg, s1) := takeSign s in
  match dropPrefix "Infinity" s1 with
  | Some _ => S754_infinity neg
  | None =>
      let '(ints, s2) := takeDigits s1 in
      let '(fracs, s3) :=
        match s2 with
        | String "." r => takeDigits r
        | _ => ([], s2)
        end in
      match ints, fracs with
      | [], [] => S754_nan
      | _, _ =>
          let e := takeExponent s3 - Z.of_nat (List.length fracs) in
          match digitsValue (ints ++ fracs) with
          | Zpos m => ofDecimal neg m e
          | _ => S754_zero neg
          end
      end
  end.

(** *** [Number.prototype.toFixed] and [Number::toString] *)

Definition exactInt (m : positive) (e : Z) : Z := Zpos m * 2 ^ e.

Fixpoint stripZeros (rev_digits : list ascii) : list ascii :=
  match rev_digits with
  | c :: r => if Ascii.eqb c "0" then stripZeros r else rev_digits
  | [] => []
  end.

(** Exponential notation of the integer [v > 0]: [d.ddde+n]. *)
Definition exponential (v : Z) : string :=
  let ds := list_ascii_of_string (pretty v) in
  let n := Z.of_nat (List.length ds) - 1 in
  match List.rev (stripZeros (List.rev ds)) with
  | [] => "0"
  | [d] => String d ("e+" ++ pretty n)
  | d :: rest => String d ("." ++ string_of_list_ascii rest ++ "e+" ++ pretty n)
  end.

(** The shortest decimal that reads back as [x], for an integral
    [x = X >= 10^21]; among decimals of that length the nearest to [X],
    and of two equally near the even one. *)
Fixpoint shortest (fuel : nat) (k : Z) (X : Z) (x : number) : Z :=
  match fuel with
  | O => X
  | S f =>
      let p := 10 ^ (Z.of_nat (String.length (pretty X)) - k) in
      let s := X / p in
      let v1 := s * p in
      let v2 := (s + 1) * p in
      let ok1 := SFeqb (ofZ v1) x in
      let ok2 := SFeqb (ofZ v2) x in
      if ok1 && ok2 then
        (if X - v1 <? v2 - X then v1
         else if v2 - X <? X - v1 then v2
         else if Z.even s then v1 else v2)
      else if ok1 then v1
      else if ok2 then v2
      else shortest f (k + 1) X x
  end.

Definition padLeft (n : nat) (s : string) : string :=
  string_of_list_ascii (List.repeat "0"%char (n - String.length s)) ++ s.

Definition toFixed (x : number) (fractionDigits : nat) : string :=
  match x with
  | S754_nan => "NaN"
  | S754_infinity s => if s then "-Infinity" else "Infinity"
  | S754_zero _ =>
      if Nat.eqb fractionDigits 0 then "0"
      else "0." ++ string_of_list_ascii (List.repeat "0"%char fractionDigits)
  | S754_finite s m e =>
      let sign := if s then "-" else "" in
      if (0 <=? e) && (10 ^ 21 <=? exactInt m e) then
        sign ++ exponential (shortest 17 1 (exactInt m e) (S754_finite false m e))
      else
        (* n / 10^f nearest to x, the larger of two equally near *)
        let f := Z.of_nat fractionDigits in
        let n := if 0 <=? e then Zpos m * 2 ^ e * 10 ^ f
                 else (2 * Zpos m * 10 ^ f + 2 ^ (- e)) / (2 * 2 ^ (- e)) in
        let digits := padLeft (S fractionDigits) (pretty n) in
        let k := (String.length digits - fractionDigits)%nat in
        if Nat.eqb fractionDigits 0 then sign ++ digits
        else sign ++ String.substring 0 k digits ++ "." ++ String.substring k fractionDigits digits
  end.

End JS.

(** ** Data model (packages/shared/src/x402/types.ts) *)

Module AuthorizationStatus.
Inductive t := pending | validated | settled | disputed | expired.
#[global] Instance eq_dec : EqDecision t.
Proof. solve_decision. Defined.
End AuthorizationStatus.

Module BatchStatus.
Inductive t := pending | processing | completed | failed.
#[global] Instance eq_dec : EqDecision t.
Proof. solve_decision. Defined.
End BatchStatus.

Module DisputeStatus.
Inductive t := pending | investigating | resolved | rejected.
#[global] Instance eq_dec : EqDecision t.
Proof. solve_decision. Defined.
End DisputeStatus.

Module Resolution.
Inductive t := approved | rejected.
End Resolution.

(** [metadata] is an untyped bag that no operation of the facilitator reads
    or writes; it is left out of the record. *)
Module PaymentAuthorization.
Record t := mk {
  id : string;
  agentAddress : string;
  merchantAddress : string;
  toolName : string;
  amount : string;
  currency : string;
  timestamp : Z;
  expiresAt : Z;
  signature : string;
  nonce : string;
  status : AuthorizationStatus.t;
  dataHash : option string
}.
(** [auth.status = st] *)
Definition setStatus (st : AuthorizationStatus.t) (a : t) : t :=
  mk (id a) (agentAddress a) (merchantAddress a) (toolName a) (amount a) (currency a)
     (timestamp a) (expiresAt a) (signature a) (nonce a) st (dataHash a).
End PaymentAuthorization.

(** A reference to an authorization object: the key of the store entry that
    holds the object. *)
Abbreviation AuthorizationRef := string (only parsing).

Module AgentUsage.
Record t := mk {
  authorizations : list string;
  totalAmount : JS.number;
  firstRequestAt : Z;
  lastRequestAt : Z;
  requestCount : Z
}.
End AgentUsage.

Module SettlementBatch.
Record t := mk {
  id : string;
  agentAddress : string;
  merchantAddress : string;
  authorizations : list AuthorizationRef;
  totalAmount : string;
  currency : string;
  status : BatchStatus.t;
  createdAt : Z;
  settledAt : option Z;
  transactionSignature : option string;
  error : option string
}.
End SettlementBatch.

Module Evidence.
Record t := mk {
  dataHash : option string;
  validationErrors : option (list string)
}.
End Evidence.

Module DisputeRecord.
Record t := mk {
  id : string;
  authorizationId : string;
  agentAddress : string;
  merchantAddress : string;
  reason : string;
  status : DisputeStatus.t;
  createdAt : Z;
  resolvedAt : option Z;
  resolution : option string;
  evidence : option Evidence.t
}.
End DisputeRecord.

Module SettlementThreshold.
Record t := mk {
  amountThreshold : string;
  timeThreshold : JS.number;
  countThreshold : JS.number
}.
End SettlementThreshold.

(** What a call gives back: a value, or the message of the [Error] thrown. *)
Inductive Outcome (A : Type) : Type :=
| Returned (a : A)
| Thrown (message : string).
Arguments Returned {A} a.
Arguments Thrown {A} message.

(** [queue.indexOf(x)] followed by [queue.splice(index, 1)] when the index
    is not -1: the first occurrence goes, later ones stay. *)
Fixpoint removeFirst (x : string) (queue : list string) : list string :=
  match queue with
  | [] => []
  | y :: rest => if decide (y = x) then rest else y :: removeFirst x rest
  end.

(** ** FacilitatorService *)

Module FacilitatorService.

(** The private fields of the class. *)
Record State := mkState {
  authorizations : gmap string PaymentAuthorization.t;
  agentUsage : gmap string AgentUsage.t;
  settlementQueue : list string;
  settlementBatches : list SettlementBatch.t;
  disputes : list DisputeRecord.t;
  settlementThresholds : SettlementThreshold.t
}.

(** [new FacilitatorService({ settlementThresholds })] *)
Definition create (thresholds : SettlementThreshold.t) : State :=
  mkState ∅ ∅ [] [] [] thresholds.

Definition setAuthorizations (m : gmap string PaymentAuthorization.t) (s : State) : State :=
  mkState m (agentUsage s) (settlementQueue s) (settlementBatches s) (disputes s)
          (settlementThresholds s).
Definition setAgentUsage (u : gmap string AgentUsage.t) (s : State) : State :=
  mkState (authorizations s) u (settlementQueue s) (settlementBatches s) (disputes s)
          (settlementThresholds s).
Definition setSettlementQueue (q : list string) (s : State) : State :=
  mkState (authorizations s) (agentUsage s) q (settlementBatches s) (disputes s)
          (settlementThresholds s).
Definition setSettlementBatches (b : list SettlementBatch.t) (s : State) : State :=
  mkState (authorizations s) (agentUsage s) (settlementQueue s) b (disputes s)
          (settlementThresholds s).
Definition setDisputes (d : list DisputeRecord.t) (s : State) : State :=
  mkState (authorizations s) (agentUsage s) (settlementQueue s) (settlementBatches s) d
          (settlementThresholds s).

(** [auth.status = st] through the reference [r]. *)
Definition writeStatus (r : AuthorizationRef) (st : AuthorizationStatus.t) (s : State) : State :=
  setAuthorizations (alter (PaymentAuthorization.setStatus st) r (authorizations s)) s.

Module VerifyResult.
Record t := mk { valid : bool; reason : option string }.
End VerifyResult.

Module QueueResult.
Record t := mk { success : bool; shouldSettle : bool; reason : option string }.
End QueueResult.

(** The fields joined with ['|']; the two time stamps print in base 10. *)
Definition signaturePayload (authorization : PaymentAuthorization.t) : string :=
  String.concat "|"
    [PaymentAuthorization.id authorization;
     PaymentAuthorization.agentAddress authorization;
     PaymentAuthorization.merchantAddress authorization;
     PaymentAuthorization.amount authorization;
     PaymentAuthorization.currency authorization;
     pretty (PaymentAuthorization.timestamp authorization);
     pretty (PaymentAuthorization.expiresAt authorization);
     PaymentAuthorization.nonce authorization].

Definition verifySignature (authorization : PaymentAuthorization.t) : bool :=
  bool_decide (SHA256.sha256_hex (signaturePayload authorization)
               = PaymentAuthorization.signature authorization).

Definition trackAgentUsage (now : Z) (authorization : PaymentAuthorization.t)
    (s : State) : State :=
  let agentAddress := PaymentAuthorization.agentAddress authorization in
  let usage :=
    match agentUsage s !! agentAddress with
    | Some u => u
    | None => AgentUsage.mk [] JS.zero now now 0
    end in
  setAgentUsage
    (<[agentAddress :=
         AgentUsage.mk
           (AgentUsage.authorizations usage ++ [PaymentAuthorization.id authorization])
           (JS.add (AgentUsage.totalAmount usage)
                   (JS.parseFloat (PaymentAuthorization.amount authorization)))
           (AgentUsage.firstRequestAt usage)
           now
           (AgentUsage.requestCount usage + 1)]> (agentUsage s)) s.

Definition verifyAuthorization (now : Z) (authorization : PaymentAuthorization.t)
    (s : State) : VerifyResult.t * State :=
  match authorizations s !! PaymentAuthorization.id authorization with
  | Some _ => (VerifyResult.mk false (Some "Authorization already exists"), s)
  | None =>
      if PaymentAuthorization.expiresAt authorization <? now then
        (VerifyResult.mk false (Some "Authorization expired"), s)
      else if negb (verifySignature authorization) then
        (VerifyResult.mk false (Some "Invalid signature"), s)
      else
        (VerifyResult.mk true None,
         trackAgentUsage now authorization
           (setAuthorizations
              (<[PaymentAuthorization.id authorization := authorization]> (authorizations s)) s))
  end.

(** [this.settlementQueue.map(id => this.authorizations[id])
      .filter(auth => auth && auth.agentAddress === agentAddress)],
    each object with the reference it was reached by. *)
Definition queuedAuthorizations (s : State) (agentAddress : string)
    : list (AuthorizationRef * PaymentAuthorization.t) :=
  List.filter
    (fun ra => bool_decide (PaymentAuthorization.agentAddress (snd ra) = agentAddress))
    (omap (fun id => pair id <$> authorizations s !! id) (settlementQueue s)).

(** [auths.reduce((sum, auth) => sum + parseFloat(auth.amount), 0)] *)
Definition sumAmounts (auths : list PaymentAuthorization.t) : JS.number :=
  List.fold_left
    (fun sum auth => JS.add sum (JS.parseFloat (PaymentAuthorization.amount auth)))
    auths JS.zero.

Definition checkSettlementThresholds (now : Z) (agentAddress : string) (s : State) : bool :=
  match agentUsage s !! agentAddress with
  | None => false
  | Some usage =>
      let queued := List.map snd (queuedAuthorizations s agentAddress) in
      let queuedAmount := sumAmounts queued in
      let queuedCount := JS.ofZ (Z.of_nat (List.length queued)) in
      let timeSinceFirst :=
        JS.div (JS.ofZ (now - AgentUsage.firstRequestAt usage)) (JS.ofZ 1000) in
      let thresholds := settlementThresholds s in
      let amountThreshold := JS.parseFloat (SettlementThreshold.amountThreshold thresholds) in
      let meetsAmount := JS.ge queuedAmount amountThreshold in
      let meetsTime := JS.ge timeSinceFirst (SettlementThreshold.timeThreshold thresholds) in
      let meetsCount := JS.ge queuedCount (SettlementThreshold.countThreshold thresholds) in
      meetsAmount || meetsTime || meetsCount
  end.

Definition queueForSettlement (now : Z) (authorizationId : string) (s : State)
    : QueueResult.t * State :=
  match authorizations s !! authorizationId with
  | None => (QueueResult.mk false false (Some "Authorization not found"), s)
  | Some authorization =>
      if decide (authorizationId ∈ settlementQueue s) then
        (QueueResult.mk false false (Some "Already queued"), s)
      else if decide (PaymentAuthorization.status authorization = AuthorizationStatus.settled) then
        (QueueResult.mk false false (Some "Already settled"), s)
      else
        let s' :=
          writeStatus authorizationId AuthorizationStatus.validated
            (setSettlementQueue (settlementQueue s ++ [authorizationId]) s) in
        let shouldSettle :=
          checkSettlementThresholds now (PaymentAuthorization.agentAddress authorization) s' in
        (QueueResult.mk true shouldSettle
           (if shouldSettle then Some "Settlement threshold met" else None), s')
  end.

(** [Object.values(this.authorizations)]; the order of the listing is that
    of the map, which the callers below do not depend on. *)
Definition allAuthorizations (s : State) : list (AuthorizationRef * PaymentAuthorization.t) :=
  map_to_list (authorizations s).

Definition listPendingAuthorizations (s : State) (agentAddress : string)
    : list PaymentAuthorization.t :=
  List.filter
    (fun auth =>
       bool_decide (PaymentAuthorization.agentAddress auth = agentAddress)
       && bool_decide (PaymentAuthorization.status auth = AuthorizationStatus.validated)
       && bool_decide (PaymentAuthorization.id auth ∈ settlementQueue s))
    (List.map snd (allAuthorizations s)).

Definition getAuthorization (s : State) (authorizationId : string)
    : option PaymentAuthorization.t :=
  authorizations s !! authorizationId.


Definition getAgentUsage (s : State) (agentAddress : string) : AgentUsage.t :=
  match agentUsage s !! agentAddress with
  | Some u => u
  | None => AgentUsage.mk [] JS.zero 0 0 0
  end.

(** [merchantCounts.set(m, (merchantCounts.get(m) || 0) + 1)] on a [Map],
    whose entries keep the order of their first insertion. *)
Fixpoint countMerchant (merchant : string) (counts : list (string * Z)) : list (string * Z) :=
  match counts with
  | [] => [(merchant, 1)]
  | (k, c) :: rest =>
      if decide (k = merchant) then (k, c + 1) :: rest
      else (k, c) :: countMerchant merchant rest
  end.

(** The merchant with the most queued authorizations; [merchantAddress] is
    assigned only by a count strictly above the running maximum. *)
Definition mostQueuedMerchant (auths : list (AuthorizationRef * PaymentAuthorization.t))
    (merchantAddress : option string) : option string :=
  let merchantCounts :=
    List.fold_left
      (fun counts ra => countMerchant (PaymentAuthorization.merchantAddress (snd ra)) counts)
      auths [] in
  snd (List.fold_left
         (fun acc mc => if fst acc <? snd mc then (snd mc, Some (fst mc)) else acc)
         merchantCounts (0, merchantAddress)).

(** [!merchantAddress]: the argument is missing or the empty string. *)
Definition notGiven (merchantAddress : option string) : bool :=
  match merchantAddress with
  | None => true
  | Some m => bool_decide (m = "")
  end.

Definition batchId (now : Z) (agentAddress : string) : string :=
  "batch_" ++ pretty now ++ "_" ++ String.substring 0 8 agentAddress.

Definition createSettlementBatch (now : Z) (agentAddress : string)
    (merchantAddress : option string) (s : State) : option SettlementBatch.t * State :=
  let agentAuthorizations := queuedAuthorizations s agentAddress in
  match agentAuthorizations with
  | [] => (None, s)
  | _ :: _ =>
      let merchantAddress :=
        if notGiven merchantAddress
        then mostQueuedMerchant agentAuthorizations merchantAddress
        else merchantAddress in
      let agentAuthorizations :=
        List.filter
          (fun ra => bool_decide (Some (PaymentAuthorization.merchantAddress (snd ra))
                                  = merchantAddress))
          agentAuthorizations in
      match agentAuthorizations, merchantAddress with
      | (_, first) :: _, Some merchant =>
          let totalAmount := JS.toFixed (sumAmounts (List.map snd agentAuthorizations)) 6 in
          let batch :=
            SettlementBatch.mk (batchId now agentAddress) agentAddress merchant
              (List.map fst agentAuthorizations) totalAmount
              (PaymentAuthorization.currency first)
              BatchStatus.pending now None None None in
          (Some batch, setSettlementBatches (settlementBatches s ++ [batch]) s)
      | _, _ => (None, s)
      end
  end.

(** Merchants of the agent's queued authorizations, each once, in the order
    of their first queue entry. *)
Definition getPendingMerchants (s : State) (agentAddress : string) : list string :=
  List.fold_left
    (fun (merchants : list string) ra =>
       let m := PaymentAuthorization.merchantAddress (snd ra) in
       if decide (m ∈ merchants) then merchants else (merchants ++ [m])%list)
    (queuedAuthorizations s agentAddress) [].

Definition findBatch (batchId : string) (s : State) : option (nat * SettlementBatch.t) :=
  list_find (fun b => SettlementBatch.id b = batchId) (settlementBatches s).

(** One turn of the [forEach] of [completeSettlement]. *)
Definition settleMember (s : State) (r : AuthorizationRef) : State :=
  match authorizations s !! r with
  | Some auth =>
      setSettlementQueue (removeFirst (PaymentAuthorization.id auth) (settlementQueue s))
        (writeStatus r AuthorizationStatus.settled s)
  | None => s
  end.

Definition completeSettlement (now : Z) (batchId transactionSignature : string) (s : State)
    : Outcome State :=
  match findBatch batchId s with
  | None => Thrown "Settlement batch not found"
  | Some (i, batch) =>
      let batch' :=
        SettlementBatch.mk (SettlementBatch.id batch) (SettlementBatch.agentAddress batch)
          (SettlementBatch.merchantAddress batch) (SettlementBatch.authorizations batch)
          (SettlementBatch.totalAmount batch) (SettlementBatch.currency batch)
          BatchStatus.completed (SettlementBatch.createdAt batch)
          (Some now) (Some transactionSignature) (SettlementBatch.error batch) in
      Returned
        (List.fold_left settleMember (SettlementBatch.authorizations batch)
           (setSettlementBatches (<[i := batch']> (settlementBatches s)) s))
  end.

(** One turn of the [forEach] of [failSettlement]. *)
Definition resetMember (s : State) (r : AuthorizationRef) : State :=
  writeStatus r AuthorizationStatus.pending s.

Definition failSettlement (batchId error : string) (s : State) : Outcome State :=
  match findBatch batchId s with
  | None => Thrown "Settlement batch not found"
  | Some (i, batch) =>
      let batch' :=
        SettlementBatch.mk (SettlementBatch.id batch) (SettlementBatch.agentAddress batch)
          (SettlementBatch.merchantAddress batch) (SettlementBatch.authorizations batch)
          (SettlementBatch.totalAmount batch) (SettlementBatch.currency batch)
          BatchStatus.failed (SettlementBatch.createdAt batch)
          (SettlementBatch.settledAt batch) (SettlementBatch.transactionSignature batch)
          (Some error) in
      Returned
        (List.fold_left resetMember (SettlementBatch.authorizations batch)
           (setSettlementBatches (<[i := batch']> (settlementBatches s)) s))
  end.

Definition getSettlementBatches (s : State) (agentAddress : option string)
    : list SettlementBatch.t :=
  match agentAddress with
  | Some a =>
      if bool_decide (a = "") then settlementBatches s
      else List.filter (fun b => bool_decide (SettlementBatch.agentAddress b = a))
                       (settlementBatches s)
  | None => settlementBatches s
  end.

Module DisputeParams.
Record t := mk {
  authorizationId : string;
  agentAddress : string;
  reason : string;
  evidence : option Evidence.t
}.
End DisputeParams.

Definition disputeId (now : Z) (authorizationId : string) : string :=
  "dispute_" ++ pretty now ++ "_" ++ authorizationId.

Definition createDispute (now : Z) (params : DisputeParams.t) (s : State)
    : Outcome (DisputeRecord.t * State) :=
  match authorizations s !! DisputeParams.authorizationId params with
  | None => Thrown "Authorization not found"
  | Some authorization =>
      if decide (PaymentAuthorization.agentAddress authorization
                 = DisputeParams.agentAddress params) then
        let dispute :=
          DisputeRecord.mk
            (disputeId now (DisputeParams.authorizationId params))
            (DisputeParams.authorizationId params)
            (DisputeParams.agentAddress params)
            (PaymentAuthorization.merchantAddress authorization)
            (DisputeParams.reason params)
            DisputeStatus.pending now None None
            (DisputeParams.evidence params) in
        Returned
          (dispute,
           setSettlementQueue
             (removeFirst (DisputeParams.authorizationId params) (settlementQueue s))
             (writeStatus (DisputeParams.authorizationId params) AuthorizationStatus.disputed
                (setDisputes (disputes s ++ [dispute]) s)))
      else Thrown "Agent address mismatch"
  end.

Definition findDispute (disputeId : string) (s : State) : option (nat * DisputeRecord.t) :=
  list_find (fun d => DisputeRecord.id d = disputeId) (disputes s).

Definition resolveDispute (now : Z) (disputeId : string) (resolution : Resolution.t)
    (resolutionNote : option string) (s : State) : Outcome State :=
  match findDispute disputeId s with
  | None => Thrown "Dispute not found"
  | Some (i, dispute) =>
      let dispute' :=
        DisputeRecord.mk (DisputeRecord.id dispute) (DisputeRecord.authorizationId dispute)
          (DisputeRecord.agentAddress dispute) (DisputeRecord.merchantAddress dispute)
          (DisputeRecord.reason dispute) DisputeStatus.resolved
          (DisputeRecord.createdAt dispute) (Some now) resolutionNote
          (DisputeRecord.evidence dispute) in
      let s1 := setDisputes (<[i := dispute']> (disputes s)) s in
      let r := DisputeRecord.authorizationId dispute in
      match authorizations s1 !! r with
      | Some authorization =>
          match resolution with
          | Resolution.rejected =>
              Returned
                (setSettlementQueue
                   (settlementQueue s1 ++ [PaymentAuthorization.id authorization])
                   (writeStatus r AuthorizationStatus.validated s1))
          | Resolution.approved =>
              Returned (writeStatus r AuthorizationStatus.disputed s1)
          end
      | None => Returned s1
      end
  end.

Definition getDisputes (s : State) (agentAddress : option string) : list DisputeRecord.t :=
  match agentAddress with
  | Some a =>
      if bool_decide (a = "") then disputes s
      else List.filter (fun d => bool_decide (DisputeRecord.agentAddress d = a)) (disputes s)
  | None => disputes s
  end.

(** One turn of the [forEach] of [cleanupExpired], on the object [auth]
    reached through [r]; the count of cleaned objects rides along. *)
Definition sweep (now : Z) (acc : Z * State) (ra : AuthorizationRef * PaymentAuthorization.t)
    : Z * State :=
  let '(cleaned, s) := acc in
  let '(r, auth) := ra in
  if (PaymentAuthorization.expiresAt auth <? now)
     && bool_decide (PaymentAuthorization.status auth = AuthorizationStatus.pending)
  then
    (cleaned + 1,
     setSettlementQueue (removeFirst (PaymentAuthorization.id auth) (settlementQueue s))
       (writeStatus r AuthorizationStatus.expired s))
  else (cleaned, s).

Definition cleanupExpired (now : Z) (s : State) : Z * State :=
  List.fold_left (sweep now) (allAuthorizations s) (0, s).

(** *** Calls of the public methods, and the states they lead to *)

Inductive Call :=
| VerifyAuthorization (authorization : PaymentAuthorization.t)
| QueueForSettlement (authorizationId : string)
| CreateSettlementBatch (agentAddress : string) (merchantAddress : option string)
| CompleteSettlement (batchId transactionSignature : string)
| FailSettlement (batchId error : string)
| CreateDispute (params : DisputeParams.t)
| ResolveDispute (disputeId : string) (resolution : Resolution.t)
    (resolutionNote : option string)
| CleanupExpired.

(** The state a call leaves behind, made at clock reading [now].  A call
    that throws does so before it has written anything. *)
Definition exec (now : Z) (c : Call) (s : State) : State :=
  match c with
  | VerifyAuthorization authorization => snd (verifyAuthorization now authorization s)
  | QueueForSettlement authorizationId => snd (queueForSettlement now authorizationId s)
  | CreateSettlementBatch agentAddress merchantAddress =>
      snd (createSettlementBatch now agentAddress merchantAddress s)
  | CompleteSettlement batchId transactionSignature =>
      match completeSettlement now batchId transactionSignature s with
      | Returned s' => s'
      | Thrown _ => s
      end
  | FailSettlement batchId error =>
      match failSettlement batchId error s with
      | Returned s' => s'
      | Thrown _ => s
      end
  | CreateDispute params =>
      match createDispute now params s with
      | Returned (_, s') => s'
      | Thrown _ => s
      end
  | ResolveDispute disputeId resolution resolutionNote =>
      match resolveDispute now disputeId resolution resolutionNote s with
      | Returned s' => s'
      | Thrown _ => s
      end
  | CleanupExpired => snd (cleanupExpired now s)
  end.

Definition run (calls : list (Z * Call)) (s : State) : State :=
  List.fold_left (fun s nc => exec (fst nc) (snd nc) s) calls s.

End FacilitatorService.

(** ** SettlementService: the threshold evaluator of the scheduler *)

Module SettlementService.

Definition checkThresholds (thresholds : SettlementThreshold.t) (now : Z)
    (authorizations : list PaymentAuthorization.t) (usage : AgentUsage.t) : bool :=
  let totalAmount := FacilitatorService.sumAmounts authorizations in
  let totalCount := JS.ofZ (Z.of_nat (List.length authorizations)) in
  let timeSinceFirst :=
    JS.div (JS.ofZ (now - AgentUsage.firstRequestAt usage)) (JS.ofZ 1000) in
  let amountThreshold := JS.parseFloat (SettlementThreshold.amountThreshold thresholds) in
  let meetsAmount := JS.ge totalAmount amountThreshold in
  let meetsTime := JS.ge timeSinceFirst (SettlementThreshold.timeThreshold thresholds) in
  let meetsCount := JS.ge totalCount (SettlementThreshold.countThreshold thresholds) in
  meetsAmount || meetsTime || meetsCount.

(** [this.facilitator.listPendingAuthorizations(agentAddress)
      .filter(auth => auth.merchantAddress === merchantAddress)] *)
Definition pendingAuths (s : FacilitatorService.State) (agentAddress merchantAddress : string)
    : list PaymentAuthorization.t :=
  List.filter
    (fun auth => bool_decide (PaymentAuthorization.merchantAddress auth = merchantAddress))
    (FacilitatorService.listPendingAuthorizations s agentAddress).

(** Whether one turn of the loop of [checkAndTriggerSettlements] goes on to
    [triggerSettlement] for the pair. *)
Definition shouldSettle (now : Z) (s : FacilitatorService.State)
    (agentAddress merchantAddress : string) : bool :=
  match pendingAuths s agentAddress merchantAddress with
  | [] => false
  | auths =>
      checkThresholds (FacilitatorService.settlementThresholds s) now auths
        (FacilitatorService.getAgentUsage s agentAddress)
  end.

(** *** The service's own fields, and the settlement of one agent *)

(** The fields of the class beside the facilitator, which is an object the
    service shares with the routes and the monitor: operations take the
    facilitator's state and give it back.  [gridContext] tells whether the
    configuration came with a Grid context, [intervalHandle] holds the
    timer of the scheduler while it runs, and [processing] is the [Set] of
    keys being settled, in the order of their insertion. *)
Record Service := mkService {
  autoTrigger : bool;
  intervalHandle : option nat;
  gridContext : bool;
  processing : list string
}.

Definition setProcessing (keys : list string) (svc : Service) : Service :=
  mkService (autoTrigger svc) (intervalHandle svc) (gridContext svc) keys.

(** [Set.prototype.add] and [Set.prototype.delete] *)
Definition setAdd (key : string) (keys : list string) : list string :=
  if decide (key ∈ keys) then keys else (keys ++ [key])%list.
Definition setDelete (key : string) (keys : list string) : list string :=
  List.filter (fun k => negb (bool_decide (k = key))) keys.

Definition processingKey (agentAddress : string) (merchantAddress : option string) : string :=
  match merchantAddress with
  | Some m => if bool_decide (m = "") then agentAddress else agentAddress ++ ":" ++ m
  | None => agentAddress
  end.

(** [executeSettlement]: without a Grid context it throws before anything
    else; with one, the transfer is built, signed and sent through the Grid
    client, and [sent] is what comes back from there, a transaction
    signature or the error thrown on the way. *)
Definition executeSettlement (svc : Service) (sent : Outcome string) : Outcome string :=
  if gridContext svc then sent
  else Thrown "Grid context not available for settlement".

(** [triggerSettlement], served without another call in between; [now] is
    the clock reading of [createSettlementBatch] and [now'] that of
    [completeSettlement].  What is thrown is taken to be an [Error], whose
    message [failSettlement] records.  The batch returned is the object
    the registry holds, as it is when the call returns. *)
Definition triggerSettlement (now now' : Z) (agentAddress : string)
    (merchantAddress : option string) (sent : Outcome string)
    (svc : Service) (f : FacilitatorService.State)
    : Outcome (option SettlementBatch.t) * Service * FacilitatorService.State :=
  let key := processingKey agentAddress merchantAddress in
  if decide (key ∈ processing svc) then (Returned None, svc, f)
  else
    let busy := setProcessing (setAdd key (processing svc)) svc in
    let released := setProcessing (setDelete key (processing busy)) busy in
    let merchants :=
      match merchantAddress with
      | Some m =>
          if bool_decide (m = "") then FacilitatorService.getPendingMerchants f agentAddress
          else [m]
      | None => FacilitatorService.getPendingMerchants f agentAddress
      end in
    match merchants with
    | [] => (Returned None, released, f)
    | targetMerchant :: _ =>
        match FacilitatorService.createSettlementBatch now agentAddress
                (Some targetMerchant) f with
        | (None, f1) => (Returned None, released, f1)
        | (Some batch, f1) =>
            let position := List.length (FacilitatorService.settlementBatches f) in
            let settled :=
              match executeSettlement busy sent with
              | Returned signature =>
                  FacilitatorService.completeSettlement now' (SettlementBatch.id batch)
                    signature f1
              | Thrown message => Thrown message
              end in
            match settled with
            | Returned f2 =>
                (Returned (FacilitatorService.settlementBatches f2 !! position), released, f2)
            | Thrown message =>
                let batches := FacilitatorService.getSettlementBatches f1 (Some agentAddress) in
                match last batches with
                | Some latestBatch =>
                    if decide (SettlementBatch.status latestBatch = BatchStatus.pending) then
                      match FacilitatorService.failSettlement (SettlementBatch.id latestBatch)
                              message f1 with
                      | Returned f2 => (Thrown message, released, f2)
                      | Thrown message' => (Thrown message', released, f1)
                      end
                    else (Thrown message, released, f1)
                | None => (Thrown message, released, f1)
                end
            end
        end
    end.

(** [forceSettlement] *)
Definition forceSettlement (now now' : Z) (agentAddress : string) (sent : Outcome string)
    (svc : Service) (f : FacilitatorService.State)
    : Outcome (option SettlementBatch.t) * Service * FacilitatorService.State :=
  triggerSettlement now now' agentAddress None sent svc f.

Module Statistics.
Record t := mk {
  total : Z;
  completed : Z;
  failed : Z;
  pending : Z;
  totalVolume : string;
  processing : Z;
  autoTrigger : bool;
  isRunning : bool
}.
End Statistics.

(** [batches.filter(b => b.status === status).length] *)
Definition countBatches (status : BatchStatus.t) (batches : list SettlementBatch.t) : Z :=
  Z.of_nat (List.length
              (List.filter (fun b => bool_decide (SettlementBatch.status b = status)) batches)).

Definition getStatistics (svc : Service) (f : FacilitatorService.State) : Statistics.t :=
  let batches := FacilitatorService.getSettlementBatches f None in
  let totalVolume :=
    List.fold_left
      (fun sum b => JS.add sum (JS.parseFloat (SettlementBatch.totalAmount b)))
      (List.filter (fun b => bool_decide (SettlementBatch.status b = BatchStatus.completed))
                   batches)
      JS.zero in
  Statistics.mk
    (Z.of_nat (List.length batches))
    (countBatches BatchStatus.completed batches)
    (countBatches BatchStatus.failed batches)
    (countBatches BatchStatus.pending batches)
    (JS.toFixed totalVolume 6)
    (Z.of_nat (List.length (processing svc)))
    (autoTrigger svc)
    (bool_decide (is_Some (intervalHandle svc))).

End SettlementService.

(** ** The route that records a single settlement *)

Module FacilitatorRoutes.

(** [POST /facilitator/settle]: the authorization is looked up and marked
    settled; no batch and no queue entry is touched.  [None] stands for
    the 400 and 404 replies. *)
Definition settle (authorizationId transactionSignature : string)
    (s : FacilitatorService.State) : option FacilitatorService.State :=
  if bool_decide (authorizationId = "") || bool_decide (transactionSignature = "") then None
  else
    match FacilitatorService.getAuthorization s authorizationId with
    | None => None
    | Some _ =>
        Some (FacilitatorService.writeStatus authorizationId AuthorizationStatus.settled s)
    end.

(** *** The handlers that write to the facilitator

    A field of a request body is [None] when it is missing, and a string
    when it is there (an authorization record for [/verify], an evidence
    record for [/dispute]).  A reply is its status code and its body; an
    exception in a handler is caught and answered with code 500 and its
    message. *)

Inductive Body :=
| Failure (error : option string)
| Verified (authorizationId : string)
| Queued (authorizationId : string) (shouldSettle : bool) (message : string)
| SettlementRecorded (authorizationId transactionSignature : string)
| BatchCreated (batch : SettlementBatch.t)
| BatchCompleted (batchId transactionSignature : string)
| BatchFailed (batchId : string)
| DisputeCreated (dispute : DisputeRecord.t)
| DisputeResolved (disputeId resolution : string).

Record Reply := mkReply { code : nat; body : Body }.

Definition failure (code : nat) (error : string) : Reply := mkReply code (Failure (Some error)).

Inductive Request :=
| PostVerify (authorization : option PaymentAuthorization.t)
| PostQueue (authorizationId agentAddress : option string)
| PostSettle (authorizationId transactionSignature : option string)
| PostBatchCreate (agentAddress merchantAddress : option string)
| PostBatchComplete (batchId transactionSignature : option string)
| PostBatchFail (batchId error : option string)
| PostDispute (authorizationId agentAddress reason : option string)
    (evidence : option Evidence.t)
| PostDisputeResolve (disputeId resolution resolutionNote : option string).

(** A field that passed the test [!field] of its handler. *)
Definition given (field : option string) : option string :=
  match field with
  | Some v => if bool_decide (v = "") then None else Some v
  | None => None
  end.

(** [left || right] on strings. *)
Definition orElse (left : option string) (right : string) : string :=
  match given left with
  | Some v => v
  | None => right
  end.

Definition doubleQuote : string := String (ascii_of_N 34) EmptyString.

Definition invalidResolution : string :=
  "Invalid resolution. Must be " ++ doubleQuote ++ "approved" ++ doubleQuote
  ++ " or " ++ doubleQuote ++ "rejected" ++ doubleQuote.

Definition handle (now : Z) (request : Request) (s : FacilitatorService.State)
    : Reply * FacilitatorService.State :=
  match request with
  | PostVerify authorization =>
      match authorization with
      | Some a =>
          if bool_decide (PaymentAuthorization.id a = "") then
            (failure 400 "Invalid authorization", s)
          else
            let '(result, s') := FacilitatorService.verifyAuthorization now a s in
            if FacilitatorService.VerifyResult.valid result
            then (mkReply 200 (Verified (PaymentAuthorization.id a)), s')
            else (mkReply 400 (Failure (FacilitatorService.VerifyResult.reason result)), s')
      | None => (failure 400 "Invalid authorization", s)
      end
  | PostQueue authorizationId agentAddress =>
      match given authorizationId, given agentAddress with
      | Some id, Some _ =>
          let '(result, s') := FacilitatorService.queueForSettlement now id s in
          if FacilitatorService.QueueResult.success result
          then (mkReply 200
                  (Queued id (FacilitatorService.QueueResult.shouldSettle result)
                     (orElse (FacilitatorService.QueueResult.reason result)
                             "Authorization queued for settlement")), s')
          else (mkReply 400 (Failure (FacilitatorService.QueueResult.reason result)), s')
      | _, _ => (failure 400 "Missing required fields: authorizationId, agentAddress", s)
      end
  | PostSettle authorizationId transactionSignature =>
      match given authorizationId, given transactionSignature with
      | Some id, Some signature =>
          match FacilitatorService.getAuthorization s id with
          | Some _ =>
              (mkReply 200 (SettlementRecorded id signature),
               FacilitatorService.writeStatus id AuthorizationStatus.settled s)
          | None => (failure 404 "Authorization not found", s)
          end
      | _, _ =>
          (failure 400 "Missing required fields: authorizationId, transactionSignature", s)
      end
  | PostBatchCreate agentAddress merchantAddress =>
      match given agentAddress with
      | Some agent =>
          match FacilitatorService.createSettlementBatch now agent merchantAddress s with
          | (Some batch, s') => (mkReply 200 (BatchCreated batch), s')
          | (None, s') => (failure 404 "No authorizations to settle", s')
          end
      | None => (failure 400 "Missing required field: agentAddress", s)
      end
  | PostBatchComplete batchId transactionSignature =>
      match given batchId, given transactionSignature with
      | Some id, Some signature =>
          match FacilitatorService.completeSettlement now id signature s with
          | Returned s' => (mkReply 200 (BatchCompleted id signature), s')
          | Thrown message => (failure 500 message, s)
          end
      | _, _ => (failure 400 "Missing required fields: batchId, transactionSignature", s)
      end
  | PostBatchFail batchId error =>
      match given batchId, given error with
      | Some id, Some error =>
          match FacilitatorService.failSettlement id error s with
          | Returned s' => (mkReply 200 (BatchFailed id), s')
          | Thrown message => (failure 500 message, s)
          end
      | _, _ => (failure 400 "Missing required fields: batchId, error", s)
      end
  | PostDispute authorizationId agentAddress reason evidence =>
      match given authorizationId, given agentAddress, given reason with
      | Some id, Some agent, Some reason =>
          match FacilitatorService.createDispute now
                  (FacilitatorService.DisputeParams.mk id agent reason evidence) s with
          | Returned (dispute, s') => (mkReply 200 (DisputeCreated dispute), s')
          | Thrown message => (failure 500 message, s)
          end
      | _, _, _ =>
          (failure 400 "Missing required fields: authorizationId, agentAddress, reason", s)
      end
  | PostDisputeResolve disputeId resolution resolutionNote =>
      match given disputeId, given resolution with
      | Some id, Some resolution =>
          let resolve (r : Resolution.t) :=
            match FacilitatorService.resolveDispute now id r resolutionNote s with
            | Returned s' => (mkReply 200 (DisputeResolved id resolution), s')
            | Thrown message => (failure 500 message, s)
            end in
          if bool_decide (resolution = "approved") then resolve Resolution.approved
          else if bool_decide (resolution = "rejected") then resolve Resolution.rejected
          else (failure 400 invalidResolution, s)
      | _, _ => (failure 400 "Missing required fields: disputeId, resolution", s)
      end
  end.

End FacilitatorRoutes.

(** ** The agent side: how authorizations are made and signed *)

Module DeferredPaymentService.

Definition signPayload (payload : string) : string := SHA256.sha256_hex payload.

(** [createAuthorization]; the random id and nonce are arguments. *)
Definition createAuthorization (now : Z) (id nonce : string)
    (agentAddress merchantAddress toolName amount currency : string) (expiresIn : Z)
    : PaymentAuthorization.t :=
  let unsigned :=
    PaymentAuthorization.mk id agentAddress merchantAddress toolName amount currency
      now (now + expiresIn * 1000) "" nonce AuthorizationStatus.pending None in
  PaymentAuthorization.mk id agentAddress merchantAddress toolName amount currency
    now (now + expiresIn * 1000)
    (signPayload (FacilitatorService.signaturePayload unsigned))
    nonce AuthorizationStatus.pending None.

End DeferredPaymentService.

(** ** MonitoringService: dispute counts, health, and the history of snapshots *)

Module MonitoringService.

(** [parseFloat(x.toFixed(2))] *)
Definition rounded (x : JS.number) : JS.number := JS.parseFloat (JS.toFixed x 2).

Module DisputeMetrics.
Record t := mk {
  totalDisputes : Z;
  pendingDisputes : Z;
  resolvedDisputes : Z;
  approvedDisputes : Z;
  rejectedDisputes : Z;
  disputeRate : JS.number;
  averageResolutionTime : JS.number
}.
End DisputeMetrics.

(** [disputes.filter(d => d.status === status)] *)
Definition disputesOf (status : DisputeStatus.t) (disputes : list DisputeRecord.t)
    : list DisputeRecord.t :=
  List.filter (fun d => bool_decide (DisputeRecord.status d = status)) disputes.

(** [authorizations.find(a => a.id === id)] on [Object.values] of the
    store.  Which object comes first matters only where two stored objects
    carry one id, which no state reached through the facilitator's methods
    does. *)
Definition findAuthorization (f : FacilitatorService.State) (id : string)
    : option PaymentAuthorization.t :=
  snd <$> list_find (fun a => PaymentAuthorization.id a = id)
            (List.map snd (FacilitatorService.allAuthorizations f)).

(** The test by which a resolved dispute counts as approved. *)
Definition countsAsApproved (f : FacilitatorService.State) (d : DisputeRecord.t) : bool :=
  match findAuthorization f (DisputeRecord.authorizationId d) with
  | Some auth => bool_decide (PaymentAuthorization.status auth = AuthorizationStatus.disputed)
  | None => false
  end.

(** [d.resolvedAt] as a condition: set, and not zero. *)
Definition hasResolvedAt (d : DisputeRecord.t) : bool :=
  match DisputeRecord.resolvedAt d with
  | Some t => negb (t =? 0)
  | None => false
  end.

Definition getDisputeMetrics (f : FacilitatorService.State) : DisputeMetrics.t :=
  let disputes := FacilitatorService.getDisputes f None in
  let authorizations := List.map snd (FacilitatorService.allAuthorizations f) in
  let total := Z.of_nat (List.length disputes) in
  let pending := Z.of_nat (List.length (disputesOf DisputeStatus.pending disputes)) in
  let resolved := Z.of_nat (List.length (disputesOf DisputeStatus.resolved disputes)) in
  let resolvedDisputes := disputesOf DisputeStatus.resolved disputes in
  let approved := Z.of_nat (List.length (List.filter (countsAsApproved f) resolvedDisputes)) in
  let rejected := resolved - approved in
  let disputeRate :=
    if 0 <? Z.of_nat (List.length authorizations) then
      JS.mul (JS.div (JS.ofZ total) (JS.ofZ (Z.of_nat (List.length authorizations))))
             (JS.ofZ 100)
    else JS.zero in
  let resolutionTimes :=
    List.map
      (fun d =>
         JS.div (JS.ofZ (default 0 (DisputeRecord.resolvedAt d) - DisputeRecord.createdAt d))
                (JS.ofZ 1000))
      (List.filter hasResolvedAt resolvedDisputes) in
  let averageResolutionTime :=
    if 0 <? Z.of_nat (List.length resolutionTimes) then
      JS.div (List.fold_left JS.add resolutionTimes JS.zero)
             (JS.ofZ (Z.of_nat (List.length resolutionTimes)))
    else JS.zero in
  DisputeMetrics.mk total pending resolved approved rejected
    (rounded disputeRate) (rounded averageResolutionTime).

Module HealthStatus.
Inductive t := healthy | degraded | down.
End HealthStatus.

Module SystemHealth.
Record t := mk {
  status : HealthStatus.t;
  uptime : JS.number;
  lastCheck : Z;
  issues : list string;
  autoSettlementRunning : bool;
  queueBacklog : Z;
  processingDelay : JS.number
}.
End SystemHealth.

(** One [if] of [getSystemHealth]: the issue is pushed and the status set
    to degraded. *)
Definition report (condition : bool) (issue : string)
    (acc : list string * HealthStatus.t) : list string * HealthStatus.t :=
  if condition then ((fst acc ++ [issue])%list, HealthStatus.degraded) else acc.

(** [getSystemHealth]; [startTime] is the clock reading taken by the
    constructor, [now] and [lastCheck] are the two readings of the call. *)
Definition getSystemHealth (startTime now lastCheck : Z) (svc : SettlementService.Service)
    (f : FacilitatorService.State) : SystemHealth.t :=
  let uptime := JS.div (JS.ofZ (now - startTime)) (JS.ofZ 1000) in
  let settlementStats := SettlementService.getStatistics svc f in
  let queueBacklog := Z.of_nat (List.length (FacilitatorService.settlementQueue f)) in
  let checked :=
    report (1000 <? queueBacklog) "Large settlement queue backlog"
      (report
         (JS.gt (JS.ofZ (SettlementService.Statistics.failed settlementStats))
                (JS.mul (JS.ofZ (SettlementService.Statistics.completed settlementStats))
                        (JS.parseFloat "0.1")))
         "High settlement failure rate"
         (report
            (negb (SettlementService.Statistics.isRunning settlementStats)
             && SettlementService.Statistics.autoTrigger settlementStats)
            "Auto-settlement service not running"
            ([], HealthStatus.healthy))) in
  let processingDelay :=
    if SettlementService.Statistics.autoTrigger settlementStats
    then JS.mul (JS.ofZ queueBacklog) (JS.ofZ 2)
    else JS.zero in
  let status :=
    if (3 <? List.length (fst checked))%nat then HealthStatus.down else snd checked in
  SystemHealth.mk status (rounded uptime) lastCheck (fst checked)
    (SettlementService.Statistics.isRunning settlementStats) queueBacklog
    (rounded processingDelay).

(** *** The history of snapshots *)

Definition maxHistorySize : nat := 1000.

(** [takeSnapshot]: [snapshot] is the record the call has put together from
    the clock and the three metrics getters; it is pushed, and the oldest
    entry shifted out once the history is longer than [maxHistorySize]. *)
Definition takeSnapshot {A : Type} (snapshot : A) (metricsHistory : list A) : list A :=
  let history := (metricsHistory ++ [snapshot])%list in
  if (maxHistorySize <? List.length history)%nat then tail history else history.

(** [Array.prototype.slice(start)], for an integral [start]. *)
Definition slice {A : Type} (start : Z) (l : list A) : list A :=
  let len := Z.of_nat (List.length l) in
  let from := if start <? 0 then Z.max (len + start) 0 else Z.min start len in
  drop (Z.to_nat from) l.

(** [getMetricsHistory(limit)], for a [limit] that is missing or integral,
    as [parseInt] makes it when it does not give [NaN]; [NaN] behaves as a
    missing limit does. *)
Definition getMetricsHistory {A : Type} (limit : option Z) (metricsHistory : list A) : list A :=
  match limit with
  | Some n =>
      if negb (n =? 0) && (n <? Z.of_nat (List.length metricsHistory))
      then slice (- n) metricsHistory
      else metricsHistory
  | None => metricsHistory
  end.

End MonitoringService.

(** ** States reachable by the public methods *)

Module Reach.
Import FacilitatorService.

(** States reached from a fresh facilitator by calls that [allowed] lets
    through in the state they are made in, at any clock readings. *)
Inductive reachableBy (allowed : State -> Call -> Prop) (thresholds : SettlementThreshold.t)
    : State -> Prop :=
| reach_create : reachableBy allowed thresholds (create thresholds)
| reach_call s now c :
    reachableBy allowed thresholds s -> allowed s c ->
    reachableBy allowed thresholds (exec now c s).

Definition anyCall (s : State) (c : Call) : Prop := True.

(** Every call of a sequence is allowed in the state it is made in. *)
Fixpoint allAllowed (allowed : State -> Call -> Prop) (calls : list (Z * Call)) (s : State)
    : Prop :=
  match calls with
  | [] => True
  | nc :: rest => allowed s (snd nc) /\ allAllowed allowed rest (exec (fst nc) (snd nc) s)
  end.

(** Every sequence of calls, at any clock readings. *)
Definition reachable (thresholds : SettlementThreshold.t) (s : State) : Prop :=
  reachableBy anyCall thresholds s.

(** Number of entries of the queue that are [x]. *)
Definition occurrences (x : string) (queue : list string) : nat :=
  List.length (List.filter (fun y => bool_decide (y = x)) queue).

(** The queue after [indexOf]/[splice] for each of [rs] in turn. *)
Definition removeEach (rs : list string) (queue : list string) : list string :=
  List.fold_left (fun q r => removeFirst r q) rs queue.

(** Two stores that hold the same objects up to their [status] fields. *)
Definition upToStatus (m m' : gmap string PaymentAuthorization.t) : Prop :=
  forall k, PaymentAuthorization.setStatus AuthorizationStatus.pending <$> m' !! k
            = PaymentAuthorization.setStatus AuthorizationStatus.pending <$> m !! k.

(** The store after [status = st] was written through each of [rs]. *)
Definition writeEach (st : AuthorizationStatus.t) (rs : list string)
    (m : gmap string PaymentAuthorization.t) : gmap string PaymentAuthorization.t :=
  List.fold_left (fun m r => alter (PaymentAuthorization.setStatus st) r m) rs m.

(** The test of [cleanupExpired] on one object. *)
Definition isStale (now : Z) (ra : string * PaymentAuthorization.t) : bool :=
  (PaymentAuthorization.expiresAt (snd ra) <? now)
  && bool_decide (PaymentAuthorization.status (snd ra) = AuthorizationStatus.pending).

Definition statusOf (s : State) (r : AuthorizationRef) : option AuthorizationStatus.t :=
  PaymentAuthorization.status <$> authorizations s !! r.

(** Structure shared by all reachable states: objects sit under their own
    id, and queue entries, batch members and disputes point to stored
    objects. *)
Record wellFormed (s : State) : Prop := mkWellFormed {
  wf_keys : forall k a, authorizations s !! k = Some a -> PaymentAuthorization.id a = k;
  wf_queue : forall k, k ∈ settlementQueue s -> is_Some (authorizations s !! k);
  wf_batches : forall b r, b ∈ settlementBatches s -> r ∈ SettlementBatch.authorizations b ->
                           is_Some (authorizations s !! r);
  wf_disputes : forall d, d ∈ disputes s ->
                          is_Some (authorizations s !! DisputeRecord.authorizationId d)
}.

(** The queue invariant of the specification. *)
Definition queueValidated (s : State) : Prop :=
  forall k, k ∈ settlementQueue s -> statusOf s k = Some AuthorizationStatus.validated.

(** Calls under which the queue invariant is kept: no [failSettlement], and
    [resolveDispute] only while the disputed authorization is out of the
    queue. *)
Definition keepsQueueValidated (s : State) (c : Call) : Prop :=
  match c with
  | FailSettlement _ _ => False
  | ResolveDispute disputeId _ _ =>
      match findDispute disputeId s with
      | Some (_, d) => DisputeRecord.authorizationId d ∉ settlementQueue s
      | None => True
      end
  | _ => True
  end.








Definition inCompletedBatch (s : State) (r : AuthorizationRef) (i : nat) : Prop :=
  exists b, settlementBatches s !! i = Some b
            /\ SettlementBatch.status b = BatchStatus.completed
            /\ r ∈ SettlementBatch.authorizations b.


(** Its existence half. *)
Definition settledInSomeBatch (s : State) : Prop :=
  forall r, statusOf s r = Some AuthorizationStatus.settled -> exists i, inCompletedBatch s r i.



(** Two listings of queued objects that agree up to the [status] fields. *)
Definition sameUpToStatus (x y : AuthorizationRef * PaymentAuthorization.t) : Prop :=
  fst x = fst y
  /\ PaymentAuthorization.setStatus AuthorizationStatus.pending (snd x)
     = PaymentAuthorization.setStatus AuthorizationStatus.pending (snd y).

(** The agent's queued authorizations that name [merchant]. *)
Definition queuedFor (s : State) (agentAddress merchant : string)
    : list (AuthorizationRef * PaymentAuthorization.t) :=
  List.filter
    (fun ra => bool_decide (PaymentAuthorization.merchantAddress (snd ra) = merchant))
    (queuedAuthorizations s agentAddress).

(** [merchantCounts.get(merchant) || 0] *)
Fixpoint countOf (merchant : string) (counts : list (string * Z)) : Z :=
  match counts with
  | [] => 0
  | (k, c) :: rest => if decide (k = merchant) then c else countOf merchant rest
  end.

(** The distinct entries of a list, in the order of their first occurrence,
    after those of [seen]. *)
Definition firsts (seen : list string) (l : list string) : list string :=
  List.fold_left (fun acc m => if decide (m ∈ acc) then acc else (acc ++ [m])%list) l seen.

(** What stays of a batch whatever happens to it. *)
Definition batchKept (b b' : SettlementBatch.t) : Prop :=
  SettlementBatch.id b' = SettlementBatch.id b
  /\ SettlementBatch.agentAddress b' = SettlementBatch.agentAddress b
  /\ SettlementBatch.merchantAddress b' = SettlementBatch.merchantAddress b
  /\ SettlementBatch.authorizations b' = SettlementBatch.authorizations b
  /\ SettlementBatch.totalAmount b' = SettlementBatch.totalAmount b
  /\ SettlementBatch.currency b' = SettlementBatch.currency b
  /\ SettlementBatch.createdAt b' = SettlementBatch.createdAt b.

(** What stays of a dispute whatever happens to it. *)
Definition disputeKept (d d' : DisputeRecord.t) : Prop :=
  DisputeRecord.id d' = DisputeRecord.id d
  /\ DisputeRecord.authorizationId d' = DisputeRecord.authorizationId d
  /\ DisputeRecord.agentAddress d' = DisputeRecord.agentAddress d
  /\ DisputeRecord.merchantAddress d' = DisputeRecord.merchantAddress d
  /\ DisputeRecord.reason d' = DisputeRecord.reason d
  /\ DisputeRecord.createdAt d' = DisputeRecord.createdAt d
  /\ DisputeRecord.evidence d' = DisputeRecord.evidence d.

End Reach.

(** ** The threshold policy, in the words of the specification *)

Module ThresholdPolicy.
Import FacilitatorService.

(** [P]: the authorizations matching (agent, merchant) currently in the
    settlement queue, in queue order. *)
Definition P (s : State) (agent merchant : string) : list PaymentAuthorization.t :=
  List.filter
    (fun a => bool_decide (PaymentAuthorization.agentAddress a = agent)
              && bool_decide (PaymentAuthorization.merchantAddress a = merchant))
    (omap (fun id => authorizations s !! id) (settlementQueue s)).


Definition meetsAmount (thresholds : SettlementThreshold.t)
    (auths : list PaymentAuthorization.t) : Prop :=
  JS.ge (sumAmounts auths)
        (JS.parseFloat (SettlementThreshold.amountThreshold thresholds)) = true.

(** Elapsed seconds since the agent's first request ever. *)
Definition meetsTime (thresholds : SettlementThreshold.t) (now : Z) (U : AgentUsage.t) : Prop :=
  JS.ge (JS.div (JS.ofZ (now - AgentUsage.firstRequestAt U)) (JS.ofZ 1000))
        (SettlementThreshold.timeThreshold thresholds) = true.

Definition meetsCount (thresholds : SettlementThreshold.t)
    (auths : list PaymentAuthorization.t) : Prop :=
  JS.ge (JS.ofZ (Z.of_nat (List.length auths)))
        (SettlementThreshold.countThreshold thresholds) = true.


End ThresholdPolicy.

(** ** Sample data *)

Module Samples.
Import FacilitatorService.

(** The thresholds of the routes and of the test suite: 1.00, one hour,
    one hundred requests. *)
Definition thresholds : SettlementThreshold.t :=
  SettlementThreshold.mk "1.00" (JS.ofZ 3600) (JS.ofZ 100).

Definition t0 : Z := 1730000000000.

(** [createValidAuthorization] of the test suite, at clock reading [now]. *)
Definition createValidAuthorization (now : Z) (id agentAddress amount merchantAddress : string)
    : PaymentAuthorization.t :=
  DeferredPaymentService.createAuthorization now id ("nonce_" ++ id)
    agentAddress merchantAddress "testTool" amount "USDC" 3600.

Definition agent : string := "mockAgent123".
Definition merchant : string := "mockMerchant456".

(** Four authorizations as [createValidAuthorization] makes them, with the
    digests it computes. *)
Definition auth1 : PaymentAuthorization.t :=
  PaymentAuthorization.mk "auth_threshold_001" agent merchant "testTool" "0.6" "USDC"
    t0 (t0 + 3600000)
    "9caf3ed28eca9c28a0889c328df7619c7580415b797a8c6eb350ed7a8e3df8de"
    "nonce_auth_threshold_001" AuthorizationStatus.pending None.

Definition auth2 : PaymentAuthorization.t :=
  PaymentAuthorization.mk "auth_threshold_002" agent merchant "testTool" "0.5" "USDC"
    (t0 + 1) (t0 + 1 + 3600000)
    "beb569c95b1a328b368fcc322ad465fce20cb7e276bdddefe41af5a5a0d7cb0f"
    "nonce_auth_threshold_002" AuthorizationStatus.pending None.

Definition otherMerchant : string := "otherMerchant789".

(** Same agent, another merchant. *)
Definition authOther : PaymentAuthorization.t :=
  PaymentAuthorization.mk "auth_other_001" agent otherMerchant "testTool" "0.5" "USDC"
    (t0 + 1) (t0 + 1 + 3600000)
    "87be4d42dd599bc46c04e6785ea24dbcbc312ffd580147e62e182dc994fcb51c"
    "nonce_auth_other_001" AuthorizationStatus.pending None.

(** Same agent and merchant, another currency. *)
Definition authSOL : PaymentAuthorization.t :=
  PaymentAuthorization.mk "auth_sol_001" agent merchant "testTool" "0.5" "SOL"
    (t0 + 1) (t0 + 1 + 3600000)
    "d9fb38d154bfbeef4f99ad125a3874da7fc273c494fa12d4c52ac56e568a43c3"
    "nonce_auth_sol_001" AuthorizationStatus.pending None.

(** Scenario of the test suite: [auth1] verified and queued. *)
Definition afterFirst : State :=
  run [(t0, VerifyAuthorization auth1);
       (t0 + 1, QueueForSettlement "auth_threshold_001")] (create thresholds).

(** Then [auth2] verified and queued, crossing the amount threshold. *)
Definition afterBoth : State :=
  run [(t0 + 2, VerifyAuthorization auth2);
       (t0 + 3, QueueForSettlement "auth_threshold_002")] afterFirst.

(** Then both put in one batch. *)
Definition batched : State :=
  exec (t0 + 4) (CreateSettlementBatch agent None) afterBoth.

Definition batch : SettlementBatch.t :=
  SettlementBatch.mk "batch_1730000000004_mockAgen" agent merchant
    ["auth_threshold_001"; "auth_threshold_002"] "1.100000" "USDC"
    BatchStatus.pending (t0 + 4) None None None.

(** Then the dispatch fails, as it does without a Grid context. *)
Definition failed : State :=
  exec (t0 + 5)
    (FailSettlement "batch_1730000000004_mockAgen" "Grid context not available for settlement")
    batched.

(** Scenario 5 of the specification: an authorization verified, then
    disputed. *)
Definition disputeParams : DisputeParams.t :=
  DisputeParams.mk "auth_threshold_001" agent "Data quality issue" None.

Definition disputed : State :=
  run [(t0, VerifyAuthorization auth1); (t0 + 1, CreateDispute disputeParams)]
      (create thresholds).

Definition dispute : DisputeRecord.t :=
  DisputeRecord.mk "dispute_1730000000001_auth_threshold_001" "auth_threshold_001"
    agent merchant "Data quality issue" DisputeStatus.pending (t0 + 1) None None None.



(** Two queued authorizations of one agent and merchant, in two
    currencies. *)
Definition twoCurrencies : State :=
  run [(t0 + 2, VerifyAuthorization authSOL);
       (t0 + 3, QueueForSettlement "auth_sol_001")] afterFirst.

(** Two queued authorizations of one agent, for two merchants. *)
Definition twoMerchants : State :=
  run [(t0 + 2, VerifyAuthorization authOther);
       (t0 + 3, QueueForSettlement "auth_other_001")] afterFirst.

(** [auth1] verified, and nothing more. *)
Definition verified : State := run [(t0, VerifyAuthorization auth1)] (create thresholds).

(** One authorization disputed twice within a millisecond: the two disputes
    carry one id. *)
Definition disputedTwice : State := exec (t0 + 1) (CreateDispute disputeParams) disputed.

(** The scheduler as the routes set it up, started and without a Grid
    context, and one that has a Grid context. *)
Definition scheduler : SettlementService.Service :=
  SettlementService.mkService true (Some 1%nat) false [].
Definition schedulerWithGrid : SettlementService.Service :=
  SettlementService.mkService true (Some 1%nat) true [].

End Samples.

(** * Properties *)

Local Open Scope list_scope.

(** Reads the fields of a state written through the setters. *)
Ltac fields :=
  cbn [FacilitatorService.authorizations FacilitatorService.agentUsage
       FacilitatorService.settlementQueue FacilitatorService.settlementBatches
       FacilitatorService.disputes FacilitatorService.settlementThresholds
       FacilitatorService.setAuthorizations FacilitatorService.setAgentUsage
       FacilitatorService.setSettlementQueue FacilitatorService.setSettlementBatches
       FacilitatorService.setDisputes FacilitatorService.writeStatus] in *.

(** ** The primitives behave as the platform's *)

Example sha256_abc :
  SHA256.sha256_hex "abc"
  = "ba7816bf8f01cfea414140de5dae2223b00361a396177a9cb410ff61f20015ad".
Proof. vm_compute. reflexivity. Qed.

Example sha256_empty :
  SHA256.sha256_hex ""
  = "e3b0c44298fc1c149afbf4c8996fb92427ae41e4649b934ca495991b7852b855".
Proof. vm_compute. reflexivity. Qed.

Example sha256_two_blocks :
  SHA256.sha256_hex "abcdbcdecdefdefgefghfghighijhijkijkljklmklmnlmnomnopnopq"
  = "248d6a61d20638b8e5c026930c3e6039a33ce45964ff2167f6ecedd419db06c1".
Proof. vm_compute. reflexivity. Qed.

Example parseFloat_tenths :
  JS.parseFloat "0.6" = S754_finite false 5404319552844595 (-53)
  /\ JS.parseFloat "  -1.5e3xyz" = JS.ofZ (-1500)
  /\ JS.parseFloat "." = S754_nan
  /\ JS.parseFloat "1e" = JS.ofZ 1
  /\ JS.parseFloat "-0" = S754_zero true
  /\ JS.parseFloat "1.7976931348623159e308" = S754_infinity false
  /\ JS.parseFloat "2e-324" = JS.zero.
Proof. vm_compute. repeat split. Qed.

(** Binary64 sums are not decimal sums: 0.7 + 0.1 falls short of 0.8. *)
Example add_is_binary :
  JS.ge (JS.add (JS.parseFloat "0.7") (JS.parseFloat "0.1")) (JS.parseFloat "0.8") = false
  /\ JS.ge (JS.add (JS.parseFloat "0.6") (JS.parseFloat "0.5")) (JS.parseFloat "1.00") = true.
Proof. vm_compute. split; reflexivity. Qed.

Example toFixed_samples :
  JS.toFixed (JS.parseFloat "1.005") 2 = "1.00"
  /\ JS.toFixed (JS.parseFloat "2.5") 0 = "3"
  /\ JS.toFixed (JS.parseFloat "-1e-10") 6 = "-0.000000"
  /\ JS.toFixed (JS.parseFloat "123456789.123456789") 6 = "123456789.123457"
  /\ JS.toFixed (JS.parseFloat "1e21") 6 = "1e+21"
  /\ JS.toFixed (JS.parseFloat "123456789012345678901234567890") 6 = "1.2345678901234568e+29".
Proof. vm_compute. repeat split. Qed.

(** One hour in milliseconds is 3600 seconds, one millisecond less is not. *)
Example elapsed_seconds :
  JS.ge (JS.div (JS.ofZ 3600000) (JS.ofZ 1000)) (JS.ofZ 3600) = true
  /\ JS.ge (JS.div (JS.ofZ 3599999) (JS.ofZ 1000)) (JS.ofZ 3600) = false.
Proof. vm_compute. split; reflexivity. Qed.

(** ** Verification *)

Section Verification.
Import FacilitatorService.




(** The fixtures are what the test suite's helper makes. *)
Lemma samples_created :
  Samples.auth1
  = Samples.createValidAuthorization Samples.t0 "auth_threshold_001" Samples.agent "0.6"
      Samples.merchant
  /\ Samples.auth2
     = Samples.createValidAuthorization (Samples.t0 + 1) "auth_threshold_002" Samples.agent
         "0.5" Samples.merchant
  /\ verifySignature Samples.authOther = true
  /\ verifySignature Samples.authSOL = true.
Proof. vm_compute. repeat split. Qed.

(** The usage record [trackAgentUsage] leaves for the agent. *)
Lemma trackAgentUsage_lookup now a s :
  agentUsage (trackAgentUsage now a s) !! PaymentAuthorization.agentAddress a
  = Some
      match agentUsage s !! PaymentAuthorization.agentAddress a with
      | Some u =>
          AgentUsage.mk (AgentUsage.authorizations u ++ [PaymentAuthorization.id a])
            (JS.add (AgentUsage.totalAmount u) (JS.parseFloat (PaymentAuthorization.amount a)))
            (AgentUsage.firstRequestAt u) now (AgentUsage.requestCount u + 1)
      | None =>
          AgentUsage.mk [PaymentAuthorization.id a]
            (JS.add JS.zero (JS.parseFloat (PaymentAuthorization.amount a))) now now 1
      end.
Proof.
  unfold trackAgentUsage. simpl. rewrite lookup_insert_eq.
  destruct (agentUsage s !! PaymentAuthorization.agentAddress a); reflexivity.
Qed.

Lemma trackAgentUsage_other now a s agent' :
  agent' ≠ PaymentAuthorization.agentAddress a ->
  agentUsage (trackAgentUsage now a s) !! agent' = agentUsage s !! agent'.
Proof. intros Hne. unfold trackAgentUsage. simpl. by rewrite lookup_insert_ne. Qed.




End Verification.

(** ** Queueing *)

Section Queueing.
Import FacilitatorService.

Lemma writeStatus_lookup_eq r st s :
  authorizations (writeStatus r st s) !! r
  = PaymentAuthorization.setStatus st <$> authorizations s !! r.
Proof. unfold writeStatus. simpl. apply lookup_alter_eq. Qed.

Lemma writeStatus_lookup_ne r st s k :
  r ≠ k -> authorizations (writeStatus r st s) !! k = authorizations s !! k.
Proof. intros. unfold writeStatus. simpl. by apply lookup_alter_ne. Qed.

Lemma statusOf_writeStatus_eq r st s :
  is_Some (authorizations s !! r) -> Reach.statusOf (writeStatus r st s) r = Some st.
Proof.
  intros [a Ha]. unfold Reach.statusOf. rewrite writeStatus_lookup_eq, Ha. reflexivity.
Qed.

Lemma statusOf_writeStatus_ne r st s k :
  r ≠ k -> Reach.statusOf (writeStatus r st s) k = Reach.statusOf s k.
Proof. intros. unfold Reach.statusOf. by rewrite writeStatus_lookup_ne. Qed.

(** The four outcomes of [queueForSettlement], in the order the method
    tests for them. *)
Lemma queueForSettlement_cases (now : Z) (id : string) (s : State) :
  (authorizations s !! id = None ->
   queueForSettlement now id s
   = (QueueResult.mk false false (Some "Authorization not found"), s))
  /\ (forall a, authorizations s !! id = Some a -> id ∈ settlementQueue s ->
      queueForSettlement now id s = (QueueResult.mk false false (Some "Already queued"), s))
  /\ (forall a, authorizations s !! id = Some a -> id ∉ settlementQueue s ->
      PaymentAuthorization.status a = AuthorizationStatus.settled ->
      queueForSettlement now id s = (QueueResult.mk false false (Some "Already settled"), s))
  /\ (forall a, authorizations s !! id = Some a -> id ∉ settlementQueue s ->
      PaymentAuthorization.status a ≠ AuthorizationStatus.settled ->
      exists s',
        let fire := checkSettlementThresholds now (PaymentAuthorization.agentAddress a) s' in
        queueForSettlement now id s
        = (QueueResult.mk true fire
             (if fire then Some "Settlement threshold met" else None), s')
        /\ settlementQueue s' = settlementQueue s ++ [id]
        /\ authorizations s' !! id
           = Some (PaymentAuthorization.setStatus AuthorizationStatus.validated a)
        /\ Reach.statusOf s' id = Some AuthorizationStatus.validated
        /\ (forall k, k ≠ id -> authorizations s' !! k = authorizations s !! k)
        /\ agentUsage s' = agentUsage s
        /\ settlementBatches s' = settlementBatches s
        /\ disputes s' = disputes s).
Proof.
  unfold queueForSettlement. repeat split.
  - intros Hnone. by rewrite Hnone.
  - intros a Ha Hin. rewrite Ha. by rewrite decide_True.
  - intros a Ha Hnin Hst. rewrite Ha. rewrite decide_False by done. by rewrite decide_True.
  - intros a Ha Hnin Hst. rewrite Ha. rewrite !decide_False by done.
    eexists. cbv zeta. split; [reflexivity|]. fields. repeat split.
    + rewrite lookup_alter_eq. by rewrite Ha.
    + unfold Reach.statusOf. fields. rewrite lookup_alter_eq. by rewrite Ha.
    + intros k Hk. by rewrite lookup_alter_ne.
Qed.



(** [C10] A stored authorization that is disputed or expired, and not in
    the queue, is queued like any other: the call succeeds, appends the id
    and marks the authorization validated.  Only settled blocks queueing,
    besides an unknown id and an id already queued. *)
Theorem queueForSettlement_requeues (now : Z) (id : string) (s : State)
    (a : PaymentAuthorization.t) :
  authorizations s !! id = Some a ->
  PaymentAuthorization.status a = AuthorizationStatus.disputed
  \/ PaymentAuthorization.status a = AuthorizationStatus.expired ->
  id ∉ settlementQueue s ->
  exists r s',
    queueForSettlement now id s = (r, s')
    /\ QueueResult.success r = true
    /\ settlementQueue s' = settlementQueue s ++ [id]
    /\ Reach.statusOf s' id = Some AuthorizationStatus.validated.
Proof.
  intros Ha Hst Hnin.
  destruct (queueForSettlement_cases now id s) as (_ & _ & _ & Hok).
  destruct (Hok a Ha Hnin) as (s' & Hq & Hqueue & _ & Hstatus & _).
  { destruct Hst as [-> | ->]; discriminate. }
  eexists _, s'. split; [exact Hq|]. repeat split; assumption.
Qed.

(** A disputed authorization of the test suite goes back into the queue
    through the public method. *)
Lemma queueForSettlement_requeues_witness :
  let s := Samples.disputed in
  let id := "auth_threshold_001" in
  let a := PaymentAuthorization.setStatus AuthorizationStatus.disputed Samples.auth1 in
  authorizations s !! id = Some a
  /\ PaymentAuthorization.status a = AuthorizationStatus.disputed
  /\ (id ∉ settlementQueue s)
  /\ exists r s',
       queueForSettlement (Samples.t0 + 2) id s = (r, s')
       /\ QueueResult.success r = true
       /\ settlementQueue s' = settlementQueue s ++ [id]
       /\ Reach.statusOf s' id = Some AuthorizationStatus.validated.
Proof.
  cbv zeta.
  assert (H1 : authorizations Samples.disputed !! "auth_threshold_001"
               = Some (PaymentAuthorization.setStatus AuthorizationStatus.disputed
                         Samples.auth1)) by (vm_compute; reflexivity).
  assert (H2 : "auth_threshold_001" ∉ settlementQueue Samples.disputed)
    by (vm_compute; apply not_elem_of_nil).
  split; [exact H1|]. split; [reflexivity|]. split; [exact H2|].
  exact (queueForSettlement_requeues (Samples.t0 + 2) _ _ _ H1 (or_introl eq_refl) H2).
Defined.

End Queueing.

(** ** The settlement queue: removal of first occurrences *)

Section QueueFacts.
Import Reach.

Lemma elem_of_List_filter {A} (f : A -> bool) (l : list A) (x : A) :
  x ∈ List.filter f l <-> x ∈ l /\ f x = true.
Proof. rewrite !list_elem_of_In. apply filter_In. Qed.

Lemma removeFirst_elem_of x y queue : x ∈ removeFirst y queue -> x ∈ queue.
Proof.
  induction queue as [|z queue IH]; simpl; [done|].
  destruct (decide (z = y)); rewrite ?elem_of_cons; intuition.
Qed.

Lemma removeFirst_elem_of_ne x y queue : x ≠ y -> x ∈ queue -> x ∈ removeFirst y queue.
Proof.
  intros Hne. induction queue as [|z queue IH]; simpl; [done|].
  destruct (decide (z = y)) as [->|]; rewrite ?elem_of_cons; intuition congruence.
Qed.

Lemma removeFirst_not_elem_of y queue : y ∉ queue -> removeFirst y queue = queue.
Proof.
  induction queue as [|z queue IH]; simpl; [done|].
  rewrite not_elem_of_cons. intros [Hne Hnin].
  rewrite decide_False by congruence. by rewrite IH.
Qed.

Lemma removeFirst_NoDup y queue : NoDup queue -> NoDup (removeFirst y queue).
Proof.
  induction 1 as [|z queue Hz Hnd IH]; simpl; [constructor|].
  destruct (decide (z = y)); [done|].
  constructor; [|done]. intros Hin. apply Hz. by eapply removeFirst_elem_of.
Qed.

Lemma removeFirst_NoDup_gone y queue : NoDup queue -> y ∉ removeFirst y queue.
Proof.
  induction 1 as [|z queue Hz Hnd IH]; simpl; [apply not_elem_of_nil|].
  destruct (decide (z = y)) as [->|Hne]; [done|].
  rewrite not_elem_of_cons. split; [congruence|done].
Qed.

Lemma occurrences_cons x y queue :
  occurrences x (y :: queue)
  = if decide (y = x) then S (occurrences x queue) else occurrences x queue.
Proof.
  unfold occurrences. simpl. destruct (decide (y = x)).
  - by rewrite bool_decide_eq_true_2.
  - by rewrite bool_decide_eq_false_2.
Qed.

Lemma occurrences_app x q1 q2 :
  occurrences x (q1 ++ q2) = (occurrences x q1 + occurrences x q2)%nat.
Proof.
  induction q1 as [|y q1 IH]; [done|].
  change ((y :: q1) ++ q2) with (y :: (q1 ++ q2)). rewrite !occurrences_cons.
  destruct (decide (y = x)); lia.
Qed.

Lemma occurrences_zero x queue : occurrences x queue = 0%nat <-> x ∉ queue.
Proof.
  induction queue as [|y queue IH]; [split; [intros _; apply not_elem_of_nil|done]|].
  rewrite occurrences_cons, not_elem_of_cons.
  destruct (decide (y = x)) as [->|]; [split; [lia|tauto]|].
  rewrite IH. split; [split; [congruence|done]|tauto].
Qed.

Lemma occurrences_NoDup x queue : NoDup queue -> (occurrences x queue <= 1)%nat.
Proof.
  induction 1 as [|y queue Hy Hnd IH]; [unfold occurrences; simpl; lia|].
  rewrite occurrences_cons. destruct (decide (y = x)) as [->|]; [|done].
  apply occurrences_zero in Hy. lia.
Qed.

Lemma occurrences_removeFirst_eq x queue :
  occurrences x (removeFirst x queue) = pred (occurrences x queue).
Proof.
  induction queue as [|y queue IH]; [done|].
  simpl removeFirst. rewrite occurrences_cons.
  destruct (decide (y = x)) as [->|Hne]; [done|].
  rewrite occurrences_cons, decide_False by done. done.
Qed.

Lemma occurrences_removeFirst_ne x y queue :
  x ≠ y -> occurrences x (removeFirst y queue) = occurrences x queue.
Proof.
  intros Hne. induction queue as [|z queue IH]; [done|].
  simpl removeFirst. destruct (decide (z = y)) as [->|Hzy].
  - rewrite occurrences_cons, decide_False by congruence. done.
  - rewrite !occurrences_cons. destruct (decide (z = x)); lia.
Qed.

Lemma occurrences_removeFirst x y queue :
  occurrences x (removeFirst y queue)
  = (occurrences x queue - occurrences x [y])%nat.
Proof.
  rewrite occurrences_cons. destruct (decide (y = x)) as [->|Hne].
  - rewrite occurrences_removeFirst_eq. unfold occurrences at 3. simpl. lia.
  - rewrite occurrences_removeFirst_ne by congruence. unfold occurrences at 3. simpl. lia.
Qed.

(** Each listing of an id among [rs] takes one of its entries out of the
    queue, as long as there is one. *)
Lemma occurrences_removeEach x rs queue :
  occurrences x (removeEach rs queue) = (occurrences x queue - occurrences x rs)%nat.
Proof.
  revert queue. induction rs as [|r rs IH]; intros queue.
  - unfold removeEach. simpl. unfold occurrences at 3. simpl. lia.
  - change (removeEach (r :: rs) queue) with (removeEach rs (removeFirst r queue)).
    rewrite IH, occurrences_removeFirst.
    change (r :: rs) with ([r] ++ rs). rewrite occurrences_app. lia.
Qed.

Lemma removeEach_elem_of x rs queue : x ∈ removeEach rs queue -> x ∈ queue.
Proof.
  revert queue. induction rs as [|r rs IH]; intros queue; [done|].
  change (removeEach (r :: rs) queue) with (removeEach rs (removeFirst r queue)).
  intros Hin. eapply removeFirst_elem_of, IH, Hin.
Qed.

Lemma removeEach_NoDup rs queue : NoDup queue -> NoDup (removeEach rs queue).
Proof.
  revert queue. induction rs as [|r rs IH]; intros queue Hnd; [done|].
  change (removeEach (r :: rs) queue) with (removeEach rs (removeFirst r queue)).
  by apply IH, removeFirst_NoDup.
Qed.

Lemma removeEach_elem_of_other x rs queue : x ∉ rs -> x ∈ queue -> x ∈ removeEach rs queue.
Proof.
  revert queue. induction rs as [|r rs IH]; intros queue Hnin Hin; [done|].
  apply not_elem_of_cons in Hnin as [Hne Hnin].
  change (removeEach (r :: rs) queue) with (removeEach rs (removeFirst r queue)).
  apply IH; [done|]. by apply removeFirst_elem_of_ne.
Qed.

(** Without duplicates in the queue, what was listed is gone. *)
Lemma removeEach_NoDup_gone x rs queue : NoDup queue -> x ∈ rs -> x ∉ removeEach rs queue.
Proof.
  intros Hnd Hin. apply occurrences_zero. rewrite occurrences_removeEach.
  pose proof (occurrences_NoDup x queue Hnd).
  assert (occurrences x rs ≠ 0%nat) by (rewrite occurrences_zero; tauto). lia.
Qed.

End QueueFacts.

(** ** What the loops over aliased authorization objects do to the state *)

Section Loops.
Import FacilitatorService Reach.

Lemma setStatus_setStatus st st' a :
  PaymentAuthorization.setStatus st (PaymentAuthorization.setStatus st' a)
  = PaymentAuthorization.setStatus st a.
Proof. by destruct a. Qed.

Lemma writeEach_lookup st rs m k :
  writeEach st rs m !! k
  = if decide (k ∈ rs) then PaymentAuthorization.setStatus st <$> m !! k else m !! k.
Proof.
  revert m. induction rs as [|r rs IH]; intros m.
  - by rewrite decide_False by apply not_elem_of_nil.
  - change (writeEach st (r :: rs) m)
      with (writeEach st rs (alter (PaymentAuthorization.setStatus st) r m)).
    rewrite IH. destruct (decide (r = k)) as [->|Hne].
    + rewrite lookup_alter_eq, (decide_True (P := k ∈ k :: rs)) by apply list_elem_of_here.
      destruct (decide (k ∈ rs)); [|done].
      destruct (m !! k); simpl; [|done]. by rewrite setStatus_setStatus.
    + rewrite lookup_alter_ne by done. destruct (decide (k ∈ rs)) as [Hin|Hnin].
      * by rewrite decide_True by (by apply list_elem_of_further).
      * rewrite decide_False; [done|]. rewrite not_elem_of_cons. split; congruence.
Qed.

Lemma upToStatus_refl m : upToStatus m m.
Proof. by intros k. Qed.

Lemma upToStatus_trans m1 m2 m3 : upToStatus m1 m2 -> upToStatus m2 m3 -> upToStatus m1 m3.
Proof. intros H12 H23 k. by rewrite H23, H12. Qed.

Lemma upToStatus_alter st r m :
  upToStatus m (alter (PaymentAuthorization.setStatus st) r m).
Proof.
  intros k. destruct (decide (r = k)) as [->|Hne].
  - rewrite lookup_alter_eq. destruct (m !! k); simpl; [|done]. by rewrite setStatus_setStatus.
  - by rewrite lookup_alter_ne.
Qed.

Lemma upToStatus_writeEach st rs m : upToStatus m (writeEach st rs m).
Proof.
  intros k. rewrite writeEach_lookup. destruct (decide (k ∈ rs)); [|done].
  destruct (m !! k); simpl; [|done]. by rewrite setStatus_setStatus.
Qed.

Lemma upToStatus_is_Some m m' k : upToStatus m m' -> is_Some (m !! k) -> is_Some (m' !! k).
Proof.
  intros H [a Ha]. specialize (H k). rewrite Ha in H.
  destruct (m' !! k); [eauto|discriminate].
Qed.

Lemma upToStatus_Some m m' k a' :
  upToStatus m m' -> m' !! k = Some a' ->
  exists a, m !! k = Some a
            /\ PaymentAuthorization.setStatus (PaymentAuthorization.status a') a = a'.
Proof.
  intros H Ha'. specialize (H k). rewrite Ha' in H.
  destruct (m !! k) as [a|]; [|discriminate]. exists a. split; [done|].
  simpl in H. destruct a, a'. simpl in *. by simplify_eq.
Qed.

Lemma upToStatus_id m m' k a' :
  upToStatus m m' -> (forall k a, m !! k = Some a -> PaymentAuthorization.id a = k) ->
  m' !! k = Some a' -> PaymentAuthorization.id a' = k.
Proof.
  intros H Hkeys Ha'. destruct (upToStatus_Some _ _ _ _ H Ha') as (a & Ha & <-).
  by apply Hkeys in Ha.
Qed.

(** [completeSettlement]'s loop. *)
Lemma settleMember_authorizations s r :
  authorizations (settleMember s r)
  = alter (PaymentAuthorization.setStatus AuthorizationStatus.settled) r (authorizations s).
Proof.
  unfold settleMember. destruct (authorizations s !! r) eqn:Hr; [done|].
  apply map_eq. intros k. destruct (decide (r = k)) as [->|Hne].
  - by rewrite lookup_alter_eq, Hr.
  - by rewrite lookup_alter_ne.
Qed.

Lemma settleMembers_authorizations rs s :
  authorizations (List.fold_left settleMember rs s)
  = writeEach AuthorizationStatus.settled rs (authorizations s).
Proof.
  revert s. induction rs as [|r rs IH]; intros s; [done|].
  simpl List.fold_left. rewrite IH, settleMember_authorizations. done.
Qed.

Lemma settleMember_rest s r :
  agentUsage (settleMember s r) = agentUsage s
  /\ settlementBatches (settleMember s r) = settlementBatches s
  /\ disputes (settleMember s r) = disputes s
  /\ settlementThresholds (settleMember s r) = settlementThresholds s.
Proof. unfold settleMember. by destruct (authorizations s !! r). Qed.

Lemma settleMembers_rest rs s :
  agentUsage (List.fold_left settleMember rs s) = agentUsage s
  /\ settlementBatches (List.fold_left settleMember rs s) = settlementBatches s
  /\ disputes (List.fold_left settleMember rs s) = disputes s
  /\ settlementThresholds (List.fold_left settleMember rs s) = settlementThresholds s.
Proof.
  revert s. induction rs as [|r rs IH]; intros s; [done|].
  simpl List.fold_left. destruct (IH (settleMember s r)) as (-> & -> & -> & ->).
  apply settleMember_rest.
Qed.

(** Where objects sit under their own id and every member is stored, the
    loop takes one queue entry out per member listed. *)
Lemma settleMembers_queue rs s :
  (forall k a, authorizations s !! k = Some a -> PaymentAuthorization.id a = k) ->
  (forall r, r ∈ rs -> is_Some (authorizations s !! r)) ->
  settlementQueue (List.fold_left settleMember rs s) = removeEach rs (settlementQueue s).
Proof.
  revert s. induction rs as [|r rs IH]; intros s Hkeys Hin; [done|].
  simpl List.fold_left. rewrite IH.
  - change (removeEach (r :: rs) (settlementQueue s))
      with (removeEach rs (removeFirst r (settlementQueue s))).
    f_equal. unfold settleMember.
    destruct (Hin r) as [a Ha]; [apply list_elem_of_here|]. rewrite Ha. fields.
    by rewrite (Hkeys _ _ Ha).
  - intros k a. rewrite settleMember_authorizations. intros Hk.
    eapply upToStatus_id; [apply upToStatus_alter|exact Hkeys|exact Hk].
  - intros r' Hr'. rewrite settleMember_authorizations.
    eapply upToStatus_is_Some; [apply upToStatus_alter|].
    apply Hin. by apply list_elem_of_further.
Qed.

(** Without the structure, the queue still only loses entries. *)
Lemma settleMembers_queue_elem_of rs s x :
  x ∈ settlementQueue (List.fold_left settleMember rs s) -> x ∈ settlementQueue s.
Proof.
  revert s. induction rs as [|r rs IH]; intros s; [done|].
  simpl List.fold_left. intros Hx. apply IH in Hx. unfold settleMember in Hx.
  destruct (authorizations s !! r); [|done]. fields. by eapply removeFirst_elem_of.
Qed.

(** [failSettlement]'s loop. *)
Lemma resetMembers_state rs s :
  List.fold_left resetMember rs s
  = setAuthorizations (writeEach AuthorizationStatus.pending rs (authorizations s)) s.
Proof.
  revert s. induction rs as [|r rs IH]; intros s; [by destruct s|].
  simpl List.fold_left. rewrite IH. by destruct s.
Qed.

Lemma sweep_step now n s r a :
  sweep now (n, s) (r, a)
  = if isStale now (r, a)
    then (n + 1,
          setSettlementQueue (removeFirst (PaymentAuthorization.id a) (settlementQueue s))
            (writeStatus r AuthorizationStatus.expired s))
    else (n, s).
Proof. reflexivity. Qed.

(** [cleanupExpired]'s loop, over any listing of objects. *)
Lemma sweep_fold now l n s :
  let stale := List.filter (isStale now) l in
  let result := List.fold_left (sweep now) l (n, s) in
  fst result = n + Z.of_nat (List.length stale)
  /\ authorizations (snd result)
     = writeEach AuthorizationStatus.expired (List.map fst stale) (authorizations s)
  /\ settlementQueue (snd result)
     = removeEach (List.map (fun ra => PaymentAuthorization.id (snd ra)) stale)
         (settlementQueue s)
  /\ agentUsage (snd result) = agentUsage s
  /\ settlementBatches (snd result) = settlementBatches s
  /\ disputes (snd result) = disputes s
  /\ settlementThresholds (snd result) = settlementThresholds s.
Proof.
  cbv zeta. revert n s. induction l as [|[r a] l IH]; intros n s.
  - simpl. repeat split; lia.
  - change (List.fold_left (sweep now) ((r, a) :: l) (n, s))
      with (List.fold_left (sweep now) l (sweep now (n, s) (r, a))).
    change (List.filter (isStale now) ((r, a) :: l))
      with (if isStale now (r, a) then (r, a) :: List.filter (isStale now) l
            else List.filter (isStale now) l).
    rewrite sweep_step. destruct (isStale now (r, a)).
    + destruct (IH (n + 1)
        (setSettlementQueue (removeFirst (PaymentAuthorization.id a) (settlementQueue s))
           (writeStatus r AuthorizationStatus.expired s)))
        as (-> & -> & -> & -> & -> & -> & ->).
      simpl List.length. repeat split. lia.
    + apply IH.
Qed.

End Loops.

(** ** What each call does to the state *)

Section Effects.
Import FacilitatorService Reach.

Lemma elem_of_list_insert_inv {A} (l : list A) (i : nat) (x y : A) :
  y ∈ <[i := x]> l -> y = x \/ y ∈ l.
Proof.
  rewrite !list_elem_of_lookup. intros [j Hj].
  apply list_lookup_insert_Some in Hj as [(_ & <- & _)|(_ & Hj)]; eauto.
Qed.

Lemma findBatch_Some bid s i b :
  findBatch bid s = Some (i, b) ->
  settlementBatches s !! i = Some b /\ SettlementBatch.id b = bid
  /\ forall j b', settlementBatches s !! j = Some b' -> (j < i)%nat ->
                  SettlementBatch.id b' ≠ bid.
Proof. unfold findBatch. intros H. by apply list_find_Some in H. Qed.

Lemma findDispute_Some did s i d :
  findDispute did s = Some (i, d) ->
  disputes s !! i = Some d /\ DisputeRecord.id d = did
  /\ forall j d', disputes s !! j = Some d' -> (j < i)%nat -> DisputeRecord.id d' ≠ did.
Proof. unfold findDispute. intros H. by apply list_find_Some in H. Qed.

(** The agent's queued authorizations are the queue entries that lead to a
    stored object of that agent. *)
Lemma queuedAuthorizations_elem_of s agentAddress r a :
  (r, a) ∈ queuedAuthorizations s agentAddress
  <-> r ∈ settlementQueue s /\ authorizations s !! r = Some a
      /\ PaymentAuthorization.agentAddress a = agentAddress.
Proof.
  unfold queuedAuthorizations. rewrite elem_of_List_filter, list_elem_of_omap.
  rewrite bool_decide_eq_true. simpl. split.
  - intros [(k & Hk & Hlook) Hag]. destruct (authorizations s !! k) eqn:E; [|discriminate].
    simpl in Hlook. simplify_eq. done.
  - intros (Hr & Ha & Hag). split; [|done]. exists r. split; [done|]. by rewrite Ha.
Qed.

(** [verifyAuthorization] either changes nothing or stores the fresh
    object and counts it. *)
Lemma verifyAuthorization_effect now a s :
  let s' := snd (verifyAuthorization now a s) in
  s' = s
  \/ (authorizations s !! PaymentAuthorization.id a = None
      /\ fst (verifyAuthorization now a s) = VerifyResult.mk true None
      /\ authorizations s' = <[PaymentAuthorization.id a := a]> (authorizations s)
      /\ settlementQueue s' = settlementQueue s
      /\ settlementBatches s' = settlementBatches s
      /\ disputes s' = disputes s
      /\ settlementThresholds s' = settlementThresholds s).
Proof.
  cbv zeta. unfold verifyAuthorization.
  destruct (authorizations s !! PaymentAuthorization.id a) eqn:E; [by left|].
  destruct (PaymentAuthorization.expiresAt a <? now); [by left|].
  destruct (negb (verifySignature a)); [by left|].
  right. done.
Qed.

Lemma queueForSettlement_effect now id s :
  let s' := snd (queueForSettlement now id s) in
  s' = s
  \/ (exists a, authorizations s !! id = Some a
        /\ PaymentAuthorization.status a ≠ AuthorizationStatus.settled)
     /\ (id ∉ settlementQueue s)
     /\ authorizations s'
        = alter (PaymentAuthorization.setStatus AuthorizationStatus.validated) id
            (authorizations s)
     /\ settlementQueue s' = settlementQueue s ++ [id]
     /\ settlementBatches s' = settlementBatches s
     /\ disputes s' = disputes s
     /\ settlementThresholds s' = settlementThresholds s.
Proof.
  cbv zeta. unfold queueForSettlement.
  destruct (authorizations s !! id) as [a|] eqn:E; [|by left].
  destruct (decide (id ∈ settlementQueue s)); [by left|].
  destruct (decide (PaymentAuthorization.status a = AuthorizationStatus.settled)); [by left|].
  right. split; [by exists a|]. done.
Qed.

(** A batch that [createSettlementBatch] returns is appended to the
    registry as pending; its members are the agent's queued authorizations
    of one merchant, in queue order. *)
Lemma createSettlementBatch_effect now agentAddress merchantAddress s b s' :
  createSettlementBatch now agentAddress merchantAddress s = (Some b, s') ->
  exists merchant members first rest,
    members
    = List.filter
        (fun ra => bool_decide (Some (PaymentAuthorization.merchantAddress (snd ra))
                                = Some merchant))
        (queuedAuthorizations s agentAddress)
    /\ members = first :: rest
    /\ b = SettlementBatch.mk (batchId now agentAddress) agentAddress merchant
             (List.map fst members)
             (JS.toFixed (sumAmounts (List.map snd members)) 6)
             (PaymentAuthorization.currency (snd first))
             BatchStatus.pending now None None None
    /\ s' = setSettlementBatches (settlementBatches s ++ [b]) s.
Proof.
  unfold createSettlementBatch.
  destruct (queuedAuthorizations s agentAddress) as [|ra0 queued] eqn:Hq; [discriminate|].
  set (chosen := if notGiven merchantAddress
                 then mostQueuedMerchant (ra0 :: queued) merchantAddress
                 else merchantAddress).
  destruct (List.filter _ (ra0 :: queued)) as [|[r1 a1] rest] eqn:Hf; [discriminate|].
  destruct chosen as [merchant|] eqn:Hc; [|discriminate].
  intros [= <- <-]. exists merchant, ((r1, a1) :: rest), (r1, a1), rest.
  by rewrite Hf.
Qed.

Lemma createSettlementBatch_None now agentAddress merchantAddress s s' :
  createSettlementBatch now agentAddress merchantAddress s = (None, s') -> s' = s.
Proof.
  unfold createSettlementBatch.
  destruct (queuedAuthorizations s agentAddress) as [|ra0 queued]; [by intros [= <-]|].
  destruct (List.filter _ (ra0 :: queued)) as [|[r1 a1] rest]; [by intros [= <-]|].
  destruct (if notGiven merchantAddress then _ else _); [discriminate|by intros [= <-]].
Qed.

Lemma completeSettlement_effect now bid tx s s' :
  completeSettlement now bid tx s = Returned s' ->
  exists i b,
    findBatch bid s = Some (i, b)
    /\ authorizations s'
       = writeEach AuthorizationStatus.settled (SettlementBatch.authorizations b)
           (authorizations s)
    /\ settlementBatches s'
       = <[i := SettlementBatch.mk (SettlementBatch.id b) (SettlementBatch.agentAddress b)
                  (SettlementBatch.merchantAddress b) (SettlementBatch.authorizations b)
                  (SettlementBatch.totalAmount b) (SettlementBatch.currency b)
                  BatchStatus.completed (SettlementBatch.createdAt b)
                  (Some now) (Some tx) (SettlementBatch.error b)]> (settlementBatches s)
    /\ disputes s' = disputes s
    /\ settlementThresholds s' = settlementThresholds s
    /\ (forall x, x ∈ settlementQueue s' -> x ∈ settlementQueue s)
    /\ (wellFormed s ->
        settlementQueue s' = removeEach (SettlementBatch.authorizations b) (settlementQueue s)).
Proof.
  unfold completeSettlement. destruct (findBatch bid s) as [[i b]|] eqn:Hfind; [|discriminate].
  intros [= <-]. exists i, b. split; [done|].
  rewrite settleMembers_authorizations.
  match goal with |- context [List.fold_left settleMember ?rs ?s0] =>
    destruct (settleMembers_rest rs s0) as (_ & -> & -> & ->) end.
  repeat split.
  - intros x Hx. by apply settleMembers_queue_elem_of in Hx.
  - intros Hwf. rewrite settleMembers_queue; [done|apply Hwf|].
    intros r Hr. apply findBatch_Some in Hfind as (Hb & _).
    eapply (wf_batches s Hwf b r); [|done]. apply list_elem_of_lookup. eauto.
Qed.

Lemma failSettlement_effect bid err s s' :
  failSettlement bid err s = Returned s' ->
  exists i b,
    findBatch bid s = Some (i, b)
    /\ authorizations s'
       = writeEach AuthorizationStatus.pending (SettlementBatch.authorizations b)
           (authorizations s)
    /\ settlementBatches s'
       = <[i := SettlementBatch.mk (SettlementBatch.id b) (SettlementBatch.agentAddress b)
                  (SettlementBatch.merchantAddress b) (SettlementBatch.authorizations b)
                  (SettlementBatch.totalAmount b) (SettlementBatch.currency b)
                  BatchStatus.failed (SettlementBatch.createdAt b)
                  (SettlementBatch.settledAt b) (SettlementBatch.transactionSignature b)
                  (Some err)]> (settlementBatches s)
    /\ disputes s' = disputes s
    /\ settlementThresholds s' = settlementThresholds s
    /\ settlementQueue s' = settlementQueue s.
Proof.
  unfold failSettlement. destruct (findBatch bid s) as [[i b]|] eqn:Hfind; [|discriminate].
  intros [= <-]. exists i, b. split; [done|]. rewrite resetMembers_state. done.
Qed.

Lemma createDispute_effect now params s d s' :
  createDispute now params s = Returned (d, s') ->
  let r := DisputeParams.authorizationId params in
  (exists a, authorizations s !! r = Some a
             /\ PaymentAuthorization.agentAddress a = DisputeParams.agentAddress params
             /\ DisputeRecord.merchantAddress d = PaymentAuthorization.merchantAddress a)
  /\ DisputeRecord.authorizationId d = r
  /\ DisputeRecord.status d = DisputeStatus.pending
  /\ DisputeRecord.id d = disputeId now r
  /\ authorizations s'
     = alter (PaymentAuthorization.setStatus AuthorizationStatus.disputed) r (authorizations s)
  /\ settlementQueue s' = removeFirst r (settlementQueue s)
  /\ disputes s' = disputes s ++ [d]
  /\ settlementBatches s' = settlementBatches s
  /\ settlementThresholds s' = settlementThresholds s.
Proof.
  unfold createDispute.
  destruct (authorizations s !! DisputeParams.authorizationId params) as [a|] eqn:E;
    [|discriminate].
  destruct (decide _) as [Hag|]; [|discriminate].
  intros [= <- <-]. cbv zeta. split; [by exists a|]. done.
Qed.

Lemma resolveDispute_effect now did resolution note s s' :
  wellFormed s ->
  resolveDispute now did resolution note s = Returned s' ->
  exists i d,
    findDispute did s = Some (i, d)
    /\ disputes s'
       = <[i := DisputeRecord.mk (DisputeRecord.id d) (DisputeRecord.authorizationId d)
                  (DisputeRecord.agentAddress d) (DisputeRecord.merchantAddress d)
                  (DisputeRecord.reason d) DisputeStatus.resolved
                  (DisputeRecord.createdAt d) (Some now) note
                  (DisputeRecord.evidence d)]> (disputes s)
    /\ is_Some (authorizations s !! DisputeRecord.authorizationId d)
    /\ authorizations s'
       = alter (PaymentAuthorization.setStatus
                  match resolution with
                  | Resolution.rejected => AuthorizationStatus.validated
                  | Resolution.approved => AuthorizationStatus.disputed
                  end) (DisputeRecord.authorizationId d) (authorizations s)
    /\ settlementQueue s'
       = match resolution with
         | Resolution.rejected => settlementQueue s ++ [DisputeRecord.authorizationId d]
         | Resolution.approved => settlementQueue s
         end
    /\ settlementBatches s' = settlementBatches s
    /\ settlementThresholds s' = settlementThresholds s.
Proof.
  intros Hwf. unfold resolveDispute.
  destruct (findDispute did s) as [[i d]|] eqn:Hfind; [|discriminate].
  pose proof (findDispute_Some _ _ _ _ Hfind) as (Hd & _).
  assert (is_Some (authorizations s !! DisputeRecord.authorizationId d)) as [a Ha].
  { apply (wf_disputes s Hwf). apply list_elem_of_lookup. eauto. }
  fields. rewrite Ha. intros Hret. exists i, d. split; [done|].
  destruct resolution; injection Hret as <-; fields; repeat split; eauto.
  by rewrite (wf_keys s Hwf _ _ Ha).
Qed.

(** [cleanupExpired] marks the stale objects expired and takes one queue
    entry out for each. *)
Lemma cleanupExpired_effect now s :
  let stale := List.filter (isStale now) (allAuthorizations s) in
  let s' := snd (cleanupExpired now s) in
  fst (cleanupExpired now s) = Z.of_nat (List.length stale)
  /\ (forall k, authorizations s' !! k
                = (fun a => if isStale now (k, a)
                            then PaymentAuthorization.setStatus AuthorizationStatus.expired a
                            else a) <$> authorizations s !! k)
  /\ settlementQueue s'
     = removeEach (List.map (fun ra => PaymentAuthorization.id (snd ra)) stale)
         (settlementQueue s)
  /\ settlementBatches s' = settlementBatches s
  /\ disputes s' = disputes s
  /\ settlementThresholds s' = settlementThresholds s.
Proof.
  cbv zeta. unfold cleanupExpired.
  destruct (sweep_fold now (allAuthorizations s) 0 s) as (-> & Hst & -> & _ & -> & -> & ->).
  repeat split. intros k. rewrite Hst, writeEach_lookup.
  destruct (authorizations s !! k) as [a|] eqn:Ha; simpl.
  - destruct (isStale now (k, a)) eqn:Hstale.
    + rewrite decide_True; [done|]. apply (list_elem_of_fmap_2 fst _ (k, a)).
      apply elem_of_List_filter. split; [|done]. by apply elem_of_map_to_list.
    + rewrite decide_False; [done|]. intros Hin.
      apply list_elem_of_fmap in Hin as ([k' a'] & -> & Hin).
      apply elem_of_List_filter in Hin as [Hin Hs].
      apply elem_of_map_to_list in Hin. simpl in *. congruence.
  - by destruct (decide _).
Qed.

End Effects.

(** ** Structure of reachable states *)

Section WellFormed.
Import FacilitatorService Reach.

Lemma create_wellFormed thresholds : wellFormed (create thresholds).
Proof.
  split; simpl.
  - intros k a. by rewrite lookup_empty.
  - intros k Hk. by apply not_elem_of_nil in Hk.
  - intros b r Hb. by apply not_elem_of_nil in Hb.
  - intros d Hd. by apply not_elem_of_nil in Hd.
Qed.

(** Writing statuses, and moving references that point into the store,
    keeps the structure. *)
Lemma wellFormed_frame s s' :
  wellFormed s ->
  upToStatus (authorizations s) (authorizations s') ->
  (forall k, k ∈ settlementQueue s' -> is_Some (authorizations s !! k)) ->
  (forall b r, b ∈ settlementBatches s' -> r ∈ SettlementBatch.authorizations b ->
               is_Some (authorizations s !! r)) ->
  (forall d, d ∈ disputes s' -> is_Some (authorizations s !! DisputeRecord.authorizationId d)) ->
  wellFormed s'.
Proof.
  intros Hwf Hup Hq Hb Hd. split.
  - intros k a Ha. eapply upToStatus_id; [exact Hup|apply (wf_keys s Hwf)|exact Ha].
  - intros k Hk. eapply upToStatus_is_Some; eauto.
  - intros b r Hin Hr. eapply upToStatus_is_Some; eauto.
  - intros d Hin. eapply upToStatus_is_Some; eauto.
Qed.

Lemma batch_members_stored now agentAddress merchantAddress s b s' r :
  createSettlementBatch now agentAddress merchantAddress s = (Some b, s') ->
  r ∈ SettlementBatch.authorizations b ->
  r ∈ settlementQueue s
  /\ exists a, authorizations s !! r = Some a
               /\ PaymentAuthorization.agentAddress a = SettlementBatch.agentAddress b
               /\ PaymentAuthorization.merchantAddress a = SettlementBatch.merchantAddress b.
Proof.
  intros Hc Hr.
  apply createSettlementBatch_effect in Hc as (merchant & members & first & rest & Hm & _ & -> & _).
  simpl in *. apply list_elem_of_fmap in Hr as ([r' a] & -> & Hin).
  rewrite Hm in Hin. apply elem_of_List_filter in Hin as [Hin Hmer].
  apply queuedAuthorizations_elem_of in Hin as (Hq & Ha & Hag).
  apply bool_decide_eq_true in Hmer. simpl in *. split; [done|].
  exists a. repeat split; congruence.
Qed.

Lemma exec_wellFormed now c s : wellFormed s -> wellFormed (exec now c s).
Proof.
  intros Hwf. destruct c as [a|id|ag m|bid tx|bid err|params|did res note|]; simpl.
  - destruct (verifyAuthorization_effect now a s) as [->|(Hnone & _ & Hst & Hq & Hb & Hd & _)];
      [done|].
    split.
    + intros k a'. rewrite Hst. destruct (decide (PaymentAuthorization.id a = k)) as [<-|Hne].
      * rewrite lookup_insert_eq. by intros [= <-].
      * rewrite lookup_insert_ne by done. apply (wf_keys s Hwf).
    + intros k. rewrite Hq, Hst. intros Hk. apply lookup_insert_is_Some'. right. by apply (wf_queue s Hwf).
    + intros b r. rewrite Hb, Hst. intros Hin Hr. apply lookup_insert_is_Some'. right.
      by eapply (wf_batches s Hwf).
    + intros d. rewrite Hd, Hst. intros Hin. apply lookup_insert_is_Some'. right.
      by apply (wf_disputes s Hwf).
  - destruct (queueForSettlement_effect now id s)
      as [->|((a & Ha & _) & _ & Hst & Hq & Hb & Hd & _)]; [done|].
    apply (wellFormed_frame s); [done|..].
    + rewrite Hst. apply upToStatus_alter.
    + intros k. rewrite Hq, elem_of_app, list_elem_of_singleton.
      intros [Hk| ->]; [by apply (wf_queue s Hwf)|eauto].
    + intros b r. rewrite Hb. apply (wf_batches s Hwf).
    + intros d. rewrite Hd. apply (wf_disputes s Hwf).
  - destruct (createSettlementBatch now ag m s) as [[b|] s'] eqn:Hc; simpl.
    + pose proof (createSettlementBatch_effect _ _ _ _ _ _ Hc)
        as (merchant & members & first & rest & _ & _ & _ & ->).
      apply (wellFormed_frame s); [done|apply upToStatus_refl|apply (wf_queue s Hwf)|..|apply (wf_disputes s Hwf)].
      intros b' r. fields. rewrite elem_of_app, list_elem_of_singleton.
      intros [Hb'| ->] Hr; [by eapply (wf_batches s Hwf)|].
      destruct (batch_members_stored _ _ _ _ _ _ _ Hc Hr) as (_ & a & Ha & _). eauto.
    + by rewrite (createSettlementBatch_None _ _ _ _ _ Hc).
  - destruct (completeSettlement now bid tx s) as [s'|] eqn:Hc; [|done].
    apply completeSettlement_effect in Hc as (i & b & Hfind & Hst & Hb & Hd & _ & Hq & _).
    apply findBatch_Some in Hfind as (Hlook & _).
    apply (wellFormed_frame s); [done|..].
    + rewrite Hst. apply upToStatus_writeEach.
    + intros k Hk. apply (wf_queue s Hwf). by apply Hq.
    + intros b' r. rewrite Hb. intros Hin Hr.
      apply elem_of_list_insert_inv in Hin as [->|Hin]; [|by eapply (wf_batches s Hwf)].
      simpl in Hr. eapply (wf_batches s Hwf); [|exact Hr]. apply list_elem_of_lookup. eauto.
    + intros d. rewrite Hd. apply (wf_disputes s Hwf).
  - destruct (failSettlement bid err s) as [s'|] eqn:Hc; [|done].
    apply failSettlement_effect in Hc as (i & b & Hfind & Hst & Hb & Hd & _ & Hq).
    apply findBatch_Some in Hfind as (Hlook & _).
    apply (wellFormed_frame s); [done|..].
    + rewrite Hst. apply upToStatus_writeEach.
    + intros k. rewrite Hq. apply (wf_queue s Hwf).
    + intros b' r. rewrite Hb. intros Hin Hr.
      apply elem_of_list_insert_inv in Hin as [->|Hin]; [|by eapply (wf_batches s Hwf)].
      simpl in Hr. eapply (wf_batches s Hwf); [|exact Hr]. apply list_elem_of_lookup. eauto.
    + intros d. rewrite Hd. apply (wf_disputes s Hwf).
  - destruct (createDispute now params s) as [[d s']|] eqn:Hc; [|done].
    apply createDispute_effect in Hc
      as ((a & Ha & _) & Hauth & _ & _ & Hst & Hq & Hd & Hb & _).
    apply (wellFormed_frame s); [done|..].
    + rewrite Hst. apply upToStatus_alter.
    + intros k. rewrite Hq. intros Hk. apply (wf_queue s Hwf). by eapply removeFirst_elem_of.
    + intros b r. rewrite Hb. apply (wf_batches s Hwf).
    + intros d'. rewrite Hd, elem_of_app, list_elem_of_singleton.
      intros [Hin| ->]; [by apply (wf_disputes s Hwf)|]. rewrite Hauth. eauto.
  - destruct (resolveDispute now did res note s) as [s'|] eqn:Hc; [|done].
    apply resolveDispute_effect in Hc as (i & d & Hfind & Hd & Hsome & Hst & Hq & Hb & _);
      [|done].
    apply findDispute_Some in Hfind as (Hlook & _).
    apply (wellFormed_frame s); [done|..].
    + rewrite Hst. apply upToStatus_alter.
    + intros k. rewrite Hq. destruct res; [apply (wf_queue s Hwf)|].
      rewrite elem_of_app, list_elem_of_singleton. intros [Hk| ->]; [by apply (wf_queue s Hwf)|done].
    + intros b r. rewrite Hb. apply (wf_batches s Hwf).
    + intros d'. rewrite Hd. intros Hin.
      apply elem_of_list_insert_inv in Hin as [->|Hin]; [done|by apply (wf_disputes s Hwf)].
  - destruct (cleanupExpired_effect now s) as (_ & Hst & Hq & Hb & Hd & _).
    apply (wellFormed_frame s); [done|..].
    + intros k. rewrite Hst. destruct (authorizations s !! k) as [a|]; simpl; [|done].
      destruct (isStale now (k, a)); [|done]. by rewrite setStatus_setStatus.
    + intros k. rewrite Hq. intros Hk. apply (wf_queue s Hwf). by eapply removeEach_elem_of.
    + intros b r. rewrite Hb. apply (wf_batches s Hwf).
    + intros d. rewrite Hd. apply (wf_disputes s Hwf).
Qed.

Lemma reachableBy_wellFormed allowed thresholds s :
  reachableBy allowed thresholds s -> wellFormed s.
Proof.
  induction 1; [apply create_wellFormed|by apply exec_wellFormed].
Qed.

Lemma reachableBy_reachable allowed thresholds s :
  reachableBy allowed thresholds s -> reachable thresholds s.
Proof. induction 1; [constructor|by constructor]. Qed.

Lemma run_reachable thresholds calls s :
  reachable thresholds s -> reachable thresholds (run calls s).
Proof.
  revert s. induction calls as [|[now c] calls IH]; intros s Hs; [done|].
  simpl. apply IH. by constructor.
Qed.

Lemma reachable_run thresholds calls : reachable thresholds (run calls (create thresholds)).
Proof. apply run_reachable. constructor. Qed.

Lemma reachableBy_run allowed thresholds calls s :
  reachableBy allowed thresholds s -> allAllowed allowed calls s ->
  reachableBy allowed thresholds (run calls s).
Proof.
  revert s. induction calls as [|[now c] calls IH]; intros s Hs Hcalls; [done|].
  destruct Hcalls as [Hc Hcalls]. simpl in *. apply IH; [by constructor|done].
Qed.

Lemma reachable_exec thresholds now c s :
  reachable thresholds s -> reachable thresholds (exec now c s).
Proof. intros Hs. by constructor. Qed.

(** The scenarios of [Samples] are reachable. *)
Lemma afterFirst_reachable : reachable Samples.thresholds Samples.afterFirst.
Proof. apply reachable_run. Qed.

Lemma afterBoth_reachable : reachable Samples.thresholds Samples.afterBoth.
Proof. apply run_reachable, afterFirst_reachable. Qed.

Lemma batched_reachable : reachable Samples.thresholds Samples.batched.
Proof. apply reachable_exec, afterBoth_reachable. Qed.

Lemma failed_reachable : reachable Samples.thresholds Samples.failed.
Proof. apply reachable_exec, batched_reachable. Qed.

Lemma disputed_reachable : reachable Samples.thresholds Samples.disputed.
Proof. apply reachable_run. Qed.



Lemma twoCurrencies_reachable : reachable Samples.thresholds Samples.twoCurrencies.
Proof. apply run_reachable, afterFirst_reachable. Qed.


End WellFormed.

(** ** Completion of a settlement *)

Section Completion.
Import FacilitatorService Reach.


Lemma queueForSettlement_succeeded now id s r s' :
  queueForSettlement now id s = (r, s') -> QueueResult.success r = true ->
  is_Some (authorizations s !! id)
  /\ (id ∉ settlementQueue s)
  /\ authorizations s'
     = alter (PaymentAuthorization.setStatus AuthorizationStatus.validated) id (authorizations s)
  /\ settlementQueue s' = settlementQueue s ++ [id]
  /\ settlementBatches s' = settlementBatches s
  /\ disputes s' = disputes s.
Proof.
  unfold queueForSettlement.
  destruct (authorizations s !! id) as [a|]; [|by intros [= <- <-]].
  destruct (decide (id ∈ settlementQueue s)); [by intros [= <- <-]|].
  destruct (decide (PaymentAuthorization.status a = AuthorizationStatus.settled));
    [by intros [= <- <-]|].
  intros [= <- <-] _. eauto 10.
Qed.

Lemma statusOf_writeEach st rs s s' r :
  authorizations s' = writeEach st rs (authorizations s) ->
  r ∈ rs -> is_Some (authorizations s !! r) -> statusOf s' r = Some st.
Proof.
  intros Hst Hr [a Ha]. unfold statusOf.
  by rewrite Hst, writeEach_lookup, decide_True, Ha.
Qed.

Lemma statusOf_writeEach_other st rs s s' r :
  authorizations s' = writeEach st rs (authorizations s) ->
  r ∉ rs -> statusOf s' r = statusOf s r.
Proof. intros Hst Hr. unfold statusOf. by rewrite Hst, writeEach_lookup, decide_False. Qed.

(** What [completeSettlement] does to a batch it locates, in a reachable
    state. *)
Lemma completeSettlement_located now bid tx s i b :
  wellFormed s -> findBatch bid s = Some (i, b) ->
  exists s',
    completeSettlement now bid tx s = Returned s'
    /\ (exists b', settlementBatches s' !! i = Some b'
          /\ SettlementBatch.status b' = BatchStatus.completed
          /\ SettlementBatch.settledAt b' = Some now
          /\ SettlementBatch.transactionSignature b' = Some tx
          /\ SettlementBatch.id b' = SettlementBatch.id b
          /\ SettlementBatch.authorizations b' = SettlementBatch.authorizations b)
    /\ (forall r, r ∈ SettlementBatch.authorizations b ->
                  statusOf s' r = Some AuthorizationStatus.settled)
    /\ settlementQueue s' = removeEach (SettlementBatch.authorizations b) (settlementQueue s).
Proof.
  intros Hwf Hfind.
  destruct (completeSettlement now bid tx s) as [s'|msg] eqn:Hc.
  - exists s'. split; [done|].
    apply completeSettlement_effect in Hc as (i' & b0 & Hfind' & Hst & Hb & _ & _ & _ & Hq).
    rewrite Hfind in Hfind'. injection Hfind' as <- <-.
    apply findBatch_Some in Hfind as (Hlook & _).
    split; [|split].
    + eexists. split.
      * rewrite Hb. apply list_lookup_insert_eq. by eapply lookup_lt_Some.
      * done.
    + intros r Hr. eapply statusOf_writeEach; [exact Hst|exact Hr|].
      eapply (wf_batches s Hwf); [|exact Hr]. apply list_elem_of_lookup. eauto.
    + by apply Hq.
  - unfold completeSettlement in Hc. by rewrite Hfind in Hc.
Qed.



End Completion.

(** ** Disputes *)

Section Disputes.
Import FacilitatorService Reach.



End Disputes.

(** ** The queue invariant *)

Section QueueInvariant.
Import FacilitatorService Reach.

Lemma statusOf_alter st r s s' k :
  authorizations s' = alter (PaymentAuthorization.setStatus st) r (authorizations s) ->
  statusOf s' k
  = if decide (r = k) then (fun _ => st) <$> authorizations s !! k else statusOf s k.
Proof.
  intros Hst. unfold statusOf. rewrite Hst. destruct (decide (r = k)) as [->|Hne].
  - rewrite lookup_alter_eq. by destruct (authorizations s !! k).
  - by rewrite lookup_alter_ne.
Qed.

(** One allAllowed call keeps a duplicate-free queue of validated
    authorizations. *)
Lemma exec_queueValidated now c s :
  wellFormed s -> keepsQueueValidated s c ->
  NoDup (settlementQueue s) /\ queueValidated s ->
  NoDup (settlementQueue (exec now c s)) /\ queueValidated (exec now c s).
Proof.
  intros Hwf Hallowed [Hnd Hinv]. unfold queueValidated in *.
  destruct c as [a|id|ag m|bid tx|bid err|params|did res note|]; simpl in *.
  - destruct (verifyAuthorization_effect now a s) as [->|(Hnone & _ & Hst & Hq & _)];
      [done|].
    rewrite Hq. split; [done|]. intros k Hk. unfold statusOf. rewrite Hst.
    rewrite lookup_insert_ne; [by apply Hinv|]. intros <-.
    apply (wf_queue s Hwf) in Hk as [? Hk]. congruence.
  - destruct (queueForSettlement_effect now id s)
      as [->|((a & Ha & _) & Hnin & Hst & Hq & _)]; [done|].
    rewrite Hq. split.
    + apply NoDup_app. split; [done|]. split; [|apply NoDup_singleton].
      intros x Hx Hx'. apply list_elem_of_singleton in Hx' as ->. done.
    + intros k Hk. rewrite (statusOf_alter _ _ _ _ _ Hst).
      destruct (decide (id = k)) as [<-|Hne]; [by rewrite Ha|].
      apply Hinv. apply elem_of_app in Hk as [Hk|Hk]; [done|].
      apply list_elem_of_singleton in Hk. congruence.
  - destruct (createSettlementBatch now ag m s) as [[b|] s'] eqn:Hc; simpl.
    + apply createSettlementBatch_effect in Hc as (? & ? & ? & ? & _ & _ & _ & ->). done.
    + by rewrite (createSettlementBatch_None _ _ _ _ _ Hc).
  - destruct (completeSettlement now bid tx s) as [s'|] eqn:Hc; [|done].
    apply completeSettlement_effect in Hc as (i & b & _ & Hst & _ & _ & _ & _ & Hq).
    rewrite (Hq Hwf). split; [by apply removeEach_NoDup|].
    intros k Hk. rewrite (statusOf_writeEach_other _ _ _ _ _ Hst).
    + apply Hinv. by eapply removeEach_elem_of.
    + intros Hin. by eapply removeEach_NoDup_gone.
  - done.
  - destruct (createDispute now params s) as [[d s']|] eqn:Hc; [|done].
    apply createDispute_effect in Hc as (_ & _ & _ & _ & Hst & Hq & _).
    rewrite Hq. split; [by apply removeFirst_NoDup|].
    intros k Hk. rewrite (statusOf_alter _ _ _ _ _ Hst).
    rewrite decide_False; [apply Hinv; by eapply removeFirst_elem_of|].
    intros <-. by eapply removeFirst_NoDup_gone.
  - destruct (resolveDispute now did res note s) as [s'|] eqn:Hc; [|done].
    apply resolveDispute_effect in Hc as (i & d & Hfind & _ & [a Ha] & Hst & Hq & _); [|done].
    rewrite Hfind in Hallowed. rewrite Hq. destruct res.
    + split; [done|]. intros k Hk. rewrite (statusOf_alter _ _ _ _ _ Hst).
      rewrite decide_False; [by apply Hinv|]. by intros <-.
    + split.
      * apply NoDup_app. split; [done|]. split; [|apply NoDup_singleton].
        intros x Hx Hx'. apply list_elem_of_singleton in Hx' as ->. done.
      * intros k Hk. rewrite (statusOf_alter _ _ _ _ _ Hst).
        destruct (decide (DisputeRecord.authorizationId d = k)) as [<-|Hne]; [by rewrite Ha|].
        apply Hinv. apply elem_of_app in Hk as [Hk|Hk]; [done|].
        apply list_elem_of_singleton in Hk. congruence.
  - destruct (cleanupExpired_effect now s) as (_ & Hst & Hq & _).
    rewrite Hq. split; [by apply removeEach_NoDup|].
    intros k Hk. apply removeEach_elem_of in Hk. specialize (Hinv k Hk).
    unfold statusOf in *. rewrite Hst.
    destruct (authorizations s !! k) as [a|]; [|done]. simpl in *.
    unfold isStale. simpl. injection Hinv as Hinv. rewrite Hinv.
    rewrite bool_decide_eq_false_2 by discriminate. by rewrite andb_false_r, Hinv.
Qed.

(** [C6] (as amended) In every state reachable by [verifyAuthorization],
    [queueForSettlement], [createSettlementBatch], [completeSettlement],
    [createDispute], [cleanupExpired], and by [resolveDispute] applied
    while the disputed authorization is not in the queue, every
    authorization whose id is in the settlement queue has status
    validated, and no id is queued twice. *)
Theorem queue_holds_validated (thresholds : SettlementThreshold.t) (s : State) :
  reachableBy keepsQueueValidated thresholds s ->
  NoDup (settlementQueue s) /\ queueValidated s.
Proof.
  induction 1 as [|s now c Hreach IH Hallowed].
  - split; [constructor|]. intros k Hk. by apply not_elem_of_nil in Hk.
  - apply exec_queueValidated; [by eapply reachableBy_wellFormed|done..].
Qed.

(** Both authorizations of the test suite, verified and queued. *)
Lemma queue_holds_validated_witness :
  reachableBy keepsQueueValidated Samples.thresholds Samples.afterBoth
  /\ NoDup (settlementQueue Samples.afterBoth) /\ queueValidated Samples.afterBoth.
Proof.
  assert (Hr : reachableBy keepsQueueValidated Samples.thresholds Samples.afterBoth).
  { apply reachableBy_run; [apply reachableBy_run; [apply reach_create|]|];
      cbn [allAllowed keepsQueueValidated snd]; tauto. }
  split; [exact Hr|]. exact (queue_holds_validated Samples.thresholds Samples.afterBoth Hr).
Defined.

(** [C6] (as stated, refuted) After [failSettlement] the members of the
    failed batch are pending and still queued. *)
Lemma queue_holds_validated_counterexample :
  reachable Samples.thresholds Samples.failed
  /\ "auth_threshold_001" ∈ settlementQueue Samples.failed
  /\ statusOf Samples.failed "auth_threshold_001" = Some AuthorizationStatus.pending
  /\ ~ queueValidated Samples.failed.
Proof.
  assert (Hin : "auth_threshold_001" ∈ settlementQueue Samples.failed)
    by (vm_compute; apply list_elem_of_here).
  assert (Hst : statusOf Samples.failed "auth_threshold_001"
                = Some AuthorizationStatus.pending) by (vm_compute; reflexivity).
  split; [|split; [exact Hin|split; [exact Hst|]]].
  - apply failed_reachable.
  - intros Hinv. specialize (Hinv _ Hin). rewrite Hst in Hinv. discriminate.
Qed.

End QueueInvariant.

(** ** The dispute invariant *)

Section DisputeInvariant.
Import FacilitatorService Reach.

Lemma NoDup_snoc (queue : list string) (x : string) :
  NoDup queue -> x ∉ queue -> NoDup (queue ++ [x]).
Proof.
  intros Hnd Hnin. apply NoDup_app. split; [done|]. split; [|apply NoDup_singleton].
  intros y Hy Hy'. apply list_elem_of_singleton in Hy' as ->. done.
Qed.





End DisputeInvariant.

(** ** Settled authorizations and completed batches *)

Section SettlementInvariant.
Import FacilitatorService Reach.







(** The route that records a single settlement is not one of the core
    operations: it marks a verified authorization settled where no batch
    exists at all. *)
Lemma settle_route_without_batch :
  let s := snd (verifyAuthorization Samples.t0 Samples.auth1 (create Samples.thresholds)) in
  exists s',
    FacilitatorRoutes.settle "auth_threshold_001" "tx_abc" s = Some s'
    /\ statusOf s' "auth_threshold_001" = Some AuthorizationStatus.settled
    /\ settlementBatches s' = []
    /\ ~ settledInSomeBatch s'.
Proof.
  eexists. split; [vm_compute; reflexivity|].
  split; [vm_compute; reflexivity|]. split; [reflexivity|].
  intros Hinv. destruct (Hinv "auth_threshold_001"%string) as (i & b & Hb & _).
  - vm_compute. reflexivity.
  - by destruct i.
Qed.

End SettlementInvariant.

(** ** Batches *)

Section Batches.
Import FacilitatorService Reach.

(** The sum depends on the amounts only, taken in order. *)
Lemma sumAmounts_amounts auths :
  sumAmounts auths
  = List.fold_left (fun sum amount => JS.add sum (JS.parseFloat amount))
      (List.map PaymentAuthorization.amount auths) JS.zero.
Proof.
  unfold sumAmounts. generalize JS.zero. induction auths as [|a auths IH]; intros z; [done|].
  simpl. apply IH.
Qed.

(** Reading the members back through their references gives the objects
    the batch was made from. *)
Lemma omap_lookup_members (m : gmap string PaymentAuthorization.t)
    (members : list (string * PaymentAuthorization.t)) :
  (forall r a, (r, a) ∈ members -> m !! r = Some a) ->
  omap (fun r => m !! r) (List.map fst members) = List.map snd members.
Proof.
  induction members as [|[r a] members IH]; intros Hm; [done|].
  simpl. rewrite (Hm r a) by apply list_elem_of_here. simpl. f_equal.
  apply IH. intros r' a' Hin. apply Hm. by apply list_elem_of_further.
Qed.

(** [C9] (as amended) In a batch that [createSettlementBatch] returns, all
    member authorizations have the batch's agent and the batch's merchant;
    the currency of the batch is that of its first member, whatever the
    currencies of the others; and [totalAmount] is the binary64 sum of the
    members' parsed amounts, in queue order, printed with six decimals.  In
    particular members of amounts "0.6" and "0.5" give "1.100000". *)
Theorem createSettlementBatch_spec (now : Z) (agentAddress : string)
    (merchantAddress : option string) (s : State) (b : SettlementBatch.t) (s' : State) :
  createSettlementBatch now agentAddress merchantAddress s = (Some b, s') ->
  let members := omap (fun r => authorizations s' !! r) (SettlementBatch.authorizations b) in
  SettlementBatch.agentAddress b = agentAddress
  /\ List.length members = List.length (SettlementBatch.authorizations b)
  /\ (forall a, a ∈ members ->
        PaymentAuthorization.agentAddress a = SettlementBatch.agentAddress b
        /\ PaymentAuthorization.merchantAddress a = SettlementBatch.merchantAddress b)
  /\ (exists first rest,
        members = first :: rest
        /\ SettlementBatch.currency b = PaymentAuthorization.currency first)
  /\ SettlementBatch.totalAmount b = JS.toFixed (sumAmounts members) 6
  /\ (List.map PaymentAuthorization.amount members = ["0.6"; "0.5"]%string ->
      SettlementBatch.totalAmount b = "1.100000"%string)
  /\ SettlementBatch.status b = BatchStatus.pending
  /\ settlementBatches s' = settlementBatches s ++ [b].
Proof.
  intros Hc. cbv zeta.
  pose proof (createSettlementBatch_effect _ _ _ _ _ _ Hc)
    as (merchant & members & first & rest & Hm & Hcons & -> & ->).
  fields. cbn [SettlementBatch.authorizations SettlementBatch.agentAddress
               SettlementBatch.merchantAddress SettlementBatch.currency
               SettlementBatch.totalAmount SettlementBatch.status].
  assert (Hstored : forall r a, (r, a) ∈ members ->
            authorizations s !! r = Some a
            /\ PaymentAuthorization.agentAddress a = agentAddress
            /\ PaymentAuthorization.merchantAddress a = merchant).
  { intros r a Hin. rewrite Hm in Hin. apply elem_of_List_filter in Hin as [Hin Hmer].
    apply queuedAuthorizations_elem_of in Hin as (_ & Ha & Hag).
    apply bool_decide_eq_true in Hmer. simpl in Hmer. split; [done|]. split; congruence. }
  rewrite omap_lookup_members by (intros r a Hin; by apply Hstored).
  split; [done|]. split; [by rewrite !length_map|]. split; [|split; [|split; [|split]]].
  - intros a Hin. apply list_elem_of_fmap in Hin as ([r a'] & -> & Hin).
    by destruct (Hstored _ _ Hin) as (_ & ? & ?).
  - exists (snd first), (List.map snd rest). by rewrite Hcons.
  - done.
  - intros Hamounts. rewrite sumAmounts_amounts, Hamounts. vm_compute. reflexivity.
  - done.
Qed.

(** The batch of the test suite's two authorizations. *)
Lemma createSettlementBatch_spec_witness :
  let s := Samples.afterBoth in
  let b := Samples.batch in
  let s' := Samples.batched in
  let members := omap (fun r => authorizations s' !! r) (SettlementBatch.authorizations b) in
  createSettlementBatch (Samples.t0 + 4) Samples.agent None s = (Some b, s')
  /\ List.map PaymentAuthorization.amount members = ["0.6"; "0.5"]%string
  /\ SettlementBatch.totalAmount b = "1.100000"%string
  /\ SettlementBatch.agentAddress b = Samples.agent
  /\ (forall a, a ∈ members ->
        PaymentAuthorization.agentAddress a = SettlementBatch.agentAddress b
        /\ PaymentAuthorization.merchantAddress a = SettlementBatch.merchantAddress b).
Proof.
  cbv zeta.
  assert (Hc : createSettlementBatch (Samples.t0 + 4) Samples.agent None Samples.afterBoth
               = (Some Samples.batch, Samples.batched)) by (vm_compute; reflexivity).
  assert (Ha : List.map PaymentAuthorization.amount
                 (omap (fun r => authorizations Samples.batched !! r)
                    (SettlementBatch.authorizations Samples.batch))
               = ["0.6"; "0.5"]%string) by (vm_compute; reflexivity).
  destruct (createSettlementBatch_spec _ _ _ _ _ _ Hc)
    as (Hag & _ & Hmem & _ & _ & Htotal & _).
  split; [exact Hc|]. split; [exact Ha|]. split; [exact (Htotal Ha)|].
  split; [exact Hag|exact Hmem].
Defined.

(** [C9] (as stated, refuted) Members are gathered by agent and merchant
    only: a USDC and a SOL authorization of one agent and merchant go into
    one batch, whose currency is that of the first. *)
Lemma batch_members_share_currency_counterexample :
  exists b s' usdc sol,
    createSettlementBatch (Samples.t0 + 4) Samples.agent None Samples.twoCurrencies
    = (Some b, s')
    /\ SettlementBatch.authorizations b = ["auth_threshold_001"; "auth_sol_001"]%string
    /\ authorizations s' !! "auth_threshold_001"%string = Some usdc
    /\ authorizations s' !! "auth_sol_001"%string = Some sol
    /\ PaymentAuthorization.currency usdc = "USDC"%string
    /\ PaymentAuthorization.currency sol = "SOL"%string
    /\ PaymentAuthorization.currency usdc ≠ PaymentAuthorization.currency sol
    /\ SettlementBatch.currency b = "USDC"%string
    /\ SettlementBatch.totalAmount b = "1.100000"%string.
Proof.
  eexists _, _, _, _. split; [vm_compute; reflexivity|].
  split; [reflexivity|]. split; [vm_compute; reflexivity|]. split; [vm_compute; reflexivity|].
  repeat split. discriminate.
Qed.

End Batches.

(** ** Threshold checks *)

Section Thresholds.
Import FacilitatorService Reach.





Lemma pendingAuths_elem_of s agent merchant a :
  a ∈ SettlementService.pendingAuths s agent merchant
  <-> (exists r, authorizations s !! r = Some a)
      /\ PaymentAuthorization.agentAddress a = agent
      /\ PaymentAuthorization.merchantAddress a = merchant
      /\ PaymentAuthorization.status a = AuthorizationStatus.validated
      /\ PaymentAuthorization.id a ∈ settlementQueue s.
Proof.
  unfold SettlementService.pendingAuths, listPendingAuthorizations, allAuthorizations.
  rewrite !elem_of_List_filter, !andb_true_iff, !bool_decide_eq_true, list_elem_of_fmap.
  split.
  - intros [[([r a'] & -> & Hin) ((? & ?) & ?)] ?]. apply elem_of_map_to_list in Hin.
    simpl in *. eauto 10.
  - intros ([r Hr] & ? & ? & ? & ?). repeat split; try done.
    exists (r, a). split; [done|]. by apply elem_of_map_to_list.
Qed.

(** Where the queue invariant holds, the list the scheduler checks is the
    set [P] of the specification. *)
Lemma pendingAuths_P s agent merchant a :
  wellFormed s -> queueValidated s ->
  a ∈ SettlementService.pendingAuths s agent merchant
  <-> a ∈ ThresholdPolicy.P s agent merchant.
Proof.
  intros Hwf Hinv. rewrite pendingAuths_elem_of. unfold ThresholdPolicy.P.
  rewrite elem_of_List_filter, andb_true_iff, !bool_decide_eq_true, list_elem_of_omap.
  split.
  - intros ([r Hr] & Hag & Hmer & _ & Hq). split; [|done].
    exists r. split; [|done]. by rewrite <- (wf_keys s Hwf _ _ Hr).
  - intros [(r & Hq & Hr) [Hag Hmer]]. split; [eauto|]. split; [done|]. split; [done|].
    pose proof (Hinv r Hq) as Hst. unfold statusOf in Hst. rewrite Hr in Hst.
    injection Hst as Hst. split; [done|]. by rewrite (wf_keys s Hwf _ _ Hr).
Qed.




End Thresholds.
(** * Further properties: the sweep, the scheduler, the monitor and the handlers *)

Section SampleStates.
Import FacilitatorService Reach.

Lemma verified_reachable : reachable Samples.thresholds Samples.verified.
Proof. apply reachable_run. Qed.

End SampleStates.

(** ** The store of authorizations only changes statuses *)

Section StoreKept.
Import FacilitatorService Reach.

Lemma resolveDispute_authorizations now did resolution note s s' :
  resolveDispute now did resolution note s = Returned s' ->
  upToStatus (authorizations s) (authorizations s')
  /\ agentUsage s' = agentUsage s
  /\ settlementBatches s' = settlementBatches s
  /\ settlementThresholds s' = settlementThresholds s.
Proof.
  unfold resolveDispute. destruct (findDispute did s) as [[i d]|]; [|discriminate].
  fields. destruct (authorizations s !! DisputeRecord.authorizationId d) as [a|].
  - destruct resolution; intros [= <-]; fields; (split; [apply upToStatus_alter|done]).
  - intros [= <-]. fields. split; [apply upToStatus_refl|done].
Qed.

(** What a call does to the store: statuses change, or a fresh object comes in. *)
Lemma exec_authorizations now c s :
  upToStatus (authorizations s) (authorizations (exec now c s))
  \/ exists a, c = VerifyAuthorization a
               /\ authorizations s !! PaymentAuthorization.id a = None
               /\ fst (verifyAuthorization now a s) = VerifyResult.mk true None
               /\ authorizations (exec now c s)
                  = <[PaymentAuthorization.id a := a]> (authorizations s).
Proof.
  destruct c as [a|id|ag m|bid tx|bid err|params|did res note|]; simpl.
  - destruct (verifyAuthorization_effect now a s) as [->|(Hnone & Hv & Hst & _)].
    + left. apply upToStatus_refl.
    + right. exists a. done.
  - left. destruct (queueForSettlement_effect now id s) as [->|(_ & _ & -> & _)];
      [apply upToStatus_refl|apply upToStatus_alter].
  - left. destruct (createSettlementBatch now ag m s) as [[b|] s'] eqn:Hc; simpl.
    + apply createSettlementBatch_effect in Hc as (? & ? & ? & ? & _ & _ & _ & ->).
      apply upToStatus_refl.
    + apply createSettlementBatch_None in Hc as ->. apply upToStatus_refl.
  - left. destruct (completeSettlement now bid tx s) as [s'|] eqn:Hc; [|apply upToStatus_refl].
    apply completeSettlement_effect in Hc as (i & b & _ & -> & _). apply upToStatus_writeEach.
  - left. destruct (failSettlement bid err s) as [s'|] eqn:Hc; [|apply upToStatus_refl].
    apply failSettlement_effect in Hc as (i & b & _ & -> & _). apply upToStatus_writeEach.
  - left. destruct (createDispute now params s) as [[d s']|] eqn:Hc; [|apply upToStatus_refl].
    apply createDispute_effect in Hc as (_ & _ & _ & _ & -> & _). apply upToStatus_alter.
  - left. destruct (resolveDispute now did res note s) as [s'|] eqn:Hc; [|apply upToStatus_refl].
    by apply resolveDispute_authorizations in Hc as (? & _).
  - left. destruct (cleanupExpired_effect now s) as (_ & Hst & _).
    intros k. rewrite Hst. destruct (authorizations s !! k) as [a|]; simpl; [|done].
    destruct (isStale now (k, a)); [|done]. by rewrite setStatus_setStatus.
Qed.

Lemma exec_kept now c s k a :
  authorizations s !! k = Some a ->
  exists a', authorizations (exec now c s) !! k = Some a'
             /\ PaymentAuthorization.setStatus (PaymentAuthorization.status a) a' = a.
Proof.
  intros Ha. destruct (exec_authorizations now c s) as [Hup|(a0 & _ & Hnone & _ & ->)].
  - specialize (Hup k). rewrite Ha in Hup.
    destruct (authorizations (exec now c s) !! k) as [a'|]; [|discriminate].
    exists a'. split; [done|]. simpl in Hup. destruct a, a'. simpl in *. by simplify_eq.
  - exists a. rewrite lookup_insert_ne by congruence. split; [done|]. by destruct a.
Qed.

(** [X1] No sequence of calls removes an authorization from the store or
    rewrites anything in it but its status: an entry of the store is still
    there after any calls, with the id, the addresses, the tool, the amount,
    the currency, the two times, the signature, the nonce and the data hash
    it had. *)
Theorem stored_fields_kept (calls : list (Z * Call)) (s : State) (k : string)
    (a : PaymentAuthorization.t) :
  authorizations s !! k = Some a ->
  exists a', authorizations (run calls s) !! k = Some a'
             /\ PaymentAuthorization.setStatus (PaymentAuthorization.status a) a' = a.
Proof.
  revert s a. induction calls as [|[now c] calls IH]; intros s a Ha.
  - exists a. split; [done|]. by destruct a.
  - destruct (exec_kept now c s k a Ha) as (a1 & Ha1 & Heq).
    destruct (IH (exec now c s) a1 Ha1) as (a' & Ha' & Heq').
    exists a'. split; [exact Ha'|].
    transitivity (PaymentAuthorization.setStatus (PaymentAuthorization.status a) a1);
      [|exact Heq].
    rewrite <- Heq'. by rewrite setStatus_setStatus.
Qed.

Lemma stored_fields_kept_witness :
  let s := Samples.afterFirst in
  let a := PaymentAuthorization.setStatus AuthorizationStatus.validated Samples.auth1 in
  let calls :=
    [(Samples.t0 + 2, CreateSettlementBatch Samples.agent None);
     (Samples.t0 + 3, CompleteSettlement "batch_1730000000002_mockAgen" "tx_abc")] in
  authorizations s !! "auth_threshold_001" = Some a
  /\ exists a', authorizations (run calls s) !! "auth_threshold_001" = Some a'
                /\ PaymentAuthorization.setStatus (PaymentAuthorization.status a) a' = a.
Proof.
  cbv zeta.
  assert (H : authorizations Samples.afterFirst !! "auth_threshold_001"
              = Some (PaymentAuthorization.setStatus AuthorizationStatus.validated
                        Samples.auth1)) by (vm_compute; reflexivity).
  split; [exact H|].
  exact (stored_fields_kept _ _ _ _ H).
Defined.

End StoreKept.


(** ** Usage records follow the store *)

Section Usage.
Import FacilitatorService Reach.

Lemma exec_agentUsage now c s :
  (forall a, c = VerifyAuthorization a ->
             fst (verifyAuthorization now a s) ≠ VerifyResult.mk true None) ->
  agentUsage (exec now c s) = agentUsage s.
Proof.
  intros Hc. destruct c as [a|id|ag m|bid tx|bid err|params|did res note|]; simpl.
  - specialize (Hc a eq_refl).
    destruct (verifyAuthorization_effect now a s) as [->|(_ & Hv & _)]; [done|].
    by rewrite Hv in Hc.
  - unfold queueForSettlement. destruct (authorizations s !! id); [|done].
    destruct (decide _); [done|]. by destruct (decide _).
  - destruct (createSettlementBatch now ag m s) as [[b|] s'] eqn:Hb; simpl.
    + by apply createSettlementBatch_effect in Hb as (? & ? & ? & ? & _ & _ & _ & ->).
    + by apply createSettlementBatch_None in Hb as ->.
  - unfold completeSettlement. destruct (findBatch bid s) as [[i b]|]; [|done].
    by destruct (settleMembers_rest (SettlementBatch.authorizations b)
                   (setSettlementBatches
                      (<[i := SettlementBatch.mk (SettlementBatch.id b)
                                (SettlementBatch.agentAddress b) (SettlementBatch.merchantAddress b)
                                (SettlementBatch.authorizations b) (SettlementBatch.totalAmount b)
                                (SettlementBatch.currency b) BatchStatus.completed
                                (SettlementBatch.createdAt b) (Some now) (Some tx)
                                (SettlementBatch.error b)]> (settlementBatches s)) s))
      as (-> & _).
  - unfold failSettlement. destruct (findBatch bid s) as [[i b]|]; [|done].
    by rewrite resetMembers_state.
  - unfold createDispute.
    destruct (authorizations s !! DisputeParams.authorizationId params); [|done].
    by destruct (decide _).
  - destruct (resolveDispute now did res note s) as [s'|] eqn:Hr; [|done].
    by apply resolveDispute_authorizations in Hr as (_ & -> & _).
  - unfold cleanupExpired.
    by destruct (sweep_fold now (allAuthorizations s) 0 s) as (_ & _ & _ & -> & _).
Qed.







Lemma verifyAuthorization_stores now a s :
  fst (verifyAuthorization now a s) = VerifyResult.mk true None ->
  authorizations s !! PaymentAuthorization.id a = None
  /\ snd (verifyAuthorization now a s)
     = trackAgentUsage now a
         (setAuthorizations (<[PaymentAuthorization.id a := a]> (authorizations s)) s).
Proof.
  unfold verifyAuthorization.
  destruct (authorizations s !! PaymentAuthorization.id a); [discriminate|].
  destruct (PaymentAuthorization.expiresAt a <? now); [discriminate|].
  by destruct (negb (verifySignature a)).
Qed.



End Usage.

Section UsageTheorems.
Import FacilitatorService Reach.











End UsageTheorems.

(** ** From the client to the facilitator *)

Section RoundTrip.
Import FacilitatorService Reach.



(** [X5] The signed payload leaves out [toolName], [status] and [dataHash]:
    changing them in an authorization changes neither [verifySignature] nor
    the answer of [verifyAuthorization], and an accepted authorization is
    stored with the changed fields. *)
Theorem unsigned_fields_are_not_checked (now : Z) (a : PaymentAuthorization.t) (s : State)
    (toolName : string) (status : AuthorizationStatus.t) (dataHash : option string) :
  let a' :=
    PaymentAuthorization.mk (PaymentAuthorization.id a) (PaymentAuthorization.agentAddress a)
      (PaymentAuthorization.merchantAddress a) toolName (PaymentAuthorization.amount a)
      (PaymentAuthorization.currency a) (PaymentAuthorization.timestamp a)
      (PaymentAuthorization.expiresAt a) (PaymentAuthorization.signature a)
      (PaymentAuthorization.nonce a) status dataHash in
  verifySignature a' = verifySignature a
  /\ fst (verifyAuthorization now a' s) = fst (verifyAuthorization now a s)
  /\ (fst (verifyAuthorization now a s) = VerifyResult.mk true None ->
      getAuthorization (snd (verifyAuthorization now a' s)) (PaymentAuthorization.id a) = Some a').
Proof.
  cbv zeta.
  set (a' := PaymentAuthorization.mk _ _ _ toolName _ _ _ _ _ _ status dataHash).
  assert (Hsig : verifySignature a' = verifySignature a) by reflexivity.
  split; [exact Hsig|].
  unfold verifyAuthorization, getAuthorization. rewrite Hsig.
  change (PaymentAuthorization.id a') with (PaymentAuthorization.id a).
  change (PaymentAuthorization.expiresAt a') with (PaymentAuthorization.expiresAt a).
  destruct (authorizations s !! PaymentAuthorization.id a); [by split|].
  destruct (PaymentAuthorization.expiresAt a <? now); [by split|].
  destruct (verifySignature a); cbn [negb fst snd]; [|by split].
  split; [done|]. intros _.
  change (authorizations (trackAgentUsage now a' ?s0)) with (authorizations s0).
  fields. by rewrite lookup_insert_eq.
Qed.

End RoundTrip.

(** ** The sweep of expired authorizations *)

Section Expiry.
Import FacilitatorService Reach.

Lemma isStale_true now k a :
  isStale now (k, a) = true
  <-> PaymentAuthorization.expiresAt a < now
      /\ PaymentAuthorization.status a = AuthorizationStatus.pending.
Proof.
  unfold isStale. cbn [snd]. rewrite andb_true_iff, Z.ltb_lt, bool_decide_eq_true. done.
Qed.

Lemma sweep_none now l acc :
  (forall ra, ra ∈ l -> isStale now ra = false) -> List.fold_left (sweep now) l acc = acc.
Proof.
  revert acc. induction l as [|[r a] l IH]; intros [n s] Hl; [done|].
  change (List.fold_left (sweep now) ((r, a) :: l) (n, s))
    with (List.fold_left (sweep now) l (sweep now (n, s) (r, a))).
  rewrite sweep_step, (Hl (r, a)) by apply list_elem_of_here.
  apply IH. intros ra Hra. apply Hl. by apply list_elem_of_further.
Qed.

Lemma stale_ids s now :
  wellFormed s ->
  List.map (fun ra => PaymentAuthorization.id (snd ra))
    (List.filter (isStale now) (allAuthorizations s))
  = List.map fst (List.filter (isStale now) (allAuthorizations s)).
Proof.
  intros Hwf. apply List.map_ext_in. intros [k a] Hin. cbn [fst snd].
  apply list_elem_of_In, elem_of_List_filter in Hin as [Hin _].
  apply elem_of_map_to_list in Hin. by apply (wf_keys s Hwf).
Qed.

(** [X6] In a reachable state, [cleanupExpired] returns the number of stored
    authorizations that are pending and past their expiry.  It marks those
    expired and leaves every other stored authorization as it is, stores
    nothing new, takes one queue entry out for each that it marks, and
    leaves usage, batches and disputes alone.  Afterwards no stored
    authorization is pending and past its expiry. *)
Theorem cleanupExpired_spec (thresholds : SettlementThreshold.t) (now : Z) (s : State) :
  reachable thresholds s ->
  let cleaned := fst (cleanupExpired now s) in
  let s' := snd (cleanupExpired now s) in
  cleaned = Z.of_nat (List.length (List.filter (isStale now) (allAuthorizations s)))
  /\ (forall k a, getAuthorization s k = Some a ->
        getAuthorization s' k
        = Some (if isStale now (k, a)
                then PaymentAuthorization.setStatus AuthorizationStatus.expired a else a))
  /\ (forall k, getAuthorization s k = None -> getAuthorization s' k = None)
  /\ (forall k a, getAuthorization s' k = Some a -> isStale now (k, a) = false)
  /\ (forall k a, getAuthorization s k = Some a ->
        occurrences k (settlementQueue s')
        = if isStale now (k, a) then pred (occurrences k (settlementQueue s))
          else occurrences k (settlementQueue s))
  /\ agentUsage s' = agentUsage s
  /\ settlementBatches s' = settlementBatches s
  /\ disputes s' = disputes s.
Proof.
  intros Hs. cbv zeta. pose proof (reachableBy_wellFormed _ _ _ Hs) as Hwf.
  destruct (cleanupExpired_effect now s) as (Hn & Hst & Hq & Hb & Hd & _).
  unfold getAuthorization. split; [exact Hn|].
  assert (Hsome : forall k a, authorizations s !! k = Some a ->
            authorizations (snd (cleanupExpired now s)) !! k
            = Some (if isStale now (k, a)
                    then PaymentAuthorization.setStatus AuthorizationStatus.expired a else a)).
  { intros k a Ha. by rewrite Hst, Ha. }
  split; [exact Hsome|]. split; [|split; [|split]].
  - intros k Hk. by rewrite Hst, Hk.
  - intros k a'. rewrite Hst. destruct (authorizations s !! k) as [a|]; [|discriminate].
    simpl. destruct (isStale now (k, a)) eqn:E; intros [= <-]; [|done].
    unfold isStale. cbn [snd PaymentAuthorization.setStatus PaymentAuthorization.status].
    rewrite bool_decide_eq_false_2 by discriminate. apply andb_false_r.
  - intros k a Ha. rewrite Hq, stale_ids, occurrences_removeEach by done.
    pose proof (NoDup_fst_map_to_list (authorizations s)) as Hnd.
    assert (Hsub : NoDup (List.map fst (List.filter (isStale now) (allAuthorizations s)))).
    { clear -Hnd. unfold allAuthorizations.
      induction (map_to_list (authorizations s)) as [|x l IH]; [constructor|].
      cbn [List.filter]. change (x.1 :: l.*1) with (fst x :: List.map fst l) in Hnd.
      apply NoDup_cons in Hnd as [Hx Hnd]. destruct (isStale now x); [|by apply IH].
      cbn [List.map]. apply NoDup_cons. split; [|by apply IH].
      intros Hin. apply Hx. apply list_elem_of_fmap in Hin as (y & -> & Hy).
      apply elem_of_List_filter in Hy as [Hy _]. by apply list_elem_of_fmap_2. }
    destruct (isStale now (k, a)) eqn:E.
    + assert (Hin : k ∈ List.map fst (List.filter (isStale now) (allAuthorizations s))).
      { apply (list_elem_of_fmap_2 fst _ (k, a)). apply elem_of_List_filter.
        split; [|done]. by apply elem_of_map_to_list. }
      pose proof (occurrences_NoDup k _ Hsub).
      assert (occurrences k (List.map fst (List.filter (isStale now) (allAuthorizations s)))
              ≠ 0%nat) by (rewrite occurrences_zero; tauto).
      lia.
    + assert (Hnin : k ∉ List.map fst (List.filter (isStale now) (allAuthorizations s))).
      { intros Hin. apply list_elem_of_fmap in Hin as ([k' a'] & -> & Hin).
        apply elem_of_List_filter in Hin as [Hin Hst'].
        apply elem_of_map_to_list in Hin. cbn [fst] in *. congruence. }
      apply occurrences_zero in Hnin. lia.
  - unfold cleanupExpired.
    destruct (sweep_fold now (allAuthorizations s) 0 s) as (_ & _ & _ & -> & _). done.
Qed.

Lemma cleanupExpired_spec_witness :
  let now := Samples.t0 + 3600001 in
  let s := Samples.verified in
  let cleaned := fst (cleanupExpired now s) in
  let s' := snd (cleanupExpired now s) in
  reachable Samples.thresholds s
  /\ cleaned = Z.of_nat (List.length (List.filter (isStale now) (allAuthorizations s)))
  /\ (forall k a, getAuthorization s k = Some a ->
        getAuthorization s' k
        = Some (if isStale now (k, a)
                then PaymentAuthorization.setStatus AuthorizationStatus.expired a else a))
  /\ (forall k, getAuthorization s k = None -> getAuthorization s' k = None)
  /\ (forall k a, getAuthorization s' k = Some a -> isStale now (k, a) = false)
  /\ (forall k a, getAuthorization s k = Some a ->
        occurrences k (settlementQueue s')
        = if isStale now (k, a) then pred (occurrences k (settlementQueue s))
          else occurrences k (settlementQueue s))
  /\ agentUsage s' = agentUsage s
  /\ settlementBatches s' = settlementBatches s
  /\ disputes s' = disputes s.
Proof.
  cbv zeta. split; [exact verified_reachable|].
  exact (cleanupExpired_spec _ (Samples.t0 + 3600001) _ verified_reachable).
Defined.

(** [X7] A second [cleanupExpired], at the same clock reading or an earlier
    one, finds nothing left to do: it returns 0 and the state stays as the
    first one left it. *)
Theorem cleanupExpired_idempotent (now now' : Z) (s : State) :
  now' <= now ->
  cleanupExpired now' (snd (cleanupExpired now s)) = (0, snd (cleanupExpired now s)).
Proof.
  intros Hle. destruct (cleanupExpired_effect now s) as (_ & Hst & _).
  unfold cleanupExpired at 1. apply sweep_none. intros [k a'] Hin.
  apply elem_of_map_to_list in Hin. rewrite Hst in Hin.
  destruct (authorizations s !! k) as [a|]; [|discriminate]. simpl in Hin.
  destruct (isStale now (k, a)) eqn:E; injection Hin as <-.
  - unfold isStale. cbn [snd PaymentAuthorization.setStatus PaymentAuthorization.status].
    rewrite bool_decide_eq_false_2 by discriminate. apply andb_false_r.
  - apply not_true_is_false. rewrite isStale_true. intros [Hexp Hp].
    apply not_true_iff_false in E. apply E, isStale_true. split; [lia|done].
Qed.

Lemma cleanupExpired_idempotent_witness :
  let s' := snd (cleanupExpired (Samples.t0 + 3600001) Samples.verified) in
  Samples.t0 <= Samples.t0 + 3600001
  /\ cleanupExpired Samples.t0 s' = (0, s').
Proof.
  cbv zeta.
  assert (H : Samples.t0 <= Samples.t0 + 3600001) by (vm_compute; discriminate).
  split; [exact H|].
  exact (cleanupExpired_idempotent (Samples.t0 + 3600001) Samples.t0 Samples.verified H).
Defined.

(** [X8] An authorization that [queueForSettlement] has accepted is out of
    reach of [cleanupExpired]: however late the sweep runs, the authorization
    stays validated, unchanged and in the queue. *)
Theorem queued_survives_cleanup (thresholds : SettlementThreshold.t) (s : State)
    (now now' : Z) (id : string) (r : QueueResult.t) (s1 : State) :
  reachable thresholds s ->
  queueForSettlement now id s = (r, s1) ->
  QueueResult.success r = true ->
  let s2 := snd (cleanupExpired now' s1) in
  statusOf s2 id = Some AuthorizationStatus.validated
  /\ getAuthorization s2 id = getAuthorization s1 id
  /\ id ∈ settlementQueue s2.
Proof.
  intros Hs Hq Hok. cbv zeta.
  assert (Hs1 : reachable thresholds s1).
  { change s1 with (snd (r, s1)). rewrite <- Hq. apply (reach_call _ _ s now (QueueForSettlement id)); done. }
  pose proof (reachableBy_wellFormed _ _ _ Hs1) as Hwf.
  destruct (queueForSettlement_succeeded _ _ _ _ _ Hq Hok) as ([a Ha] & _ & Hst & Hqueue & _).
  assert (Ha1 : authorizations s1 !! id
                = Some (PaymentAuthorization.setStatus AuthorizationStatus.validated a)).
  { by rewrite Hst, lookup_alter_eq, Ha. }
  assert (Hfresh : isStale now' (id, PaymentAuthorization.setStatus AuthorizationStatus.validated a)
                   = false).
  { unfold isStale. cbn [snd PaymentAuthorization.setStatus PaymentAuthorization.status].
    rewrite bool_decide_eq_false_2 by discriminate. apply andb_false_r. }
  destruct (cleanupExpired_effect now' s1) as (_ & Hst2 & Hq2 & _).
  unfold statusOf, getAuthorization. rewrite Hst2, Ha1. simpl. rewrite Hfresh.
  split; [done|]. split; [done|]. rewrite Hq2, stale_ids by done.
  apply removeEach_elem_of_other.
  - intros Hin. apply list_elem_of_fmap in Hin as ([k' a'] & -> & Hin).
    apply elem_of_List_filter in Hin as [Hin Hst'].
    apply elem_of_map_to_list in Hin. cbn [fst] in *. congruence.
  - rewrite Hqueue, elem_of_app, list_elem_of_singleton. by right.
Qed.

Lemma queued_survives_cleanup_witness :
  let q := queueForSettlement (Samples.t0 + 1) "auth_threshold_001" Samples.verified in
  let s2 := snd (cleanupExpired (Samples.t0 + 7200000) (snd q)) in
  reachable Samples.thresholds Samples.verified
  /\ q = (fst q, snd q)
  /\ QueueResult.success (fst q) = true
  /\ statusOf s2 "auth_threshold_001" = Some AuthorizationStatus.validated
  /\ getAuthorization s2 "auth_threshold_001" = getAuthorization (snd q) "auth_threshold_001"
  /\ "auth_threshold_001" ∈ settlementQueue s2.
Proof.
  cbv zeta.
  assert (H1 : queueForSettlement (Samples.t0 + 1) "auth_threshold_001" Samples.verified
               = (fst (queueForSettlement (Samples.t0 + 1) "auth_threshold_001"
                         Samples.verified),
                  snd (queueForSettlement (Samples.t0 + 1) "auth_threshold_001"
                         Samples.verified))) by apply surjective_pairing.
  assert (H2 : QueueResult.success
                 (fst (queueForSettlement (Samples.t0 + 1) "auth_threshold_001"
                         Samples.verified)) = true) by (vm_compute; reflexivity).
  split; [exact verified_reachable|]. split; [exact H1|]. split; [exact H2|].
  exact (queued_survives_cleanup _ _ _ (Samples.t0 + 7200000) _ _ _ verified_reachable H1 H2).
Defined.

End Expiry.

(** ** Batches depend on the queue and on the signed fields only *)

Section BatchContent.
Import FacilitatorService Reach.

Lemma sameUpToStatus_fields x y :
  sameUpToStatus x y ->
  fst x = fst y
  /\ PaymentAuthorization.agentAddress (snd x) = PaymentAuthorization.agentAddress (snd y)
  /\ PaymentAuthorization.merchantAddress (snd x) = PaymentAuthorization.merchantAddress (snd y)
  /\ PaymentAuthorization.amount (snd x) = PaymentAuthorization.amount (snd y)
  /\ PaymentAuthorization.currency (snd x) = PaymentAuthorization.currency (snd y).
Proof.
  intros [Hr Ha]. split; [done|]. destruct x as [r [? ? ? ? ? ? ? ? ? ? ? ?]],
    y as [r' [? ? ? ? ? ? ? ? ? ? ? ?]]. simpl in *. by simplify_eq.
Qed.

Lemma Forall2_List_filter {A} (R : A -> A -> Prop) (f : A -> bool) (l l' : list A) :
  (forall x y, R x y -> f x = f y) ->
  Forall2 R l l' -> Forall2 R (List.filter f l) (List.filter f l').
Proof.
  intros Hf. induction 1 as [|x y l l' Hxy Hl IH]; [constructor|].
  cbn [List.filter]. rewrite <- (Hf x y Hxy). destruct (f x); [by constructor|done].
Qed.

Lemma fold_left_Forall2 {A B} (R : A -> A -> Prop) (f : B -> A -> B) (l l' : list A) (b : B) :
  (forall acc x y, R x y -> f acc x = f acc y) ->
  Forall2 R l l' -> List.fold_left f l b = List.fold_left f l' b.
Proof.
  intros Hf Hl. revert b. induction Hl as [|x y l l' Hxy Hl IH]; intros b; [done|].
  cbn [List.fold_left]. rewrite (Hf b x y Hxy). apply IH.
Qed.

Lemma fold_left_List_map {A B C} (f : C -> B -> C) (g : A -> B) (l : list A) (c : C) :
  List.fold_left f (List.map g l) c = List.fold_left (fun acc x => f acc (g x)) l c.
Proof. revert c. induction l as [|x l IH]; intros c; [done|]. cbn. apply IH. Qed.

Lemma queuedAuthorizations_upToStatus s s' agentAddress :
  settlementQueue s' = settlementQueue s ->
  upToStatus (authorizations s) (authorizations s') ->
  Forall2 sameUpToStatus (queuedAuthorizations s agentAddress)
    (queuedAuthorizations s' agentAddress).
Proof.
  intros Hq Hup. unfold queuedAuthorizations. rewrite Hq. apply Forall2_List_filter.
  - intros x y Hxy. apply sameUpToStatus_fields in Hxy as (_ & -> & _). done.
  - clear Hq. induction (settlementQueue s) as [|id queue IH]; [constructor|].
    cbn [omap list_omap]. specialize (Hup id).
    destruct (authorizations s' !! id) as [a'|], (authorizations s !! id) as [a|];
      try discriminate; cbn [fmap option_fmap option_map]; [|exact IH].
    constructor; [|exact IH].
    split; [done|]. cbn [snd]. simpl in Hup. congruence.
Qed.

(** The batch [createSettlementBatch] builds is read off the agent's queued
    objects without a look at their [status]. *)
Lemma createSettlementBatch_upToStatus now agentAddress merchantAddress s s' :
  settlementQueue s' = settlementQueue s ->
  upToStatus (authorizations s) (authorizations s') ->
  fst (createSettlementBatch now agentAddress merchantAddress s')
  = fst (createSettlementBatch now agentAddress merchantAddress s).
Proof.
  intros Hq Hup.
  pose proof (queuedAuthorizations_upToStatus s s' agentAddress Hq Hup) as Hrel.
  unfold createSettlementBatch.
  destruct Hrel as [|x y q q' Hxy Hrel]; [done|].
  assert (Hall : Forall2 sameUpToStatus (x :: q) (y :: q')) by (by constructor).
  assert (Hm : mostQueuedMerchant (y :: q') merchantAddress
               = mostQueuedMerchant (x :: q) merchantAddress).
  { unfold mostQueuedMerchant. f_equal. f_equal. symmetry.
    apply (fold_left_Forall2 sameUpToStatus); [|exact Hall].
    intros acc u v Huv. apply sameUpToStatus_fields in Huv as (_ & _ & -> & _). done. }
  rewrite Hm.
  set (chosen := if notGiven merchantAddress
                 then mostQueuedMerchant (x :: q) merchantAddress else merchantAddress).
  assert (Hf : Forall2 sameUpToStatus
                 (List.filter
                    (fun ra => bool_decide (Some (PaymentAuthorization.merchantAddress (snd ra))
                                            = chosen)) (x :: q))
                 (List.filter
                    (fun ra => bool_decide (Some (PaymentAuthorization.merchantAddress (snd ra))
                                            = chosen)) (y :: q'))).
  { apply Forall2_List_filter; [|exact Hall].
    intros u v Huv. apply sameUpToStatus_fields in Huv as (_ & _ & -> & _). done. }
  destruct Hf as [|[r1 a1] [r2 a2] l l' H1 Hl]; [done|].
  destruct chosen as [merchant|]; [|done].
  assert (Hall' : Forall2 sameUpToStatus ((r1, a1) :: l) ((r2, a2) :: l')) by (by constructor).
  cbn [fst]. f_equal.
  pose proof (sameUpToStatus_fields _ _ H1) as (Hr & _ & _ & _ & Hcur). cbn [fst snd] in *.
  f_equal.
  - symmetry. clear -Hall'. induction Hall' as [|u v l1 l2 Huv _ IH]; [done|].
    cbn [List.map]. rewrite IH. by destruct Huv as [-> _].
  - f_equal. unfold sumAmounts. rewrite !fold_left_List_map. symmetry.
    apply (fold_left_Forall2 sameUpToStatus); [|exact Hall'].
    intros acc u v Huv. apply sameUpToStatus_fields in Huv as (_ & _ & _ & -> & _). done.
  - done.
Qed.

End BatchContent.

(** ** Failed settlements *)

Section Failure.
Import FacilitatorService Reach.

Lemma createSettlementBatch_clock now now' agentAddress merchantAddress s :
  fst (createSettlementBatch now' agentAddress merchantAddress s)
  = (fun b =>
       SettlementBatch.mk (batchId now' agentAddress) (SettlementBatch.agentAddress b)
         (SettlementBatch.merchantAddress b) (SettlementBatch.authorizations b)
         (SettlementBatch.totalAmount b) (SettlementBatch.currency b)
         (SettlementBatch.status b) now' (SettlementBatch.settledAt b)
         (SettlementBatch.transactionSignature b) (SettlementBatch.error b))
    <$> fst (createSettlementBatch now agentAddress merchantAddress s).
Proof.
  unfold createSettlementBatch.
  destruct (queuedAuthorizations s agentAddress) as [|ra0 queued]; [done|].
  destruct (List.filter _ (ra0 :: queued)) as [|[r1 a1] rest]; [done|].
  by destruct (if notGiven merchantAddress then _ else _).
Qed.

Lemma createSettlementBatch_state now agentAddress merchantAddress s :
  snd (createSettlementBatch now agentAddress merchantAddress s)
  = match fst (createSettlementBatch now agentAddress merchantAddress s) with
    | Some b => setSettlementBatches (settlementBatches s ++ [b]) s
    | None => s
    end.
Proof.
  unfold createSettlementBatch.
  destruct (queuedAuthorizations s agentAddress) as [|ra0 queued]; [done|].
  destruct (List.filter _ (ra0 :: queued)) as [|[r1 a1] rest]; [done|].
  by destruct (if notGiven merchantAddress then _ else _).
Qed.

(** [X9] In a reachable state, [failSettlement] throws "Settlement batch not
    found" on an id that no batch carries.  Otherwise it marks the batch it
    locates failed and records the error, keeping the batch's id, members,
    total, [settledAt] and transaction signature; it sets every member back
    to pending; it changes no other batch and no other authorization, and
    leaves the queue, the disputes and the usage as they are. *)
Theorem failSettlement_spec (thresholds : SettlementThreshold.t) (s : State)
    (bid error : string) :
  reachable thresholds s ->
  (findBatch bid s = None -> failSettlement bid error s = Thrown "Settlement batch not found")
  /\ (forall i b,
        findBatch bid s = Some (i, b) ->
        exists s',
          failSettlement bid error s = Returned s'
          /\ (exists b', settlementBatches s' !! i = Some b'
                /\ SettlementBatch.status b' = BatchStatus.failed
                /\ SettlementBatch.error b' = Some error
                /\ SettlementBatch.id b' = bid
                /\ SettlementBatch.authorizations b' = SettlementBatch.authorizations b
                /\ SettlementBatch.totalAmount b' = SettlementBatch.totalAmount b
                /\ SettlementBatch.settledAt b' = SettlementBatch.settledAt b
                /\ SettlementBatch.transactionSignature b'
                   = SettlementBatch.transactionSignature b)
          /\ (forall j, j ≠ i -> settlementBatches s' !! j = settlementBatches s !! j)
          /\ (forall r, r ∈ SettlementBatch.authorizations b ->
                        statusOf s' r = Some AuthorizationStatus.pending)
          /\ (forall r, r ∉ SettlementBatch.authorizations b ->
                        getAuthorization s' r = getAuthorization s r)
          /\ settlementQueue s' = settlementQueue s
          /\ disputes s' = disputes s
          /\ agentUsage s' = agentUsage s).
Proof.
  intros Hs. pose proof (reachableBy_wellFormed _ _ _ Hs) as Hwf. split.
  - unfold failSettlement. by intros ->.
  - intros i b Hfind. destruct (failSettlement bid error s) as [s'|msg] eqn:Hf.
    2: { unfold failSettlement in Hf. by rewrite Hfind in Hf. }
    exists s'. split; [done|].
    pose proof (exec_agentUsage 0 (FailSettlement bid error) s) as Hu.
    simpl in Hu. rewrite Hf in Hu.
    apply failSettlement_effect in Hf as (i' & b0 & Hfind' & Hst & Hb & Hd & _ & Hq).
    rewrite Hfind in Hfind'. injection Hfind' as <- <-.
    apply findBatch_Some in Hfind as (Hlook & Hid & _).
    split; [|split; [|split; [|split; [|split; [done|split; [done|]]]]]].
    + eexists. rewrite Hb. split.
      * apply list_lookup_insert_eq. by apply lookup_lt_Some in Hlook.
      * done.
    + intros j Hj. rewrite Hb. by apply list_lookup_insert_ne.
    + intros r Hr. eapply statusOf_writeEach; [exact Hst|exact Hr|].
      eapply (wf_batches s Hwf b r); [|done]. apply list_elem_of_lookup. eauto.
    + intros r Hr. unfold getAuthorization. by rewrite Hst, writeEach_lookup, decide_False.
    + apply Hu. intros a [=].
Qed.

Lemma failSettlement_spec_witness :
  let s := Samples.batched in
  let bid := "batch_1730000000004_mockAgen" in
  let error := "RPC timeout" in
  reachable Samples.thresholds s
  /\ (findBatch bid s = None -> failSettlement bid error s = Thrown "Settlement batch not found")
  /\ (forall i b,
        findBatch bid s = Some (i, b) ->
        exists s',
          failSettlement bid error s = Returned s'
          /\ (exists b', settlementBatches s' !! i = Some b'
                /\ SettlementBatch.status b' = BatchStatus.failed
                /\ SettlementBatch.error b' = Some error
                /\ SettlementBatch.id b' = bid
                /\ SettlementBatch.authorizations b' = SettlementBatch.authorizations b
                /\ SettlementBatch.totalAmount b' = SettlementBatch.totalAmount b
                /\ SettlementBatch.settledAt b' = SettlementBatch.settledAt b
                /\ SettlementBatch.transactionSignature b'
                   = SettlementBatch.transactionSignature b)
          /\ (forall j, j ≠ i -> settlementBatches s' !! j = settlementBatches s !! j)
          /\ (forall r, r ∈ SettlementBatch.authorizations b ->
                        statusOf s' r = Some AuthorizationStatus.pending)
          /\ (forall r, r ∉ SettlementBatch.authorizations b ->
                        getAuthorization s' r = getAuthorization s r)
          /\ settlementQueue s' = settlementQueue s
          /\ disputes s' = disputes s
          /\ agentUsage s' = agentUsage s).
Proof.
  cbv zeta. split; [exact batched_reachable|].
  exact (failSettlement_spec _ _ "batch_1730000000004_mockAgen" "RPC timeout" batched_reachable).
Defined.

(** [X10] A failed settlement can be tried again without queueing anew: after
    [createSettlementBatch] has returned a batch and [failSettlement] has
    succeeded, the next [createSettlementBatch] with the same arguments
    appends a pending batch with the same members, total, merchant and
    currency, under the id of its own clock reading. *)
Theorem failed_batch_is_rebuilt (now1 now2 : Z) (agentAddress : string)
    (merchantAddress : option string) (bid error : string)
    (s0 : State) (b : SettlementBatch.t) (s1 s2 : State) :
  createSettlementBatch now1 agentAddress merchantAddress s0 = (Some b, s1) ->
  failSettlement bid error s1 = Returned s2 ->
  exists b',
    createSettlementBatch now2 agentAddress merchantAddress s2
    = (Some b', setSettlementBatches (settlementBatches s2 ++ [b']) s2)
    /\ SettlementBatch.authorizations b' = SettlementBatch.authorizations b
    /\ SettlementBatch.totalAmount b' = SettlementBatch.totalAmount b
    /\ SettlementBatch.merchantAddress b' = SettlementBatch.merchantAddress b
    /\ SettlementBatch.currency b' = SettlementBatch.currency b
    /\ SettlementBatch.status b' = BatchStatus.pending
    /\ SettlementBatch.id b' = batchId now2 agentAddress.
Proof.
  intros Hc Hf.
  pose proof (createSettlementBatch_effect _ _ _ _ _ _ Hc) as (? & ? & ? & ? & _ & _ & Hb & Hs1).
  apply failSettlement_effect in Hf as (i & b0 & _ & Hst & _ & _ & _ & Hq).
  assert (Hsame : fst (createSettlementBatch now2 agentAddress merchantAddress s2)
                  = fst (createSettlementBatch now2 agentAddress merchantAddress s0)).
  { apply createSettlementBatch_upToStatus.
    - rewrite Hq, Hs1. done.
    - rewrite Hst, Hs1. apply upToStatus_writeEach. }
  rewrite (createSettlementBatch_clock now1 now2 agentAddress merchantAddress s0), Hc in Hsame.
  cbn [fst fmap option_fmap option_map] in Hsame.
  eexists. split.
  - rewrite (surjective_pairing (createSettlementBatch now2 agentAddress merchantAddress s2)).
    rewrite createSettlementBatch_state, Hsame. reflexivity.
  - rewrite Hb. done.
Qed.

Lemma failed_batch_is_rebuilt_witness :
  let bid := "batch_1730000000004_mockAgen" in
  let error := "Grid context not available for settlement" in
  createSettlementBatch (Samples.t0 + 4) Samples.agent None Samples.afterBoth
  = (Some Samples.batch, Samples.batched)
  /\ failSettlement bid error Samples.batched = Returned Samples.failed
  /\ exists b',
       createSettlementBatch (Samples.t0 + 6) Samples.agent None Samples.failed
       = (Some b', setSettlementBatches (settlementBatches Samples.failed ++ [b']) Samples.failed)
       /\ SettlementBatch.authorizations b' = SettlementBatch.authorizations Samples.batch
       /\ SettlementBatch.totalAmount b' = SettlementBatch.totalAmount Samples.batch
       /\ SettlementBatch.merchantAddress b' = SettlementBatch.merchantAddress Samples.batch
       /\ SettlementBatch.currency b' = SettlementBatch.currency Samples.batch
       /\ SettlementBatch.status b' = BatchStatus.pending
       /\ SettlementBatch.id b' = batchId (Samples.t0 + 6) Samples.agent.
Proof.
  cbv zeta.
  assert (H1 : createSettlementBatch (Samples.t0 + 4) Samples.agent None Samples.afterBoth
               = (Some Samples.batch, Samples.batched)) by (vm_compute; reflexivity).
  assert (H2 : failSettlement "batch_1730000000004_mockAgen"
                 "Grid context not available for settlement" Samples.batched
               = Returned Samples.failed) by (vm_compute; reflexivity).
  split; [exact H1|]. split; [exact H2|].
  exact (failed_batch_is_rebuilt _ (Samples.t0 + 6) _ _ _ _ _ _ _ _ H1 H2).
Defined.

(** [X11] The /settle handler marks the authorization settled and leaves the
    queue and the batches as they are.  A queued id therefore stays queued:
    [createSettlementBatch] builds the same batch as before the request, and
    [queueForSettlement] refuses the id, with "Already queued" if it was in
    the queue and with "Already settled" otherwise. *)
Theorem settle_route_keeps_queue (authorizationId transactionSignature : string)
    (s s' : State) :
  FacilitatorRoutes.settle authorizationId transactionSignature s = Some s' ->
  statusOf s' authorizationId = Some AuthorizationStatus.settled
  /\ settlementQueue s' = settlementQueue s
  /\ settlementBatches s' = settlementBatches s
  /\ (forall now agentAddress merchantAddress,
        fst (createSettlementBatch now agentAddress merchantAddress s')
        = fst (createSettlementBatch now agentAddress merchantAddress s))
  /\ (forall now,
        queueForSettlement now authorizationId s'
        = (QueueResult.mk false false
             (Some (if decide (authorizationId ∈ settlementQueue s)
                    then "Already queued" else "Already settled")), s')).
Proof.
  unfold FacilitatorRoutes.settle, getAuthorization.
  destruct (_ || _); [discriminate|].
  destruct (authorizations s !! authorizationId) as [a|] eqn:Ha; [|discriminate].
  intros [= <-]. split; [by apply statusOf_writeStatus_eq|]. split; [done|]. split; [done|].
  split.
  - intros now agentAddress merchantAddress. apply createSettlementBatch_upToStatus; [done|].
    apply upToStatus_alter.
  - intros now. unfold queueForSettlement. rewrite writeStatus_lookup_eq, Ha.
    cbn [fmap option_fmap option_map]. fields.
    destruct (decide (authorizationId ∈ settlementQueue s)); [done|].
    by rewrite decide_True.
Qed.

Lemma settle_route_keeps_queue_witness :
  let id := "auth_threshold_001" in
  let s := Samples.afterFirst in
  let s' := writeStatus id AuthorizationStatus.settled s in
  FacilitatorRoutes.settle id "tx_abc" s = Some s'
  /\ statusOf s' id = Some AuthorizationStatus.settled
  /\ settlementQueue s' = settlementQueue s
  /\ settlementBatches s' = settlementBatches s
  /\ (forall now agentAddress merchantAddress,
        fst (createSettlementBatch now agentAddress merchantAddress s')
        = fst (createSettlementBatch now agentAddress merchantAddress s))
  /\ (forall now,
        queueForSettlement now id s'
        = (QueueResult.mk false false
             (Some (if decide (id ∈ settlementQueue s)
                    then "Already queued" else "Already settled")), s')).
Proof.
  cbv zeta.
  assert (H : FacilitatorRoutes.settle "auth_threshold_001" "tx_abc" Samples.afterFirst
              = Some (writeStatus "auth_threshold_001" AuthorizationStatus.settled
                        Samples.afterFirst)) by (vm_compute; reflexivity).
  split; [exact H|].
  exact (settle_route_keeps_queue _ _ _ _ H).
Defined.

End Failure.

(** ** Opening a dispute *)

Section DisputeCreation.
Import FacilitatorService Reach.


End DisputeCreation.

(** ** Merchants with queued authorizations *)

Section Merchants.
Import FacilitatorService Reach.

Lemma countMerchant_keys m counts :
  List.map fst (countMerchant m counts)
  = if decide (m ∈ List.map fst counts) then List.map fst counts
    else List.map fst counts ++ [m].
Proof.
  induction counts as [|[k c] counts IH]; [done|]. cbn [countMerchant List.map fst].
  destruct (decide (k = m)) as [->|Hne].
  - by rewrite decide_True by apply list_elem_of_here.
  - cbn [List.map fst]. rewrite IH. destruct (decide (m ∈ List.map fst counts)) as [Hin|Hnin].
    + by rewrite decide_True by (by apply list_elem_of_further).
    + rewrite decide_False; [done|]. rewrite not_elem_of_cons. split; congruence.
Qed.

Lemma countMerchant_countOf k m counts :
  countOf k (countMerchant m counts)
  = countOf k counts + (if decide (m = k) then 1 else 0).
Proof.
  induction counts as [|[k' c] counts IH].
  - cbn [countMerchant countOf]. destruct (decide (m = k)); lia.
  - cbn [countMerchant countOf]. destruct (decide (k' = m)) as [->|Hne].
    + cbn [countOf]. destruct (decide (m = k)); lia.
    + cbn [countOf]. destruct (decide (k' = k)) as [->|Hne'].
      * rewrite decide_False by congruence. lia.
      * apply IH.
Qed.

Lemma tally_keys (ms : list string) counts :
  List.map fst (List.fold_left (fun counts m => countMerchant m counts) ms counts)
  = firsts (List.map fst counts) ms.
Proof.
  revert counts. induction ms as [|m ms IH]; intros counts; [done|].
  cbn [List.fold_left]. rewrite IH, countMerchant_keys. done.
Qed.

Lemma tally_countOf k (ms : list string) counts :
  countOf k (List.fold_left (fun counts m => countMerchant m counts) ms counts)
  = countOf k counts + Z.of_nat (occurrences k ms).
Proof.
  revert counts. induction ms as [|m ms IH]; intros counts.
  - unfold occurrences. simpl. lia.
  - cbn [List.fold_left]. rewrite IH, countMerchant_countOf, occurrences_cons.
    destruct (decide (m = k)); lia.
Qed.

Lemma firsts_elem_of x seen l : x ∈ firsts seen l <-> x ∈ seen \/ x ∈ l.
Proof.
  revert seen. induction l as [|m l IH]; intros seen.
  - unfold firsts. simpl. rewrite elem_of_nil. tauto.
  - change (firsts seen (m :: l))
      with (firsts (if decide (m ∈ seen) then seen else seen ++ [m]) l).
    rewrite IH, elem_of_cons. destruct (decide (m ∈ seen)) as [Hin|Hnin].
    + split; [tauto|]. intros [?|[->|?]]; tauto.
    + rewrite elem_of_app, list_elem_of_singleton. tauto.
Qed.

Lemma firsts_NoDup seen l : NoDup seen -> NoDup (firsts seen l).
Proof.
  revert seen. induction l as [|m l IH]; intros seen Hnd; [done|].
  change (firsts seen (m :: l))
    with (firsts (if decide (m ∈ seen) then seen else seen ++ [m]) l).
  apply IH. destruct (decide (m ∈ seen)); [done|]. by apply NoDup_snoc.
Qed.

Lemma countOf_lookup counts i m c :
  NoDup (List.map fst counts) -> counts !! i = Some (m, c) -> countOf m counts = c.
Proof.
  revert i. induction counts as [|[k c'] counts IH]; intros i Hnd Hi; [done|].
  cbn [List.map fst] in Hnd. apply NoDup_cons in Hnd as [Hk Hnd]. cbn [countOf].
  destruct i as [|i]; simpl in Hi.
  - injection Hi as -> ->. by rewrite decide_True.
  - rewrite decide_False; [by eapply IH|]. intros ->. apply Hk.
    apply (list_elem_of_fmap_2 fst _ (m, c)). apply list_elem_of_lookup. eauto.
Qed.

(** The scan for the largest count: the first entry with the largest count
    wins, when some count is above the starting value. *)
Lemma scan_max (counts : list (string * Z)) (best : Z) (merchant : option string) :
  let result :=
    List.fold_left (fun acc mc => if fst acc <? snd mc then (snd mc, Some (fst mc)) else acc)
      counts (best, merchant) in
  (result = (best, merchant) /\ forall mc, mc ∈ counts -> snd mc <= best)
  \/ exists i m c,
       counts !! i = Some (m, c) /\ result = (c, Some m) /\ best < c
       /\ (forall j mc, counts !! j = Some mc -> snd mc <= c)
       /\ (forall j mc, (j < i)%nat -> counts !! j = Some mc -> snd mc < c).
Proof.
  cbv zeta. revert best merchant. induction counts as [|[m0 c0] counts IH]; intros best merchant.
  - left. split; [done|]. intros mc Hmc. by apply not_elem_of_nil in Hmc.
  - cbn [List.fold_left fst snd]. destruct (Z.ltb_spec best c0) as [Hlt|Hge].
    + destruct (IH c0 (Some m0)) as [[-> Hall]|(i & m & c & Hi & -> & Hc & Hle & Hlt')].
      * right. exists 0%nat, m0, c0. split; [done|]. split; [done|]. split; [done|]. split.
        -- intros [|j] mc Hj; simpl in Hj; [by injection Hj as <-|].
           apply Hall. apply list_elem_of_lookup. eauto.
        -- intros j mc Hj. lia.
      * right. exists (S i), m, c. split; [done|]. split; [done|]. split; [lia|]. split.
        -- intros [|j] mc Hj; simpl in Hj; [injection Hj as <-; simpl; lia|]. by eapply Hle.
        -- intros [|j] mc Hj Hlook; simpl in Hlook; [injection Hlook as <-; simpl; lia|].
           eapply Hlt'; [|done]. lia.
    + destruct (IH best merchant) as [[-> Hall]|(i & m & c & Hi & -> & Hc & Hle & Hlt')].
      * left. split; [done|]. intros mc. rewrite elem_of_cons. intros [->|Hmc]; [done|].
        by apply Hall.
      * right. exists (S i), m, c. split; [done|]. split; [done|]. split; [done|]. split.
        -- intros [|j] mc Hj; simpl in Hj; [injection Hj as <-; simpl; lia|]. by eapply Hle.
        -- intros [|j] mc Hj Hlook; simpl in Hlook; [injection Hlook as <-; simpl; lia|].
           eapply Hlt'; [|done]. lia.
Qed.

Lemma getPendingMerchants_firsts s agentAddress :
  getPendingMerchants s agentAddress
  = firsts [] (List.map (fun ra => PaymentAuthorization.merchantAddress (snd ra))
                 (queuedAuthorizations s agentAddress)).
Proof. unfold getPendingMerchants, firsts. by rewrite fold_left_List_map. Qed.

Lemma queuedFor_length s agentAddress merchant :
  List.length (queuedFor s agentAddress merchant)
  = occurrences merchant
      (List.map (fun ra => PaymentAuthorization.merchantAddress (snd ra))
         (queuedAuthorizations s agentAddress)).
Proof.
  unfold queuedFor, occurrences.
  induction (queuedAuthorizations s agentAddress) as [|ra l IH]; [done|].
  cbn [List.map List.filter]. destruct (bool_decide _); simpl; by rewrite IH.
Qed.

End Merchants.

Section MerchantTheorems.
Import FacilitatorService Reach.

Lemma mostQueuedMerchant_spec (auths : list (AuthorizationRef * PaymentAuthorization.t))
    (init : option string) :
  auths ≠ [] ->
  let ms := List.map (fun ra => PaymentAuthorization.merchantAddress (snd ra)) auths in
  exists i m,
    mostQueuedMerchant auths init = Some m
    /\ firsts [] ms !! i = Some m
    /\ (0 < occurrences m ms)%nat
    /\ (forall j m', firsts [] ms !! j = Some m' ->
                     (occurrences m' ms <= occurrences m ms)%nat)
    /\ (forall j m', (j < i)%nat -> firsts [] ms !! j = Some m' ->
                     (occurrences m' ms < occurrences m ms)%nat).
Proof.
  intros Hne. cbv zeta.
  set (ms := List.map (fun ra => PaymentAuthorization.merchantAddress (snd ra)) auths).
  set (counts := List.fold_left (fun counts m => countMerchant m counts) ms []).
  assert (Hm : mostQueuedMerchant auths init
               = snd (List.fold_left
                        (fun acc mc => if fst acc <? snd mc then (snd mc, Some (fst mc)) else acc)
                        counts (0, init))).
  { unfold mostQueuedMerchant, counts, ms. by rewrite fold_left_List_map. }
  assert (Hkeys : List.map fst counts = firsts [] ms) by apply tally_keys.
  assert (Hnd : NoDup (List.map fst counts)).
  { rewrite Hkeys. apply firsts_NoDup. constructor. }
  assert (Hval : forall j m c, counts !! j = Some (m, c) -> c = Z.of_nat (occurrences m ms)).
  { intros j m c Hj. rewrite <- (countOf_lookup counts j m c Hnd Hj).
    unfold counts. rewrite tally_countOf. simpl. lia. }
  assert (Hat : forall j m, firsts [] ms !! j = Some m ->
                            counts !! j = Some (m, Z.of_nat (occurrences m ms))).
  { intros j m Hj. rewrite <- Hkeys in Hj.
    change (List.map fst counts) with (fst <$> counts) in Hj.
    rewrite list_lookup_fmap in Hj.
    destruct (counts !! j) as [[m' c]|] eqn:E; [|discriminate]. simpl in Hj.
    injection Hj as ->. by rewrite (Hval j m c E). }
  destruct (scan_max counts 0 init) as [[_ Hall]|(i & m & c & Hi & Hres & Hc & Hle & Hlt)].
  - exfalso. destruct auths as [|ra auths]; [done|].
    set (m0 := PaymentAuthorization.merchantAddress (snd ra)).
    assert (Hin : m0 ∈ firsts [] ms).
    { apply firsts_elem_of. right. apply list_elem_of_here. }
    apply list_elem_of_lookup in Hin as [j Hj]. apply Hat in Hj.
    assert (Hocc : occurrences m0 ms ≠ 0%nat).
    { rewrite occurrences_zero. intros Hnin. apply Hnin. apply list_elem_of_here. }
    specialize (Hall (m0, Z.of_nat (occurrences m0 ms))). simpl in Hall.
    assert ((m0, Z.of_nat (occurrences m0 ms)) ∈ counts) by (apply list_elem_of_lookup; eauto).
    specialize (Hall H). lia.
  - exists i, m. rewrite Hm, Hres. pose proof (Hval i m c Hi) as Hcm.
    split; [done|]. split.
    { rewrite <- Hkeys. change (List.map fst counts) with (fst <$> counts).
      by rewrite list_lookup_fmap, Hi. }
    split; [lia|]. split.
    + intros j m' Hj. apply Hat in Hj. specialize (Hle j _ Hj). simpl in Hle. lia.
    + intros j m' Hji Hj. apply Hat in Hj. specialize (Hlt j _ Hji Hj). simpl in Hlt. lia.
Qed.

Lemma queuedFor_filter s agentAddress merchant :
  List.filter
    (fun ra => bool_decide (Some (PaymentAuthorization.merchantAddress (snd ra))
                            = Some merchant))
    (queuedAuthorizations s agentAddress)
  = queuedFor s agentAddress merchant.
Proof.
  unfold queuedFor. apply List.filter_ext. intros ra. apply bool_decide_ext.
  split; [by intros [= ->]|by intros ->].
Qed.

Lemma createSettlementBatch_for now agentAddress merchantAddress merchant s :
  (if notGiven merchantAddress
   then mostQueuedMerchant (queuedAuthorizations s agentAddress) merchantAddress
   else merchantAddress) = Some merchant ->
  queuedFor s agentAddress merchant ≠ [] ->
  exists b, fst (createSettlementBatch now agentAddress merchantAddress s) = Some b
            /\ SettlementBatch.merchantAddress b = merchant
            /\ SettlementBatch.authorizations b
               = List.map fst (queuedFor s agentAddress merchant).
Proof.
  intros Hm Hne. unfold createSettlementBatch.
  destruct (queuedAuthorizations s agentAddress) as [|ra0 queued] eqn:Hq.
  { exfalso. apply Hne. unfold queuedFor. by rewrite Hq. }
  rewrite Hm. rewrite <- Hq, queuedFor_filter.
  destruct (queuedFor s agentAddress merchant) as [|[r1 a1] rest]; [done|].
  eexists. split; [reflexivity|]. done.
Qed.

(** [X13] Called without a merchant (none, or the empty string) for an agent
    with queued authorizations, [createSettlementBatch] settles the merchant
    with the most queued authorizations, and among equals the one that comes
    first in the queue; the members of the batch are that merchant's queued
    authorizations. *)
Theorem default_merchant_is_most_queued (now : Z) (agentAddress : string)
    (merchantAddress : option string) (s : State) :
  notGiven merchantAddress = true ->
  queuedAuthorizations s agentAddress ≠ [] ->
  let merchants := getPendingMerchants s agentAddress in
  let count := fun m => List.length (queuedFor s agentAddress m) in
  exists b i,
    fst (createSettlementBatch now agentAddress merchantAddress s) = Some b
    /\ merchants !! i = Some (SettlementBatch.merchantAddress b)
    /\ SettlementBatch.authorizations b
       = List.map fst (queuedFor s agentAddress (SettlementBatch.merchantAddress b))
    /\ (forall j m, merchants !! j = Some m ->
                    (count m <= count (SettlementBatch.merchantAddress b))%nat)
    /\ (forall j m, (j < i)%nat -> merchants !! j = Some m ->
                    (count m < count (SettlementBatch.merchantAddress b))%nat).
Proof.
  intros Hnot Hne. cbv zeta.
  destruct (mostQueuedMerchant_spec (queuedAuthorizations s agentAddress) merchantAddress Hne)
    as (i & m & Hm & Hi & Hpos & Hle & Hlt).
  rewrite <- getPendingMerchants_firsts in Hi, Hle, Hlt.
  destruct (createSettlementBatch_for now agentAddress merchantAddress m s)
    as (b & Hb & Hbm & Hba).
  { by rewrite Hnot. }
  { intros Hnil. rewrite <- queuedFor_length, Hnil in Hpos. simpl in Hpos. lia. }
  exists b, i. rewrite Hbm. split; [done|]. split; [done|]. split; [done|]. split.
  - intros j m' Hj. rewrite !queuedFor_length. by eapply Hle.
  - intros j m' Hji Hj. rewrite !queuedFor_length. by eapply Hlt.
Qed.

Lemma default_merchant_is_most_queued_witness :
  let s := Samples.twoMerchants in
  let merchants := getPendingMerchants s Samples.agent in
  let count := fun m => List.length (queuedFor s Samples.agent m) in
  notGiven None = true
  /\ queuedAuthorizations s Samples.agent ≠ []
  /\ exists b i,
       fst (createSettlementBatch (Samples.t0 + 4) Samples.agent None s) = Some b
       /\ merchants !! i = Some (SettlementBatch.merchantAddress b)
       /\ SettlementBatch.authorizations b
          = List.map fst (queuedFor s Samples.agent (SettlementBatch.merchantAddress b))
       /\ (forall j m, merchants !! j = Some m ->
                       (count m <= count (SettlementBatch.merchantAddress b))%nat)
       /\ (forall j m, (j < i)%nat -> merchants !! j = Some m ->
                       (count m < count (SettlementBatch.merchantAddress b))%nat).
Proof.
  cbv zeta.
  assert (H1 : notGiven None = true) by reflexivity.
  assert (H2 : queuedAuthorizations Samples.twoMerchants Samples.agent ≠ [])
    by (vm_compute; discriminate).
  split; [exact H1|]. split; [exact H2|].
  exact (default_merchant_is_most_queued (Samples.t0 + 4) _ _ _ H1 H2).
Defined.

(** [X14] [getPendingMerchants] lists, each once, the merchants for which the
    agent has queued authorizations.  It is empty exactly when the agent has
    nothing queued, and [createSettlementBatch] for a named merchant returns
    a batch exactly for the merchants it lists. *)
Theorem getPendingMerchants_spec (s : State) (agentAddress : string) :
  NoDup (getPendingMerchants s agentAddress)
  /\ (forall m, m ∈ getPendingMerchants s agentAddress <-> queuedFor s agentAddress m ≠ [])
  /\ (getPendingMerchants s agentAddress = [] <-> queuedAuthorizations s agentAddress = [])
  /\ (forall now m, m ≠ "" ->
        is_Some (fst (createSettlementBatch now agentAddress (Some m) s))
        <-> m ∈ getPendingMerchants s agentAddress).
Proof.
  assert (Hmem : forall m, m ∈ getPendingMerchants s agentAddress
                           <-> queuedFor s agentAddress m ≠ []).
  { intros m. rewrite getPendingMerchants_firsts, firsts_elem_of, elem_of_nil.
    rewrite <- length_zero_iff_nil, queuedFor_length, occurrences_zero.
    split; [intros [[]|Hin]; tauto|].
    intros Hnn. right. by destruct (decide (m ∈ List.map
      (fun ra => PaymentAuthorization.merchantAddress (snd ra))
      (queuedAuthorizations s agentAddress))). }
  split; [rewrite getPendingMerchants_firsts; apply firsts_NoDup; constructor|].
  split; [exact Hmem|]. split.
  - split.
    + intros Hnil. destruct (queuedAuthorizations s agentAddress) as [|ra l] eqn:Hq; [done|].
      exfalso. assert (Hin : PaymentAuthorization.merchantAddress (snd ra)
                             ∈ getPendingMerchants s agentAddress).
      { rewrite getPendingMerchants_firsts, firsts_elem_of, Hq. right. apply list_elem_of_here. }
      rewrite Hnil in Hin. by apply not_elem_of_nil in Hin.
    + intros Hq. rewrite getPendingMerchants_firsts, Hq. done.
  - intros now m Hm. rewrite Hmem. split.
    + intros [b Hb] Hnil. revert Hb. unfold createSettlementBatch.
      destruct (queuedAuthorizations s agentAddress) as [|ra0 queued] eqn:Hq; [done|].
      unfold notGiven. rewrite bool_decide_eq_false_2 by done.
      rewrite <- Hq, queuedFor_filter, Hnil. done.
    + intros Hne. destruct (createSettlementBatch_for now agentAddress (Some m) m s)
        as (b & Hb & _); [|done|eauto].
      unfold notGiven. by rewrite bool_decide_eq_false_2.
Qed.

End MerchantTheorems.

(** ** The registries of batches and disputes *)

Section Registries.
Import FacilitatorService Reach.

Lemma batchKept_refl b : batchKept b b.
Proof. by repeat split. Qed.

Lemma batchKept_trans b1 b2 b3 : batchKept b1 b2 -> batchKept b2 b3 -> batchKept b1 b3.
Proof. unfold batchKept. intuition congruence. Qed.

Lemma disputeKept_refl d : disputeKept d d.
Proof. by repeat split. Qed.

Lemma disputeKept_trans d1 d2 d3 : disputeKept d1 d2 -> disputeKept d2 d3 -> disputeKept d1 d3.
Proof. unfold disputeKept. intuition congruence. Qed.

(** What a call does to the registry of batches: nothing, one pending batch
    more at the end, or new status fields for the first batch of the id
    given. *)
Lemma exec_batches now c s :
  settlementBatches (exec now c s) = settlementBatches s
  \/ (exists b, SettlementBatch.status b = BatchStatus.pending
                /\ settlementBatches (exec now c s) = settlementBatches s ++ [b])
  \/ exists bid i b b',
       findBatch bid s = Some (i, b) /\ batchKept b b'
       /\ (SettlementBatch.status b' = BatchStatus.completed
           \/ SettlementBatch.status b' = BatchStatus.failed)
       /\ settlementBatches (exec now c s) = <[i := b']> (settlementBatches s).
Proof.
  destruct c as [a|id|ag m|bid tx|bid err|params|did res note|]; simpl.
  - left. by destruct (verifyAuthorization_effect now a s) as [->|(_ & _ & _ & _ & -> & _)].
  - left. by destruct (queueForSettlement_effect now id s) as [->|(_ & _ & _ & _ & -> & _)].
  - destruct (createSettlementBatch now ag m s) as [[b|] s'] eqn:Hc; simpl.
    + apply createSettlementBatch_effect in Hc as (? & ? & ? & ? & _ & _ & -> & ->).
      right; left. eexists. split; [|reflexivity]. done.
    + left. by apply createSettlementBatch_None in Hc as ->.
  - destruct (completeSettlement now bid tx s) as [s'|] eqn:Hc; [|by left].
    apply completeSettlement_effect in Hc as (i & b & Hfind & _ & -> & _).
    right; right.
    match goal with |- context [<[i := ?x]> (settlementBatches s)] => exists bid, i, b, x end.
    split; [done|]. split; [by repeat split|]. split; [by left|done].
  - destruct (failSettlement bid err s) as [s'|] eqn:Hc; [|by left].
    apply failSettlement_effect in Hc as (i & b & Hfind & _ & -> & _).
    right; right.
    match goal with |- context [<[i := ?x]> (settlementBatches s)] => exists bid, i, b, x end.
    split; [done|]. split; [by repeat split|]. split; [by right|done].
  - left. destruct (createDispute now params s) as [[d s']|] eqn:Hc; [|done].
    by apply createDispute_effect in Hc as (_ & _ & _ & _ & _ & _ & _ & -> & _).
  - left. destruct (resolveDispute now did res note s) as [s'|] eqn:Hc; [|done].
    by apply resolveDispute_authorizations in Hc as (_ & _ & -> & _).
  - left. by destruct (cleanupExpired_effect now s) as (_ & _ & _ & -> & _).
Qed.

Lemma resolveDispute_disputes now did resolution note s s' :
  resolveDispute now did resolution note s = Returned s' ->
  exists i d,
    findDispute did s = Some (i, d)
    /\ disputes s'
       = <[i := DisputeRecord.mk (DisputeRecord.id d) (DisputeRecord.authorizationId d)
                  (DisputeRecord.agentAddress d) (DisputeRecord.merchantAddress d)
                  (DisputeRecord.reason d) DisputeStatus.resolved
                  (DisputeRecord.createdAt d) (Some now) note
                  (DisputeRecord.evidence d)]> (disputes s).
Proof.
  unfold resolveDispute. destruct (findDispute did s) as [[i d]|]; [|discriminate].
  intros Hr. exists i, d. split; [done|]. fields.
  destruct (authorizations s !! DisputeRecord.authorizationId d);
    [destruct resolution|]; by injection Hr as <-.
Qed.

(** The same for the registry of disputes. *)
Lemma exec_disputes now c s :
  disputes (exec now c s) = disputes s
  \/ (exists d, DisputeRecord.status d = DisputeStatus.pending
                /\ disputes (exec now c s) = disputes s ++ [d])
  \/ exists did i d d',
       findDispute did s = Some (i, d) /\ disputeKept d d'
       /\ DisputeRecord.status d' = DisputeStatus.resolved
       /\ disputes (exec now c s) = <[i := d']> (disputes s).
Proof.
  destruct c as [a|id|ag m|bid tx|bid err|params|did res note|]; simpl.
  - left. by destruct (verifyAuthorization_effect now a s) as [->|(_ & _ & _ & _ & _ & -> & _)].
  - left. by destruct (queueForSettlement_effect now id s) as [->|(_ & _ & _ & _ & _ & -> & _)].
  - left. rewrite createSettlementBatch_state.
    by destruct (fst (createSettlementBatch now ag m s)).
  - left. destruct (completeSettlement now bid tx s) as [s'|] eqn:Hc; [|done].
    by apply completeSettlement_effect in Hc as (i & b & _ & _ & _ & -> & _).
  - left. destruct (failSettlement bid err s) as [s'|] eqn:Hc; [|done].
    by apply failSettlement_effect in Hc as (i & b & _ & _ & _ & -> & _).
  - destruct (createDispute now params s) as [[d s']|] eqn:Hc; [|by left].
    apply createDispute_effect in Hc as (_ & _ & Hst & _ & _ & _ & -> & _).
    right; left. by exists d.
  - destruct (resolveDispute now did res note s) as [s'|] eqn:Hc; [|by left].
    apply resolveDispute_disputes in Hc as (i & d & Hfind & ->).
    right; right.
    match goal with |- context [<[i := ?x]> (disputes s)] => exists did, i, d, x end.
    split; [done|]. by repeat split.
  - left. by destruct (cleanupExpired_effect now s) as (_ & _ & _ & _ & -> & _).
Qed.

Lemma exec_batch_kept now c s i b :
  settlementBatches s !! i = Some b ->
  exists b', settlementBatches (exec now c s) !! i = Some b' /\ batchKept b b'.
Proof.
  intros Hi. destruct (exec_batches now c s)
    as [->|[(b0 & _ & ->)|(bid & k & bk & b' & Hfind & Hkept & _ & ->)]].
  - exists b. split; [done|apply batchKept_refl].
  - exists b. split; [|apply batchKept_refl]. apply lookup_app_l_Some, Hi.
  - apply findBatch_Some in Hfind as (Hk & _). destruct (decide (k = i)) as [->|Hne].
    + exists b'. rewrite list_lookup_insert_eq by (by apply lookup_lt_Some in Hi).
      split; [done|]. congruence.
    + exists b. rewrite list_lookup_insert_ne by done. split; [done|apply batchKept_refl].
Qed.

Lemma exec_dispute_kept now c s i d :
  disputes s !! i = Some d ->
  exists d', disputes (exec now c s) !! i = Some d' /\ disputeKept d d'.
Proof.
  intros Hi. destruct (exec_disputes now c s)
    as [->|[(d0 & _ & ->)|(did & k & dk & d' & Hfind & Hkept & _ & ->)]].
  - exists d. split; [done|apply disputeKept_refl].
  - exists d. split; [|apply disputeKept_refl]. apply lookup_app_l_Some, Hi.
  - apply findDispute_Some in Hfind as (Hk & _). destruct (decide (k = i)) as [->|Hne].
    + exists d'. rewrite list_lookup_insert_eq by (by apply lookup_lt_Some in Hi).
      split; [done|]. congruence.
    + exists d. rewrite list_lookup_insert_ne by done. split; [done|apply disputeKept_refl].
Qed.

(** [X15] Batches and disputes are never removed, moved or rewritten: after
    any calls, every position of [settlementBatches] still holds a batch with
    the same id, agent, merchant, members, total, currency and creation time,
    and every position of [disputes] a dispute with the same id,
    authorization, agent, merchant, reason, creation time and evidence. *)
Theorem registries_only_grow (calls : list (Z * Call)) (s : State) :
  (forall i b, settlementBatches s !! i = Some b ->
     exists b', settlementBatches (run calls s) !! i = Some b' /\ batchKept b b')
  /\ (forall i d, disputes s !! i = Some d ->
        exists d', disputes (run calls s) !! i = Some d' /\ disputeKept d d').
Proof.
  revert s. induction calls as [|[now c] calls IH]; intros s.
  - split; [intros i b Hi; exists b|intros i d Hi; exists d];
      (split; [done|]); [apply batchKept_refl|apply disputeKept_refl].
  - destruct (IH (exec now c s)) as [IHb IHd]. split.
    + intros i b Hi. destruct (exec_batch_kept now c s i b Hi) as (b1 & H1 & Hk1).
      destruct (IHb i b1 H1) as (b' & H' & Hk'). exists b'. split; [done|].
      by eapply batchKept_trans.
    + intros i d Hi. destruct (exec_dispute_kept now c s i d Hi) as (d1 & H1 & Hk1).
      destruct (IHd i d1 H1) as (d' & H' & Hk'). exists d'. split; [done|].
      by eapply disputeKept_trans.
Qed.

(** A record behind an earlier one of the same id is out of reach of the
    calls that look records up by id. *)
Lemma exec_shadowed_batch now c s i j b1 b2 :
  settlementBatches s !! i = Some b1 -> settlementBatches s !! j = Some b2 -> (i < j)%nat ->
  SettlementBatch.id b1 = SettlementBatch.id b2 ->
  settlementBatches (exec now c s) !! j = Some b2.
Proof.
  intros Hi Hj Hij Hid. destruct (exec_batches now c s)
    as [->|[(b0 & _ & ->)|(bid & k & bk & b' & Hfind & _ & _ & ->)]];
    [done|by apply lookup_app_l_Some|].
  apply findBatch_Some in Hfind as (Hk & Hbid & Hfirst).
  rewrite list_lookup_insert_ne; [done|]. intros ->.
  apply (Hfirst i b1 Hi Hij). congruence.
Qed.

Lemma exec_shadowed_dispute now c s i j d1 d2 :
  disputes s !! i = Some d1 -> disputes s !! j = Some d2 -> (i < j)%nat ->
  DisputeRecord.id d1 = DisputeRecord.id d2 ->
  disputes (exec now c s) !! j = Some d2.
Proof.
  intros Hi Hj Hij Hid. destruct (exec_disputes now c s)
    as [->|[(d0 & _ & ->)|(did & k & dk & d' & Hfind & _ & _ & ->)]];
    [done|by apply lookup_app_l_Some|].
  apply findDispute_Some in Hfind as (Hk & Hdid & Hfirst).
  rewrite list_lookup_insert_ne; [done|]. intros ->.
  apply (Hfirst i d1 Hi Hij). congruence.
Qed.

(** [X16] Batches and disputes are looked up by the first record that carries
    the id.  A record that sits behind an earlier one with the same id is
    therefore changed by no call: it stays as it is for good. *)
Theorem shadowed_records_never_change (calls : list (Z * Call)) (s : State) (i j : nat) :
  (i < j)%nat ->
  (forall b1 b2,
     settlementBatches s !! i = Some b1 -> settlementBatches s !! j = Some b2 ->
     SettlementBatch.id b1 = SettlementBatch.id b2 ->
     settlementBatches (run calls s) !! j = Some b2)
  /\ (forall d1 d2,
        disputes s !! i = Some d1 -> disputes s !! j = Some d2 ->
        DisputeRecord.id d1 = DisputeRecord.id d2 ->
        disputes (run calls s) !! j = Some d2).
Proof.
  intros Hij. revert s. induction calls as [|[now c] calls IH]; intros s; [done|].
  destruct (IH (exec now c s)) as [IHb IHd]. split.
  - intros b1 b2 Hi Hj Hid.
    destruct (exec_batch_kept now c s i b1 Hi) as (b1' & Hi' & Hid' & _).
    apply (IHb b1' b2); [done| |congruence].
    by apply (exec_shadowed_batch now c s i j b1 b2).
  - intros d1 d2 Hi Hj Hid.
    destruct (exec_dispute_kept now c s i d1 Hi) as (d1' & Hi' & Hid' & _).
    apply (IHd d1' d2); [done| |congruence].
    by apply (exec_shadowed_dispute now c s i j d1 d2).
Qed.

Lemma shadowed_records_never_change_witness :
  let s := Samples.disputedTwice in
  let calls :=
    [(Samples.t0 + 2,
      ResolveDispute "dispute_1730000000001_auth_threshold_001" Resolution.approved None)] in
  (0 < 1)%nat
  /\ disputes s !! 0%nat = Some Samples.dispute
  /\ disputes s !! 1%nat = Some Samples.dispute
  /\ disputes (run calls s) !! 1%nat = Some Samples.dispute.
Proof.
  cbv zeta.
  assert (H : (0 < 1)%nat) by lia.
  assert (H0 : disputes Samples.disputedTwice !! 0%nat = Some Samples.dispute)
    by (vm_compute; reflexivity).
  assert (H1 : disputes Samples.disputedTwice !! 1%nat = Some Samples.dispute)
    by (vm_compute; reflexivity).
  split; [exact H|]. split; [exact H0|]. split; [exact H1|].
  exact (proj2 (shadowed_records_never_change _ _ _ _ H) _ _ H0 H1 eq_refl).
Defined.

End Registries.

(** ** Counts of the scheduler *)

Section Statuses.
Import FacilitatorService Reach.

Lemma Forall_list_insert {A} (P : A -> Prop) (l : list A) (i : nat) (x : A) :
  Forall P l -> P x -> Forall P (<[i := x]> l).
Proof.
  intros Hl Hx. apply Forall_forall. intros y Hy.
  apply elem_of_list_insert_inv in Hy as [->|Hy]; [done|].
  by eapply Forall_forall in Hl.
Qed.

(** No call leaves a batch in the status processing, nor a dispute in a
    status other than pending and resolved. *)
Lemma reachable_statuses thresholds s :
  reachable thresholds s ->
  Forall (fun b => SettlementBatch.status b ≠ BatchStatus.processing) (settlementBatches s)
  /\ Forall (fun d => DisputeRecord.status d = DisputeStatus.pending
                      \/ DisputeRecord.status d = DisputeStatus.resolved) (disputes s).
Proof.
  induction 1 as [|s now c _ [IHb IHd] _]; [split; constructor|]. split.
  - destruct (exec_batches now c s)
      as [->|[(b & Hb & ->)|(bid & i & b & b' & _ & _ & Hb' & ->)]]; [done| |].
    + apply Forall_app. split; [done|]. constructor; [by rewrite Hb|constructor].
    + apply Forall_list_insert; [done|]. by destruct Hb' as [-> | ->].
  - destruct (exec_disputes now c s)
      as [->|[(d & Hd & ->)|(did & i & d & d' & _ & _ & Hd' & ->)]]; [done| |].
    + apply Forall_app. split; [done|]. constructor; [by left|constructor].
    + apply Forall_list_insert; [done|by right].
Qed.

Lemma countBatches_total (batches : list SettlementBatch.t) :
  Forall (fun b => SettlementBatch.status b ≠ BatchStatus.processing) batches ->
  Z.of_nat (List.length batches)
  = SettlementService.countBatches BatchStatus.completed batches
    + SettlementService.countBatches BatchStatus.failed batches
    + SettlementService.countBatches BatchStatus.pending batches.
Proof.
  unfold SettlementService.countBatches.
  induction 1 as [|b batches Hb _ IH]; [done|]. cbn [List.filter List.length].
  repeat case_bool_decide; cbn [List.length]; try lia; try congruence.
  by destruct (SettlementBatch.status b).
Qed.

(** [X17] In a reachable state the counts of [getStatistics] add up: total =
    completed + failed + pending, since no batch is ever in the status
    processing; none of the counts is negative. *)
Theorem statistics_add_up (thresholds : SettlementThreshold.t) (f : State)
    (svc : SettlementService.Service) :
  reachable thresholds f ->
  let stats := SettlementService.getStatistics svc f in
  SettlementService.Statistics.total stats
  = SettlementService.Statistics.completed stats
    + SettlementService.Statistics.failed stats
    + SettlementService.Statistics.pending stats
  /\ SettlementService.countBatches BatchStatus.processing (settlementBatches f) = 0
  /\ 0 <= SettlementService.Statistics.completed stats
  /\ 0 <= SettlementService.Statistics.failed stats
  /\ 0 <= SettlementService.Statistics.pending stats.
Proof.
  intros Hs. cbv zeta. destruct (reachable_statuses _ _ Hs) as [Hb _].
  unfold SettlementService.getStatistics, getSettlementBatches.
  cbn [SettlementService.Statistics.total SettlementService.Statistics.completed
       SettlementService.Statistics.failed SettlementService.Statistics.pending].
  split; [by apply countBatches_total|]. split.
  - unfold SettlementService.countBatches. clear Hs.
    induction Hb as [|b batches Hne _ IH]; [done|]. cbn [List.filter].
    by rewrite bool_decide_eq_false_2.
  - unfold SettlementService.countBatches. lia.
Qed.

Lemma statistics_add_up_witness :
  let stats := SettlementService.getStatistics Samples.scheduler Samples.failed in
  reachable Samples.thresholds Samples.failed
  /\ SettlementService.Statistics.total stats
     = SettlementService.Statistics.completed stats
       + SettlementService.Statistics.failed stats
       + SettlementService.Statistics.pending stats
  /\ SettlementService.countBatches BatchStatus.processing (settlementBatches Samples.failed) = 0
  /\ 0 <= SettlementService.Statistics.completed stats
  /\ 0 <= SettlementService.Statistics.failed stats
  /\ 0 <= SettlementService.Statistics.pending stats.
Proof.
  cbv zeta. split; [exact failed_reachable|].
  exact (statistics_add_up _ _ Samples.scheduler failed_reachable).
Defined.

End Statuses.

(** ** Counts of the monitor *)

Section DisputeCounts.
Import FacilitatorService Reach.

(** Where objects sit under their own id, looking one up by its [id] field
    finds the object stored under that key. *)
Lemma findAuthorization_lookup f id :
  wellFormed f -> MonitoringService.findAuthorization f id = authorizations f !! id.
Proof.
  intros Hwf. unfold MonitoringService.findAuthorization, allAuthorizations.
  destruct (list_find _ _) as [[i a]|] eqn:Hfind; simpl.
  - apply list_find_Some in Hfind as (Hi & Hid & _).
    assert (Hin : a ∈ List.map snd (map_to_list (authorizations f)))
      by (apply list_elem_of_lookup; eauto).
    apply list_elem_of_fmap in Hin as ([k a'] & -> & Hin). apply elem_of_map_to_list in Hin.
    simpl in *. by rewrite <- Hid, (wf_keys f Hwf _ _ Hin).
  - destruct (authorizations f !! id) as [a|] eqn:Ha; [|done]. exfalso.
    eapply list_find_None in Hfind. rewrite Forall_forall in Hfind.
    apply (Hfind a); [|by apply (wf_keys f Hwf)].
    apply (list_elem_of_fmap_2 snd _ (id, a)). by apply elem_of_map_to_list.
Qed.

Lemma disputes_split (disputes : list DisputeRecord.t) :
  Forall (fun d => DisputeRecord.status d = DisputeStatus.pending
                   \/ DisputeRecord.status d = DisputeStatus.resolved) disputes ->
  List.length disputes
  = (List.length (MonitoringService.disputesOf DisputeStatus.pending disputes)
     + List.length (MonitoringService.disputesOf DisputeStatus.resolved disputes))%nat.
Proof.
  unfold MonitoringService.disputesOf.
  induction 1 as [|d disputes Hd _ IH]; [done|]. cbn [List.filter List.length].
  destruct Hd as [-> | ->]; simpl; lia.
Qed.

Lemma List_filter_length {A} (f : A -> bool) (l : list A) :
  (List.length (List.filter f l) <= List.length l)%nat.
Proof. induction l as [|x l IH]; [done|]. simpl. destruct (f x); simpl; lia. Qed.

(** [X18] In a reachable state the counts of [getDisputeMetrics] add up: total
    = pending + resolved, and resolved = approved + rejected.  A resolved
    dispute counts as approved exactly when its authorization is disputed at
    the time of the count, whatever resolution was given. *)
Theorem dispute_counts_add_up (thresholds : SettlementThreshold.t) (f : State) :
  reachable thresholds f ->
  let m := MonitoringService.getDisputeMetrics f in
  MonitoringService.DisputeMetrics.totalDisputes m
  = MonitoringService.DisputeMetrics.pendingDisputes m
    + MonitoringService.DisputeMetrics.resolvedDisputes m
  /\ MonitoringService.DisputeMetrics.resolvedDisputes m
     = MonitoringService.DisputeMetrics.approvedDisputes m
       + MonitoringService.DisputeMetrics.rejectedDisputes m
  /\ 0 <= MonitoringService.DisputeMetrics.approvedDisputes m
  /\ 0 <= MonitoringService.DisputeMetrics.rejectedDisputes m
  /\ MonitoringService.DisputeMetrics.approvedDisputes m
     = Z.of_nat
         (List.length
            (List.filter
               (fun d => bool_decide (statusOf f (DisputeRecord.authorizationId d)
                                      = Some AuthorizationStatus.disputed))
               (MonitoringService.disputesOf DisputeStatus.resolved (disputes f)))).
Proof.
  intros Hs. cbv zeta. destruct (reachable_statuses _ _ Hs) as [_ Hd].
  pose proof (reachableBy_wellFormed _ _ _ Hs) as Hwf.
  unfold MonitoringService.getDisputeMetrics, getDisputes.
  cbn [MonitoringService.DisputeMetrics.totalDisputes
       MonitoringService.DisputeMetrics.pendingDisputes
       MonitoringService.DisputeMetrics.resolvedDisputes
       MonitoringService.DisputeMetrics.approvedDisputes
       MonitoringService.DisputeMetrics.rejectedDisputes].
  pose proof (List_filter_length (MonitoringService.countsAsApproved f)
                (MonitoringService.disputesOf DisputeStatus.resolved (disputes f))).
  split; [rewrite (disputes_split _ Hd); lia|]. split; [lia|]. split; [lia|]. split; [lia|].
  f_equal. f_equal. apply List.filter_ext. intros d.
  unfold MonitoringService.countsAsApproved, statusOf.
  rewrite findAuthorization_lookup by done.
  destruct (authorizations f !! DisputeRecord.authorizationId d) as [a|]; simpl.
  - apply bool_decide_ext. split; [by intros ->|by intros [= ->]].
  - first [done | by rewrite bool_decide_eq_false_2].
Qed.

Lemma dispute_counts_add_up_witness :
  let f := Samples.disputed in
  let m := MonitoringService.getDisputeMetrics f in
  reachable Samples.thresholds f
  /\ MonitoringService.DisputeMetrics.totalDisputes m
     = MonitoringService.DisputeMetrics.pendingDisputes m
       + MonitoringService.DisputeMetrics.resolvedDisputes m
  /\ MonitoringService.DisputeMetrics.resolvedDisputes m
     = MonitoringService.DisputeMetrics.approvedDisputes m
       + MonitoringService.DisputeMetrics.rejectedDisputes m
  /\ 0 <= MonitoringService.DisputeMetrics.approvedDisputes m
  /\ 0 <= MonitoringService.DisputeMetrics.rejectedDisputes m
  /\ MonitoringService.DisputeMetrics.approvedDisputes m
     = Z.of_nat
         (List.length
            (List.filter
               (fun d => bool_decide (statusOf f (DisputeRecord.authorizationId d)
                                      = Some AuthorizationStatus.disputed))
               (MonitoringService.disputesOf DisputeStatus.resolved (disputes f)))).
Proof.
  cbv zeta. split; [exact disputed_reachable|].
  exact (dispute_counts_add_up _ _ disputed_reachable).
Defined.

End DisputeCounts.

(** ** The history of snapshots *)

Section History.

Lemma takeSnapshot_drop {A} (x : A) (h : list A) :
  (List.length h <= MonitoringService.maxHistorySize)%nat ->
  MonitoringService.takeSnapshot x h
  = drop (List.length (h ++ [x]) - MonitoringService.maxHistorySize) (h ++ [x]).
Proof.
  intros Hlen. unfold MonitoringService.takeSnapshot.
  rewrite length_app. cbn [List.length].
  destruct (Nat.ltb_spec MonitoringService.maxHistorySize (List.length h + 1)) as [Hlt|Hge].
  - replace (List.length h + 1 - MonitoringService.maxHistorySize)%nat with 1%nat by lia.
    by destruct (h ++ [x]).
  - by replace (List.length h + 1 - MonitoringService.maxHistorySize)%nat with 0%nat by lia.
Qed.

Lemma snapshots_drop {A} (snapshots taken : list A) :
  List.fold_left (fun history snapshot => MonitoringService.takeSnapshot snapshot history)
    snapshots (drop (List.length taken - MonitoringService.maxHistorySize) taken)
  = drop (List.length (taken ++ snapshots) - MonitoringService.maxHistorySize)
      (taken ++ snapshots).
Proof.
  revert taken. induction snapshots as [|x snapshots IH]; intros taken.
  - by rewrite app_nil_r.
  - cbn [List.fold_left]. rewrite takeSnapshot_drop by (rewrite length_drop; lia).
    replace (taken ++ x :: snapshots) with ((taken ++ [x]) ++ snapshots)
      by (by rewrite <- app_assoc).
    rewrite <- IH. f_equal.
    rewrite <- drop_app_le by lia. rewrite drop_drop. f_equal.
    rewrite ?length_drop, ?length_app. cbn [List.length]. lia.
Qed.

(** [X19] The history that [takeSnapshot] keeps is made of the latest
    snapshots, at most 1000 of them, the oldest first. *)
Theorem history_keeps_the_latest {A : Type} (snapshots : list A) :
  let history :=
    List.fold_left (fun history snapshot => MonitoringService.takeSnapshot snapshot history)
      snapshots [] in
  MonitoringService.maxHistorySize = 1000%nat
  /\ history = drop (List.length snapshots - MonitoringService.maxHistorySize) snapshots
  /\ List.length history
     = Nat.min (List.length snapshots) MonitoringService.maxHistorySize.
Proof.
  cbv zeta. split; [reflexivity|].
  pose proof (snapshots_drop snapshots []) as H. rewrite drop_nil in H.
  change (@nil A ++ snapshots) with snapshots in H.
  rewrite H, length_drop. split; [done|lia].
Qed.

(** [X20] [getMetricsHistory] returns the whole history when no limit is
    given, and also for the limit 0; for a positive limit n the last n
    snapshots; and for a negative limit n all but the first |n|. *)
Theorem getMetricsHistory_spec {A : Type} (history : list A) :
  MonitoringService.getMetricsHistory None history = history
  /\ MonitoringService.getMetricsHistory (Some 0) history = history
  /\ (forall n, 0 < n ->
        MonitoringService.getMetricsHistory (Some n) history
        = drop (List.length history - Z.to_nat n) history)
  /\ (forall n, n < 0 ->
        MonitoringService.getMetricsHistory (Some n) history
        = drop (Z.to_nat (- n)) history).
Proof.
  split; [done|]. split; [done|]. split.
  - intros n Hn. unfold MonitoringService.getMetricsHistory, MonitoringService.slice.
    destruct (Z.eqb_spec n 0) as [|_]; [lia|]. cbn [negb andb].
    destruct (Z.ltb_spec n (Z.of_nat (List.length history))) as [Hlt|Hge].
    + destruct (Z.ltb_spec (- n) 0) as [_|]; [|lia]. f_equal. lia.
    + replace (List.length history - Z.to_nat n)%nat with 0%nat by lia. done.
  - intros n Hn. unfold MonitoringService.getMetricsHistory, MonitoringService.slice.
    destruct (Z.eqb_spec n 0) as [|_]; [lia|]. cbn [negb andb].
    destruct (Z.ltb_spec n (Z.of_nat (List.length history))) as [_|]; [|lia].
    destruct (Z.ltb_spec (- n) 0) as [|_]; [lia|].
    destruct (Z.le_gt_cases (- n) (Z.of_nat (List.length history))) as [Hle|Hgt].
    + by rewrite Z.min_l by lia.
    + rewrite Z.min_r by lia. rewrite Nat2Z.id, drop_all.
      symmetry. apply drop_ge. lia.
Qed.

End History.

(** ** The health report *)

Section Health.
Import FacilitatorService.

(** [X21] [getSystemHealth] never reports the status down: the status is
    healthy when there are no issues and degraded otherwise.  There are at
    most three issues; the backlog is reported exactly when the queue holds
    more than 1000 entries, and the scheduler exactly when automatic
    triggering is on and no interval is running. *)
Theorem health_is_never_down (startTime now lastCheck : Z)
    (svc : SettlementService.Service) (f : State) :
  let health := MonitoringService.getSystemHealth startTime now lastCheck svc f in
  MonitoringService.SystemHealth.status health ≠ MonitoringService.HealthStatus.down
  /\ (MonitoringService.SystemHealth.status health = MonitoringService.HealthStatus.healthy
      <-> MonitoringService.SystemHealth.issues health = [])
  /\ (List.length (MonitoringService.SystemHealth.issues health) <= 3)%nat
  /\ ("Large settlement queue backlog" ∈ MonitoringService.SystemHealth.issues health
      <-> (1000 < List.length (settlementQueue f))%nat)
  /\ ("Auto-settlement service not running" ∈ MonitoringService.SystemHealth.issues health
      <-> SettlementService.autoTrigger svc = true
          /\ SettlementService.intervalHandle svc = None).
Proof.
  cbv zeta. unfold MonitoringService.getSystemHealth.
  cbn [MonitoringService.SystemHealth.status MonitoringService.SystemHealth.issues].
  set (stats := SettlementService.getStatistics svc f).
  set (c1 := negb (SettlementService.Statistics.isRunning stats)
             && SettlementService.Statistics.autoTrigger stats).
  set (c2 := JS.gt _ _).
  set (c3 := 1000 <? Z.of_nat (List.length (settlementQueue f))).
  assert (H1 : c1 = true <-> SettlementService.autoTrigger svc = true
                             /\ SettlementService.intervalHandle svc = None).
  { unfold c1, stats, SettlementService.getStatistics.
    cbn [SettlementService.Statistics.isRunning SettlementService.Statistics.autoTrigger].
    rewrite andb_true_iff, negb_true_iff, bool_decide_eq_false, <- eq_None_not_Some.
    tauto. }
  assert (H3 : c3 = true <-> (1000 < List.length (settlementQueue f))%nat).
  { unfold c3. rewrite Z.ltb_lt. lia. }
  clearbody c1 c2 c3. unfold MonitoringService.report.
  destruct c1, c2, c3; cbn [fst snd app List.length Nat.ltb Nat.leb];
    (split; [discriminate|]); (split; [split; intros; discriminate || done|]);
    (split; [lia|]); rewrite <- H1, <- H3; split;
    rewrite ?elem_of_cons, ?elem_of_nil; intuition discriminate.
Qed.

End Health.

(** ** Triggered settlements *)

Section Trigger.
Import FacilitatorService Reach.

Lemma setDelete_setAdd key keys :
  key ∉ keys -> SettlementService.setDelete key (SettlementService.setAdd key keys) = keys.
Proof.
  intros Hnin. unfold SettlementService.setAdd, SettlementService.setDelete.
  rewrite decide_False by done. rewrite List.filter_app. cbn [List.filter].
  rewrite bool_decide_eq_true_2 by done. cbn [negb]. rewrite app_nil_r.
  induction keys as [|k keys IH]; [done|]. apply not_elem_of_cons in Hnin as [Hne Hnin].
  cbn [List.filter]. rewrite bool_decide_eq_false_2 by congruence. cbn [negb].
  by rewrite IH.
Qed.

(** The key a call has put into [processing] is out again when the call is
    over: the service is as it was. *)
Lemma released_service key svc :
  key ∉ SettlementService.processing svc ->
  SettlementService.setProcessing
    (SettlementService.setDelete key
       (SettlementService.processing
          (SettlementService.setProcessing
             (SettlementService.setAdd key (SettlementService.processing svc)) svc)))
    (SettlementService.setProcessing
       (SettlementService.setAdd key (SettlementService.processing svc)) svc)
  = svc.
Proof.
  intros Hnin. destruct svc as [auto handle grid keys]. unfold SettlementService.setProcessing.
  cbn [SettlementService.processing SettlementService.autoTrigger
       SettlementService.intervalHandle SettlementService.gridContext] in *.
  by rewrite setDelete_setAdd.
Qed.

(** [X22] [triggerSettlement] leaves the set of keys in process as it found
    it, whether it returns or throws; and while the key of an agent and a
    merchant is in process, a call for them returns null and does not touch
    the facilitator. *)
Theorem triggerSettlement_releases_its_key (now now' : Z) (agentAddress : string)
    (merchantAddress : option string) (sent : Outcome string)
    (svc : SettlementService.Service) (f : State) :
  let key := SettlementService.processingKey agentAddress merchantAddress in
  let call :=
    SettlementService.triggerSettlement now now' agentAddress merchantAddress sent svc f in
  snd (fst call) = svc
  /\ (key ∈ SettlementService.processing svc -> call = (Returned None, svc, f)).
Proof.
  cbv zeta. unfold SettlementService.triggerSettlement.
  destruct (decide (_ ∈ SettlementService.processing svc)) as [Hin|Hnin]; [done|].
  split; [|done]. rewrite (released_service _ svc Hnin).
  repeat case_match; done.
Qed.

Lemma findBatch_appended bid s b :
  findBatch bid s = None -> SettlementBatch.id b = bid ->
  findBatch bid (setSettlementBatches (settlementBatches s ++ [b]) s)
  = Some (List.length (settlementBatches s), b).
Proof.
  unfold findBatch. fields. intros Hnone Hid. apply list_find_Some. split; [|split; [done|]].
  - by rewrite lookup_app_r, Nat.sub_diag by lia.
  - intros j b' Hj Hlt. rewrite lookup_app_l in Hj by done.
    eapply list_find_None in Hnone. rewrite Forall_forall in Hnone.
    apply Hnone. apply list_elem_of_lookup. eauto.
Qed.

Lemma latest_batch_of_agent s b :
  last (getSettlementBatches (setSettlementBatches (settlementBatches s ++ [b]) s)
          (Some (SettlementBatch.agentAddress b)))
  = Some b.
Proof.
  unfold getSettlementBatches. fields. case_bool_decide; [apply last_snoc|].
  rewrite List.filter_app. cbn [List.filter]. rewrite bool_decide_eq_true_2 by done.
  apply last_snoc.
Qed.

(** What the scheduler counts for an agent and a merchant is among what a
    batch for them takes in. *)
Lemma pendingAuths_batched s agentAddress merchant a :
  wellFormed s -> a ∈ SettlementService.pendingAuths s agentAddress merchant ->
  (PaymentAuthorization.id a, a) ∈ queuedFor s agentAddress merchant
  /\ PaymentAuthorization.status a = AuthorizationStatus.validated.
Proof.
  intros Hwf Ha. apply pendingAuths_elem_of in Ha as ((r & Hr) & Hag & Hm & Hst & Hq).
  split; [|done]. unfold queuedFor. apply elem_of_List_filter. split.
  - apply queuedAuthorizations_elem_of. split; [done|]. split; [|done].
    by rewrite (wf_keys s Hwf _ _ Hr).
  - by apply bool_decide_eq_true.
Qed.

Lemma queuedFor_upToStatus s s' agentAddress merchant r a' :
  settlementQueue s' = settlementQueue s ->
  upToStatus (authorizations s) (authorizations s') ->
  (r, a') ∈ queuedFor s' agentAddress merchant ->
  exists a, (r, a) ∈ queuedFor s agentAddress merchant.
Proof.
  intros Hq Hup Hin. unfold queuedFor in *. apply elem_of_List_filter in Hin as [Hin Hm].
  apply queuedAuthorizations_elem_of in Hin as (Hr & Ha' & Hag).
  destruct (upToStatus_Some _ _ _ _ Hup Ha') as (a & Ha & Heq).
  exists a. apply elem_of_List_filter. split.
  - apply queuedAuthorizations_elem_of. rewrite <- Hq. split; [done|]. split; [done|].
    by rewrite <- Hag, <- Heq.
  - apply bool_decide_eq_true in Hm. apply bool_decide_eq_true. cbn [snd] in *.
    by rewrite <- Hm, <- Heq.
Qed.

End Trigger.

Section TriggerOutcome.
Import FacilitatorService Reach.

(** The first half of an uninterrupted [triggerSettlement] for a merchant
    given by name: the batch made, and where it sits. *)
Lemma dispatch_batch now agentAddress merchant s :
  merchant ≠ "" -> queuedFor s agentAddress merchant ≠ [] ->
  exists b,
    createSettlementBatch now agentAddress (Some merchant) s
    = (Some b, setSettlementBatches (settlementBatches s ++ [b]) s)
    /\ SettlementBatch.id b = batchId now agentAddress
    /\ SettlementBatch.agentAddress b = agentAddress
    /\ SettlementBatch.merchantAddress b = merchant
    /\ SettlementBatch.status b = BatchStatus.pending
    /\ SettlementBatch.authorizations b = List.map fst (queuedFor s agentAddress merchant).
Proof.
  intros Hm Hne.
  destruct (createSettlementBatch_for now agentAddress (Some merchant) merchant s)
    as (b & Hb & Hbm & Hba); [|done|].
  { unfold notGiven. by rewrite bool_decide_eq_false_2. }
  exists b.
  destruct (createSettlementBatch now agentAddress (Some merchant) s) as [ob s'] eqn:Hc.
  cbn [fst] in Hb. subst ob.
  pose proof (createSettlementBatch_effect _ _ _ _ _ _ Hc) as (? & ? & ? & ? & _ & _ & Hbeq & ->).
  split; [done|]. rewrite Hbeq in *. done.
Qed.

(** [X23] Without a Grid context (the routes construct the service without
    one), [triggerSettlement] for a merchant with queued authorizations, at
    a clock reading whose batch id is new, throws "Grid context not
    available for settlement".  The batch it created is left failed with
    that error; its members are pending again and still in the queue.  From
    then on [queueForSettlement] answers "Already queued" for them, the
    scheduler finds none of them and [shouldSettle] is false for the pair at
    any time. *)
Theorem settlement_fails_without_grid_context (thresholds : SettlementThreshold.t)
    (now now' : Z) (agentAddress merchant : string) (sent : Outcome string)
    (svc : SettlementService.Service) (f : State) :
  reachable thresholds f ->
  SettlementService.gridContext svc = false ->
  SettlementService.processingKey agentAddress (Some merchant)
    ∉ SettlementService.processing svc ->
  merchant ≠ "" ->
  queuedFor f agentAddress merchant ≠ [] ->
  findBatch (batchId now agentAddress) f = None ->
  exists b f',
    SettlementService.triggerSettlement now now' agentAddress (Some merchant) sent svc f
    = (Thrown "Grid context not available for settlement", svc, f')
    /\ settlementBatches f' = settlementBatches f ++ [b]
    /\ SettlementBatch.status b = BatchStatus.failed
    /\ SettlementBatch.error b = Some "Grid context not available for settlement"
    /\ SettlementBatch.authorizations b = List.map fst (queuedFor f agentAddress merchant)
    /\ (forall r, r ∈ SettlementBatch.authorizations b ->
                  statusOf f' r = Some AuthorizationStatus.pending)
    /\ settlementQueue f' = settlementQueue f
    /\ (forall r later, r ∈ SettlementBatch.authorizations b ->
          queueForSettlement later r f'
          = (QueueResult.mk false false (Some "Already queued"), f'))
    /\ SettlementService.pendingAuths f' agentAddress merchant = []
    /\ (forall later, SettlementService.shouldSettle later f' agentAddress merchant = false).
Proof.
  intros Hs Hgrid Hkey Hm Hne Hfresh.
  destruct (dispatch_batch now agentAddress merchant f Hm Hne)
    as (b & Hc & Hid & Hag & Hbm & Hst & Hmembers).
  set (f1 := setSettlementBatches (settlementBatches f ++ [b]) f) in *.
  set (message := "Grid context not available for settlement").
  assert (Hs1 : reachable thresholds f1).
  { change f1 with (snd (Some b, f1)). rewrite <- Hc.
    by apply (reach_call _ _ f now (CreateSettlementBatch agentAddress (Some merchant))). }
  assert (Hfind : findBatch (SettlementBatch.id b) f1
                  = Some (List.length (settlementBatches f), b)).
  { rewrite Hid. by apply findBatch_appended. }
  destruct (failSettlement (SettlementBatch.id b) message f1) as [f2|] eqn:Hf.
  2: { unfold failSettlement in Hf. by rewrite Hfind in Hf. }
  assert (Hs2 : reachable thresholds f2).
  { pose proof (reach_call _ _ f1 now' (FailSettlement (SettlementBatch.id b) message) Hs1 I)
      as H. simpl in H. by rewrite Hf in H. }
  pose proof (reachableBy_wellFormed _ _ _ Hs1) as Hwf1.
  pose proof (reachableBy_wellFormed _ _ _ Hs2) as Hwf2.
  pose proof (failSettlement_effect _ _ _ _ Hf) as (i & b0 & Hfind' & Hauth & Hb2 & _ & _ & Hq2).
  rewrite Hfind in Hfind'. injection Hfind' as <- <-.
  assert (Hstatus : forall r, r ∈ SettlementBatch.authorizations b ->
                              statusOf f2 r = Some AuthorizationStatus.pending).
  { intros r Hr. eapply statusOf_writeEach; [exact Hauth|exact Hr|].
    eapply (wf_batches f1 Hwf1 b r); [|done].
    unfold f1. fields. apply elem_of_app. right. apply list_elem_of_here. }
  assert (Hnone : SettlementService.pendingAuths f2 agentAddress merchant = []).
  { destruct (SettlementService.pendingAuths f2 agentAddress merchant) as [|a l] eqn:E; [done|].
    exfalso. assert (Ha : a ∈ SettlementService.pendingAuths f2 agentAddress merchant)
      by (rewrite E; apply list_elem_of_here).
    pose proof Ha as Ha'. apply pendingAuths_elem_of in Ha' as ((r & Hr) & _).
    apply (pendingAuths_batched f2 _ _ _ Hwf2) in Ha as [Hin Hval].
    destruct (queuedFor_upToStatus f f2 agentAddress merchant (PaymentAuthorization.id a) a)
      as (a0 & Ha0);
      [by rewrite Hq2|rewrite Hauth; unfold f1; fields; apply upToStatus_writeEach|exact Hin|].
    assert (Hmem : PaymentAuthorization.id a ∈ SettlementBatch.authorizations b).
    { rewrite Hmembers. by apply (list_elem_of_fmap_2 fst _ (_, a0)). }
    apply Hstatus in Hmem. unfold statusOf in Hmem.
    rewrite <- (wf_keys f2 Hwf2 _ _ Hr) in Hr. rewrite Hr in Hmem. simpl in Hmem. congruence. }
  exists (SettlementBatch.mk (SettlementBatch.id b) (SettlementBatch.agentAddress b)
            (SettlementBatch.merchantAddress b) (SettlementBatch.authorizations b)
            (SettlementBatch.totalAmount b) (SettlementBatch.currency b) BatchStatus.failed
            (SettlementBatch.createdAt b) (SettlementBatch.settledAt b)
            (SettlementBatch.transactionSignature b) (Some message)), f2.
  split; [|split; [|split; [done|split; [done|split; [done|split; [done|split; [done|split;
    [|split; [done|]]]]]]]]].
  - unfold SettlementService.triggerSettlement. rewrite decide_False by done.
    rewrite (released_service _ svc Hkey). rewrite bool_decide_eq_false_2 by done.
    rewrite Hc. unfold SettlementService.executeSettlement.
    cbn [SettlementService.setProcessing SettlementService.gridContext]. rewrite Hgrid.
    fold f1.
    assert (Hlast : last (getSettlementBatches f1 (Some agentAddress)) = Some b)
      by (rewrite <- Hag; apply latest_batch_of_agent).
    rewrite Hlast, decide_True by done. fold message. by rewrite Hf.
  - rewrite Hb2. unfold f1. fields. rewrite insert_app_r_alt by lia.
    by rewrite Nat.sub_diag.
  - intros r later Hr.
    assert (Hin : r ∈ settlementQueue f2).
    { rewrite Hq2. unfold f1. fields.
      by destruct (batch_members_stored _ _ _ _ _ _ r Hc Hr) as [? _]. }
    assert (Hsome : is_Some (authorizations f2 !! r)) by (by apply (wf_queue f2 Hwf2)).
    destruct Hsome as [a Ha].
    destruct (queueForSettlement_cases later r f2) as (_ & Hqueued & _). by apply (Hqueued a).
  - intros later. unfold SettlementService.shouldSettle. by rewrite Hnone.
Qed.

Lemma settlement_fails_without_grid_context_witness :
  let f := Samples.afterBoth in
  let svc := Samples.scheduler in
  let agentAddress := Samples.agent in
  let merchant := Samples.merchant in
  let now := Samples.t0 + 4 in
  reachable Samples.thresholds f
  /\ SettlementService.gridContext svc = false
  /\ (SettlementService.processingKey agentAddress (Some merchant)
        ∉ SettlementService.processing svc)
  /\ merchant ≠ ""
  /\ queuedFor f agentAddress merchant ≠ []
  /\ findBatch (batchId now agentAddress) f = None
  /\ exists b f',
       SettlementService.triggerSettlement now (Samples.t0 + 5) agentAddress (Some merchant)
         (Returned "unused") svc f
       = (Thrown "Grid context not available for settlement", svc, f')
       /\ settlementBatches f' = settlementBatches f ++ [b]
       /\ SettlementBatch.status b = BatchStatus.failed
       /\ SettlementBatch.error b = Some "Grid context not available for settlement"
       /\ SettlementBatch.authorizations b = List.map fst (queuedFor f agentAddress merchant)
       /\ (forall r, r ∈ SettlementBatch.authorizations b ->
                     statusOf f' r = Some AuthorizationStatus.pending)
       /\ settlementQueue f' = settlementQueue f
       /\ (forall r later, r ∈ SettlementBatch.authorizations b ->
             queueForSettlement later r f'
             = (QueueResult.mk false false (Some "Already queued"), f'))
       /\ SettlementService.pendingAuths f' agentAddress merchant = []
       /\ (forall later, SettlementService.shouldSettle later f' agentAddress merchant = false).
Proof.
  cbv zeta.
  assert (H1 : SettlementService.gridContext Samples.scheduler = false) by reflexivity.
  assert (H2 : SettlementService.processingKey Samples.agent (Some Samples.merchant)
               ∉ SettlementService.processing Samples.scheduler)
    by (vm_compute; apply not_elem_of_nil).
  assert (H3 : Samples.merchant ≠ "") by (vm_compute; discriminate).
  assert (H4 : queuedFor Samples.afterBoth Samples.agent Samples.merchant ≠ [])
    by (vm_compute; discriminate).
  assert (H5 : findBatch (batchId (Samples.t0 + 4) Samples.agent) Samples.afterBoth = None)
    by (vm_compute; reflexivity).
  split; [exact afterBoth_reachable|]. split; [exact H1|]. split; [exact H2|].
  split; [exact H3|]. split; [exact H4|]. split; [exact H5|].
  exact (settlement_fails_without_grid_context _ _ (Samples.t0 + 5) _ _ (Returned "unused") _ _
           afterBoth_reachable H1 H2 H3 H4 H5).
Defined.

(** [X24] With a Grid context and a transfer that returns a signature,
    [triggerSettlement] for a merchant with queued authorizations, at a clock
    reading whose batch id is new, returns the batch: completed, with the
    signature and the time of completion, for that merchant.  Its members
    are the agent's queued authorizations for the merchant; they are settled,
    one queue entry is taken out for each, and the scheduler has nothing left
    for the pair. *)
Theorem settlement_with_grid_context (thresholds : SettlementThreshold.t)
    (now now' : Z) (agentAddress merchant signature : string)
    (svc : SettlementService.Service) (f : State) :
  reachable thresholds f ->
  SettlementService.gridContext svc = true ->
  SettlementService.processingKey agentAddress (Some merchant)
    ∉ SettlementService.processing svc ->
  merchant ≠ "" ->
  queuedFor f agentAddress merchant ≠ [] ->
  findBatch (batchId now agentAddress) f = None ->
  exists b f',
    SettlementService.triggerSettlement now now' agentAddress (Some merchant)
      (Returned signature) svc f
    = (Returned (Some b), svc, f')
    /\ settlementBatches f' = settlementBatches f ++ [b]
    /\ SettlementBatch.status b = BatchStatus.completed
    /\ SettlementBatch.transactionSignature b = Some signature
    /\ SettlementBatch.settledAt b = Some now'
    /\ SettlementBatch.merchantAddress b = merchant
    /\ SettlementBatch.authorizations b = List.map fst (queuedFor f agentAddress merchant)
    /\ (forall r, r ∈ SettlementBatch.authorizations b ->
                  statusOf f' r = Some AuthorizationStatus.settled)
    /\ settlementQueue f' = removeEach (SettlementBatch.authorizations b) (settlementQueue f)
    /\ SettlementService.pendingAuths f' agentAddress merchant = [].
Proof.
  intros Hs Hgrid Hkey Hm Hne Hfresh.
  destruct (dispatch_batch now agentAddress merchant f Hm Hne)
    as (b & Hc & Hid & Hag & Hbm & Hst & Hmembers).
  set (f1 := setSettlementBatches (settlementBatches f ++ [b]) f) in *.
  assert (Hs1 : reachable thresholds f1).
  { change f1 with (snd (Some b, f1)). rewrite <- Hc.
    by apply (reach_call _ _ f now (CreateSettlementBatch agentAddress (Some merchant))). }
  assert (Hfind : findBatch (SettlementBatch.id b) f1
                  = Some (List.length (settlementBatches f), b)).
  { rewrite Hid. by apply findBatch_appended. }
  pose proof (reachableBy_wellFormed _ _ _ Hs1) as Hwf1.
  destruct (completeSettlement_located now' (SettlementBatch.id b) signature f1 _ _ Hwf1 Hfind)
    as (f2 & Hdone & _ & Hsettled & Hq2).
  assert (Hs2 : reachable thresholds f2).
  { pose proof (reach_call _ _ f1 now'
                  (CompleteSettlement (SettlementBatch.id b) signature) Hs1 I) as H.
    simpl in H. by rewrite Hdone in H. }
  pose proof (reachableBy_wellFormed _ _ _ Hs2) as Hwf2.
  pose proof (completeSettlement_effect _ _ _ _ _ Hdone)
    as (i & b0 & Hfind' & Hauth & Hb2 & _).
  rewrite Hfind in Hfind'. injection Hfind' as <- <-.
  assert (Hlook : settlementBatches f2
                  = settlementBatches f
                    ++ [SettlementBatch.mk (SettlementBatch.id b) (SettlementBatch.agentAddress b)
                          (SettlementBatch.merchantAddress b) (SettlementBatch.authorizations b)
                          (SettlementBatch.totalAmount b) (SettlementBatch.currency b)
                          BatchStatus.completed (SettlementBatch.createdAt b) (Some now')
                          (Some signature) (SettlementBatch.error b)]).
  { rewrite Hb2. unfold f1. fields. rewrite insert_app_r_alt by lia. by rewrite Nat.sub_diag. }
  assert (Hnone : SettlementService.pendingAuths f2 agentAddress merchant = []).
  { destruct (SettlementService.pendingAuths f2 agentAddress merchant) as [|a l] eqn:E; [done|].
    exfalso. assert (Ha : a ∈ SettlementService.pendingAuths f2 agentAddress merchant)
      by (rewrite E; apply list_elem_of_here).
    pose proof Ha as Ha'. apply pendingAuths_elem_of in Ha' as ((r & Hr) & _ & _ & _ & Hq).
    apply (pendingAuths_batched f2 _ _ _ Hwf2) in Ha as [Hin Hval].
    assert (Hold : exists a0, (PaymentAuthorization.id a, a0) ∈ queuedFor f agentAddress merchant).
    { unfold queuedFor in *. apply elem_of_List_filter in Hin as [Hin Hmer].
      apply queuedAuthorizations_elem_of in Hin as (Hr' & Ha2 & Hag2).
      assert (Hup : upToStatus (authorizations f) (authorizations f2)).
      { rewrite Hauth. unfold f1. fields. apply upToStatus_writeEach. }
      destruct (upToStatus_Some _ _ _ _ Hup Ha2) as (a0 & Ha0 & Heq).
      exists a0. apply elem_of_List_filter. split.
      - apply queuedAuthorizations_elem_of. split; [|split; [done|by rewrite <- Hag2, <- Heq]].
        rewrite Hq2 in Hr'. apply removeEach_elem_of in Hr'. by unfold f1 in Hr'.
      - apply bool_decide_eq_true in Hmer. apply bool_decide_eq_true. cbn [snd] in *.
        by rewrite <- Hmer, <- Heq. }
    destruct Hold as (a0 & Ha0).
    assert (Hmem : PaymentAuthorization.id a ∈ SettlementBatch.authorizations b).
    { rewrite Hmembers. by apply (list_elem_of_fmap_2 fst _ (_, a0)). }
    apply Hsettled in Hmem. unfold statusOf in Hmem.
    rewrite <- (wf_keys f2 Hwf2 _ _ Hr) in Hr. rewrite Hr in Hmem. simpl in Hmem. congruence. }
  eexists _, f2.
  split; [|split; [exact Hlook|split; [done|split; [done|split; [done|split; [done|split;
    [done|split; [done|split; [done|done]]]]]]]]].
  unfold SettlementService.triggerSettlement. rewrite decide_False by done.
  rewrite (released_service _ svc Hkey). rewrite bool_decide_eq_false_2 by done.
  rewrite Hc. unfold SettlementService.executeSettlement.
  cbn [SettlementService.setProcessing SettlementService.gridContext]. rewrite Hgrid.
  fold f1. rewrite Hdone, Hlook. by rewrite lookup_app_r, Nat.sub_diag by lia.
Qed.

Lemma settlement_with_grid_context_witness :
  let f := Samples.afterBoth in
  let svc := Samples.schedulerWithGrid in
  let agentAddress := Samples.agent in
  let merchant := Samples.merchant in
  let now := Samples.t0 + 4 in
  reachable Samples.thresholds f
  /\ SettlementService.gridContext svc = true
  /\ (SettlementService.processingKey agentAddress (Some merchant)
        ∉ SettlementService.processing svc)
  /\ merchant ≠ ""
  /\ queuedFor f agentAddress merchant ≠ []
  /\ findBatch (batchId now agentAddress) f = None
  /\ exists b f',
       SettlementService.triggerSettlement now (Samples.t0 + 5) agentAddress (Some merchant)
         (Returned "tx_abc") svc f
       = (Returned (Some b), svc, f')
       /\ settlementBatches f' = settlementBatches f ++ [b]
       /\ SettlementBatch.status b = BatchStatus.completed
       /\ SettlementBatch.transactionSignature b = Some "tx_abc"
       /\ SettlementBatch.settledAt b = Some (Samples.t0 + 5)
       /\ SettlementBatch.merchantAddress b = merchant
       /\ SettlementBatch.authorizations b = List.map fst (queuedFor f agentAddress merchant)
       /\ (forall r, r ∈ SettlementBatch.authorizations b ->
                     statusOf f' r = Some AuthorizationStatus.settled)
       /\ settlementQueue f' = removeEach (SettlementBatch.authorizations b) (settlementQueue f)
       /\ SettlementService.pendingAuths f' agentAddress merchant = [].
Proof.
  cbv zeta.
  assert (H1 : SettlementService.gridContext Samples.schedulerWithGrid = true) by reflexivity.
  assert (H2 : SettlementService.processingKey Samples.agent (Some Samples.merchant)
               ∉ SettlementService.processing Samples.schedulerWithGrid)
    by (vm_compute; apply not_elem_of_nil).
  assert (H3 : Samples.merchant ≠ "") by (vm_compute; discriminate).
  assert (H4 : queuedFor Samples.afterBoth Samples.agent Samples.merchant ≠ [])
    by (vm_compute; discriminate).
  assert (H5 : findBatch (batchId (Samples.t0 + 4) Samples.agent) Samples.afterBoth = None)
    by (vm_compute; reflexivity).
  split; [exact afterBoth_reachable|]. split; [exact H1|]. split; [exact H2|].
  split; [exact H3|]. split; [exact H4|]. split; [exact H5|].
  exact (settlement_with_grid_context _ _ (Samples.t0 + 5) _ _ "tx_abc" _ _
           afterBoth_reachable H1 H2 H3 H4 H5).
Defined.

End TriggerOutcome.

(** ** Signatures have the length of a digest *)

Section DigestLength.
Import FacilitatorService Reach.











End DigestLength.

(** ** The handlers *)

Section Routes.
Import FacilitatorService Reach.





(** [X27] The /queue handler asks for an [agentAddress] and never compares it
    with the authorization: with any non-empty address, a stored
    authorization that is neither queued nor settled is queued and
    validated, as by [queueForSettlement]. *)
Theorem queue_route_takes_any_agent (now : Z) (id agentAddress : string) (s : State)
    (a : PaymentAuthorization.t) :
  id ≠ "" -> agentAddress ≠ "" ->
  getAuthorization s id = Some a ->
  id ∉ settlementQueue s ->
  PaymentAuthorization.status a ≠ AuthorizationStatus.settled ->
  let reply := fst (FacilitatorRoutes.handle now
                      (FacilitatorRoutes.PostQueue (Some id) (Some agentAddress)) s) in
  let s' := snd (FacilitatorRoutes.handle now
                   (FacilitatorRoutes.PostQueue (Some id) (Some agentAddress)) s) in
  FacilitatorRoutes.code reply = 200%nat
  /\ s' = snd (queueForSettlement now id s)
  /\ statusOf s' id = Some AuthorizationStatus.validated
  /\ settlementQueue s' = settlementQueue s ++ [id].
Proof.
  intros Hid Hag Ha Hnin Hst. cbv zeta. cbn [FacilitatorRoutes.handle].
  unfold FacilitatorRoutes.given. rewrite !bool_decide_eq_false_2 by done.
  destruct (queueForSettlement_cases now id s) as (_ & _ & _ & Hok).
  destruct (Hok a Ha Hnin Hst) as (s1 & Hq & Hqueue & _ & Hstatus & _). cbv zeta in Hq.
  rewrite Hq. cbn [QueueResult.success fst snd FacilitatorRoutes.code]. done.
Qed.

Lemma queue_route_takes_any_agent_witness :
  let id := "auth_threshold_001" in
  let s := Samples.verified in
  let request := FacilitatorRoutes.PostQueue (Some id) (Some "someOtherAgent") in
  let reply := fst (FacilitatorRoutes.handle (Samples.t0 + 1) request s) in
  let s' := snd (FacilitatorRoutes.handle (Samples.t0 + 1) request s) in
  id ≠ ""
  /\ "someOtherAgent" ≠ ""
  /\ getAuthorization s id = Some Samples.auth1
  /\ (id ∉ settlementQueue s)
  /\ PaymentAuthorization.status Samples.auth1 ≠ AuthorizationStatus.settled
  /\ FacilitatorRoutes.code reply = 200%nat
  /\ s' = snd (queueForSettlement (Samples.t0 + 1) id s)
  /\ statusOf s' id = Some AuthorizationStatus.validated
  /\ settlementQueue s' = settlementQueue s ++ [id].
Proof.
  cbv zeta.
  assert (H1 : "auth_threshold_001" ≠ "") by discriminate.
  assert (H2 : "someOtherAgent" ≠ "") by discriminate.
  assert (H3 : getAuthorization Samples.verified "auth_threshold_001" = Some Samples.auth1)
    by (vm_compute; reflexivity).
  assert (H4 : "auth_threshold_001" ∉ settlementQueue Samples.verified)
    by (vm_compute; apply not_elem_of_nil).
  assert (H5 : PaymentAuthorization.status Samples.auth1 ≠ AuthorizationStatus.settled)
    by (vm_compute; discriminate).
  split; [exact H1|]. split; [exact H2|]. split; [exact H3|]. split; [exact H4|].
  split; [exact H5|].
  exact (queue_route_takes_any_agent (Samples.t0 + 1) _ _ _ _ H1 H2 H3 H4 H5).
Defined.

End Routes.

(** ** Usage records only grow *)

Section UsageGrowth.
Import FacilitatorService Reach.

Lemma exec_usage_grows now c s agent u :
  agentUsage s !! agent = Some u ->
  exists u', agentUsage (exec now c s) !! agent = Some u'
             /\ AgentUsage.firstRequestAt u' = AgentUsage.firstRequestAt u
             /\ AgentUsage.requestCount u <= AgentUsage.requestCount u'
             /\ AgentUsage.authorizations u `prefix_of` AgentUsage.authorizations u'.
Proof.
  intros Hu.
  destruct (exec_authorizations now c s) as [_|(a & -> & _ & Hv & _)].
  - destruct c as [a|id|ag m|bid tx|bid err|params|did res note|];
      try (rewrite exec_agentUsage by (intros a0 [=]); exists u; by repeat split).
    change (exec now (VerifyAuthorization a) s) with (snd (verifyAuthorization now a s)).
    destruct (verifyAuthorization_effect now a s) as [->|(_ & Hv & _)];
      [exists u; by repeat split|].
    apply verifyAuthorization_stores in Hv as [_ ->].
    destruct (decide (agent = PaymentAuthorization.agentAddress a)) as [->|Hne].
    + rewrite trackAgentUsage_lookup. fields. rewrite Hu. eexists. split; [done|].
      cbn. split; [done|]. split; [lia|]. by apply prefix_app_r.
    + rewrite trackAgentUsage_other by done. exists u. by repeat split.
  - change (exec now (VerifyAuthorization a) s) with (snd (verifyAuthorization now a s)).
    apply verifyAuthorization_stores in Hv as [_ ->].
    destruct (decide (agent = PaymentAuthorization.agentAddress a)) as [->|Hne].
    + rewrite trackAgentUsage_lookup. fields. rewrite Hu. eexists. split; [done|].
      cbn. split; [done|]. split; [lia|]. by apply prefix_app_r.
    + rewrite trackAgentUsage_other by done. exists u. by repeat split.
Qed.

(** [X28] Once an agent has a usage record, no call removes or resets it:
    [firstRequestAt] keeps its value, [requestCount] never goes down, and the
    recorded ids are only extended at the end. *)
Theorem first_request_is_fixed (calls : list (Z * Call)) (s : State) (agent : string)
    (u : AgentUsage.t) :
  agentUsage s !! agent = Some u ->
  exists u',
    agentUsage (run calls s) !! agent = Some u'
    /\ AgentUsage.firstRequestAt u' = AgentUsage.firstRequestAt u
    /\ AgentUsage.requestCount u <= AgentUsage.requestCount u'
    /\ AgentUsage.authorizations u `prefix_of` AgentUsage.authorizations u'.
Proof.
  revert s u. induction calls as [|[now c] calls IH]; intros s u Hu.
  - exists u. by repeat split.
  - destruct (exec_usage_grows now c s agent u Hu) as (u1 & Hu1 & Hfirst & Hcount & Hpre).
    destruct (IH (exec now c s) u1 Hu1) as (u' & Hu' & Hfirst' & Hcount' & Hpre').
    exists u'. split; [exact Hu'|]. split; [congruence|]. split; [lia|]. by etransitivity.
Qed.

Lemma first_request_is_fixed_witness :
  let s := Samples.afterFirst in
  let u := getAgentUsage s Samples.agent in
  let calls :=
    [(Samples.t0 + 2, VerifyAuthorization Samples.auth2);
     (Samples.t0 + 3, QueueForSettlement "auth_threshold_002");
     (Samples.t0 + 4, CreateSettlementBatch Samples.agent None);
     (Samples.t0 + 5, CompleteSettlement "batch_1730000000004_mockAgen" "tx_abc")] in
  agentUsage s !! Samples.agent = Some u
  /\ exists u',
       agentUsage (run calls s) !! Samples.agent = Some u'
       /\ AgentUsage.firstRequestAt u' = AgentUsage.firstRequestAt u
       /\ AgentUsage.requestCount u <= AgentUsage.requestCount u'
       /\ AgentUsage.authorizations u `prefix_of` AgentUsage.authorizations u'.
Proof.
  cbv zeta.
  assert (H : agentUsage Samples.afterFirst !! Samples.agent
              = Some (getAgentUsage Samples.afterFirst Samples.agent))
    by (vm_compute; reflexivity).
  split; [exact H|].
  exact (first_request_is_fixed _ _ _ _ H).
Defined.

End UsageGrowth.
